(** * dept_map.py: inertial ingestion, frame loop and query handlers

    A shallow embedding of [src/dept_map.py].  The program runs two daemon
    threads over process-wide globals:

    - [imu_reader] reads text records from a serial port, translates the
      device time stamp to the wall clock and appends a 7-tuple to
      [imu_buffer], a [deque(maxlen=2000)];
    - [camera_loop] grabs a frame, turns the model's raw depth map into a
      distance map ([depth_to_distance]), publishes the results in globals,
      filters a snapshot of [imu_buffer] to the second before the frame and
      appends the pair to [synced_imu], a [deque(maxlen=100)];

    and Flask handlers that read the globals.

    Numbers.  Python is dynamically typed and every function below is
    arithmetic-generic: the same text runs on Python floats and on numpy
    arrays of any float dtype.  The embedding keeps that: the program is
    written once over a class [Number] and instantiated three times,
    - at [Q], exact rational arithmetic, for the algebraic laws;
    - at [float], Rocq's primitive IEEE 754 binary64 numbers (the arithmetic
      of Python's [float] and of numpy's [float64]), to run the program on
      concrete inputs with the rounding the interpreter performs;
    - at binary32, for depth maps that are numpy [float32] arrays. *)

From Stdlib Require Import Reals Lra.
From Stdlib Require Import ZArith QArith Qminmax Qround Lqa Floats.
From Stdlib Require Import List String Ascii Bool Lia.
Import ListNotations.
Open Scope string_scope.
Open Scope list_scope.

Set Implicit Arguments.
Set Warnings "-register-all,-inexact-float".

(* ================================================================= *)
(** * Part I: the program *)
(* ================================================================= *)

(** ** Numbers *)

Declare Scope num_scope.
Delimit Scope num_scope with num.

Class Number (A : Type) : Type := {
  (** the decimal literal [m * 10^e] *)
  of_decimal : Z -> Z -> A;
  num_add : A -> A -> A;
  num_sub : A -> A -> A;
  num_mul : A -> A -> A;
  num_div : A -> A -> A;
  (** Python's [<] *)
  num_ltb : A -> A -> bool;
  (** one step of the reductions [ndarray.min()] and [ndarray.max()] *)
  minimum : A -> A -> A;
  maximum : A -> A -> A
}.

Infix "+" := num_add : num_scope.
Infix "-" := num_sub : num_scope.
Infix "*" := num_mul : num_scope.
Infix "/" := num_div : num_scope.
Infix "<?" := num_ltb : num_scope.

(** *** Exact rationals *)

Definition Q_ltb (x y : Q) : bool := negb (Qle_bool y x).

(** Division by zero does not arise below: the program divides by the
    constant [1_000_000.0] and by [max - min + 1e-8] only. *)
#[export] Instance Q_Number : Number Q := {
  of_decimal m e := (inject_Z m * Qpower 10 e)%Q;
  num_add := Qplus;
  num_sub := Qminus;
  num_mul := Qmult;
  num_div := Qdiv;
  num_ltb := Q_ltb;
  minimum x y := if Q_ltb y x then y else x;
  maximum x y := if Q_ltb x y then y else x
}.

(** *** IEEE 754 binary64 *)

(** The integer [z], rounded to nearest even. *)
Definition float_of_Z (z : Z) : float :=
  SF2Prim (binary_normalize prec emax z 0 false).

(** [m * 10^e] as a binary64 number.  Both [m] and the power of ten are
    exact in binary64 for the literals of this program (|m| < 2^53 and
    |e| <= 22), so the single rounding of the product or of the quotient
    is the correctly rounded literal, as Python's parser produces it. *)
Definition float_of_decimal (m e : Z) : float :=
  if (0 <=? e)%Z then float_of_Z (m * 10 ^ e)
  else PrimFloat.div (float_of_Z m) (float_of_Z (10 ^ (- e))).

(** numpy's [minimum] and [maximum] propagate NaN. *)
Definition float_minimum (x y : float) : float :=
  if PrimFloat.is_nan x then x
  else if PrimFloat.is_nan y then y
  else if PrimFloat.ltb y x then y else x.

Definition float_maximum (x y : float) : float :=
  if PrimFloat.is_nan x then x
  else if PrimFloat.is_nan y then y
  else if PrimFloat.ltb x y then y else x.

#[export] Instance float_Number : Number float := {
  of_decimal := float_of_decimal;
  num_add := PrimFloat.add;
  num_sub := PrimFloat.sub;
  num_mul := PrimFloat.mul;
  num_div := PrimFloat.div;
  num_ltb := PrimFloat.ltb;
  minimum := float_minimum;
  maximum := float_maximum
}.

(** *** IEEE 754 binary32 *)

(** The arithmetic of a numpy [float32] array, which stays [float32] when
    it meets a Python float.  The numbers are the library's [spec_float]
    with the operations at 24 bits of precision. *)
Definition prec32 : Z := 24.
Definition emax32 : Z := 128.

Definition binary32_of_Z (z : Z) : spec_float :=
  binary_normalize prec32 emax32 z 0 false.

Definition binary32_of_decimal (m e : Z) : spec_float :=
  if (0 <=? e)%Z then binary32_of_Z (m * 10 ^ e)
  else SFdiv prec32 emax32 (binary32_of_Z m) (binary32_of_Z (10 ^ (- e))).

Definition binary32_is_nan (x : spec_float) : bool :=
  match x with
  | S754_nan => true
  | _ => false
  end.

Definition binary32_minimum (x y : spec_float) : spec_float :=
  if binary32_is_nan x then x
  else if binary32_is_nan y then y
  else if SFltb y x then y else x.

Definition binary32_maximum (x y : spec_float) : spec_float :=
  if binary32_is_nan x then x
  else if binary32_is_nan y then y
  else if SFltb x y then y else x.

#[export] Instance binary32_Number : Number spec_float := {
  of_decimal := binary32_of_decimal;
  num_add := SFadd prec32 emax32;
  num_sub := SFsub prec32 emax32;
  num_mul := SFmul prec32 emax32;
  num_div := SFdiv prec32 emax32;
  num_ltb := SFltb;
  minimum := binary32_minimum;
  maximum := binary32_maximum
}.

(** ** Exceptions *)

Inductive exn : Type :=
| ValueError        (* float() of a non-numeric field; min() of an empty array *)
| TransportError.   (* imu_ser.readline() failing *)

Inductive result (T : Type) : Type :=
| Ok (x : T)
| Raise (e : exn).

Arguments Ok {T} x.
Arguments Raise {T} e.

(** ** [collections.deque(maxlen=...)] *)

(** [deque.append]: the item goes to the right end; when that makes the
    deque longer than [maxlen], one item is dropped from the left end. *)
Definition deque_append {T : Type} (maxlen : nat) (d : list T) (x : T) : list T :=
  let d' := d ++ [x] in
  if (maxlen <? List.length d')%nat then tl d' else d'.

(** [d[-1]], for a non-empty [d]. *)
Fixpoint last_item {T : Type} (d : list T) : option T :=
  match d with
  | [] => None
  | [x] => Some x
  | _ :: d' => last_item d'
  end.

(** ** [str.strip] and [str.split(' ')] *)

(** A decoded line is a [string] whose characters are code points below
    256.  [str.isspace] holds there for TAB..CR, FS..US, space, NEL and
    NBSP. *)
Definition is_space (c : ascii) : bool :=
  let n := nat_of_ascii c in
  ((9 <=? n) && (n <=? 13) || (28 <=? n) && (n <=? 32)
   || (n =? 133) || (n =? 160))%nat.

Fixpoint lstrip (s : string) : string :=
  match s with
  | EmptyString => EmptyString
  | String c s' => if is_space c then lstrip s' else s
  end.

Fixpoint rstrip (s : string) : string :=
  match s with
  | EmptyString => EmptyString
  | String c s' =>
      match rstrip s' with
      | EmptyString => if is_space c then EmptyString else String c EmptyString
      | r => String c r
      end
  end.

Definition strip (s : string) : string := rstrip (lstrip s).

(** [s.split(sep)] with a one-character separator: every occurrence
    splits, so adjacent separators give empty fields and the empty string
    gives one empty field. *)
Fixpoint split (sep : ascii) (s : string) : list string :=
  match s with
  | EmptyString => [EmptyString]
  | String c s' =>
      if Ascii.eqb c sep then EmptyString :: split sep s'
      else match split sep s' with
           | p :: ps => String c p :: ps
           | [] => [String c EmptyString]
           end
  end.

(** ** Inertial samples *)

(** The tuple [(ts_unix, *vals)] that [imu_reader] appends; the fields are
    named as the handlers unpack it. *)
Record sample (A : Type) : Type := mk_sample {
  ts : A;
  ax : A; ay : A; az : A;
  gx : A; gy : A; gz : A
}.

(** ** Module constants (lines 15-20, 24) *)

Definition IMU_MAXLEN : nat := 2000.      (* imu_buffer = deque(maxlen=2000) *)
Definition SYNCED_MAXLEN : nat := 100.    (* synced_imu = deque(maxlen=100) *)

Section Program.

Context {A : Type} {N : Number A}.

Local Open Scope num_scope.

Definition MIN_DIST : A := of_decimal 1 0.   (* 1.0 *)
Definition MAX_DIST : A := of_decimal 5 0.   (* 5.0 *)

(** ** [imu_reader] (lines 28-55) *)

(** Python's built-in [float(str)]: [None] stands for [ValueError]. *)
Variable py_float : string -> option A.

(** The locals of [imu_reader] that outlive an iteration.
    ([system_monotonic_start] is assigned and never read.) *)
Record reader : Type := mk_reader {
  imu_start_us : option A;
  unix_start_time : A            (* time.time() before the loop, line 31 *)
}.

(** What [imu_ser.readline().decode('utf-8', errors='ignore')] gives:
    the decoded text, or an exception of the transport. *)
Inductive read_result : Type :=
| Line (text : string)
| ReadFails.

(** The body of the [try] (lines 35-52), on the reader's locals and
    [imu_buffer].  Nothing is assigned before the last [float()] has
    returned, so an exception leaves both as they were. *)
Definition imu_reader_try (r : reader) (imu_buffer : list (sample A)) (rd : read_result)
  : result (reader * list (sample A)) :=
  match rd with
  | ReadFails => Raise TransportError
  | Line text =>
      let line := strip text in
      let parts := split " " line in
      match parts with
      | [p0; p1; p2; p3; p4; p5; p6] =>            (* len(parts) == 7 *)
          match py_float p0 with
          | None => Raise ValueError
          | Some ts_raw =>
              match py_float p1, py_float p2, py_float p3,
                    py_float p4, py_float p5, py_float p6 with
              | Some v1, Some v2, Some v3, Some v4, Some v5, Some v6 =>
                  let start :=
                    match imu_start_us r with
                    | None => ts_raw
                    | Some t0 => t0
                    end in
                  let delta_sec := (ts_raw - start) / of_decimal 1000000 0 in
                  let ts_unix := unix_start_time r + delta_sec in
                  Ok (mk_reader (Some start) (unix_start_time r),
                      deque_append IMU_MAXLEN imu_buffer
                        (mk_sample ts_unix v1 v2 v3 v4 v5 v6))
              | _, _, _, _, _, _ => Raise ValueError
              end
          end
      | _ => Ok (r, imu_buffer)
      end
  end.

(** One turn of [while True] (lines 33-55): [except Exception] catches
    whatever the body raises and prints it.  The third component is the
    exception printed, if any. *)
Definition imu_reader_iteration (r : reader) (imu_buffer : list (sample A)) (rd : read_result)
  : reader * list (sample A) * option exn :=
  match imu_reader_try r imu_buffer rd with
  | Ok (r', b') => (r', b', None)
  | Raise e => (r, imu_buffer, Some e)
  end.

(** The reader thread from its start (line 29-31) over a sequence of
    reads. *)
Definition reader_start (now : A) : reader := mk_reader None now.

Definition imu_reader (r : reader) (imu_buffer : list (sample A)) (rds : list read_result)
  : reader * list (sample A) :=
  fold_left (fun st rd => fst (imu_reader_iteration (fst st) (snd st) rd)) rds (r, imu_buffer).

(** ** [depth_to_distance] (lines 71-73) *)

(** [ndarray.min()] and [ndarray.max()]; numpy raises [ValueError] on an
    array without elements.  The array is kept as the flat list of its
    entries: both reductions and the element-wise arithmetic ignore the
    shape.  Its dtype is that of the model's output, which the program
    does not fix; the binary64 instance runs it as a [float64] array. *)
Definition array_min (a : list A) : result A :=
  match a with
  | [] => Raise ValueError
  | x :: xs => Ok (fold_left minimum xs x)
  end.

Definition array_max (a : list A) : result A :=
  match a with
  | [] => Raise ValueError
  | x :: xs => Ok (fold_left maximum xs x)
  end.

Definition depth_to_distance (depth_map : list A) (min_dist max_dist : A)
  : result (list A) :=
  match array_min depth_map, array_max depth_map with
  | Ok lo, Ok hi =>
      let depth_norm :=
        map (fun v => (v - lo) / (hi - lo + of_decimal 1 (-8))) depth_map in
      Ok (map (fun n => min_dist + (of_decimal 1 0 - n) * (max_dist - min_dist))
              depth_norm)
  | Raise e, _ => Raise e
  | _, Raise e => Raise e
  end.

(** ** The windowing rule (line 109) *)

(** [0 < timestamp - sample[0] < 1.0]: a chained comparison, the middle
    operand evaluated once. *)
Definition in_window (timestamp : A) (s : sample A) : bool :=
  let d := timestamp - ts s in
  (of_decimal 0 0 <? d) && (d <? of_decimal 1 0).

Definition synchronize (timestamp : A) (imu_list : list (sample A)) : list (sample A) :=
  filter (in_window timestamp) imu_list.

End Program.

Arguments reader : clear implicits.

(** ** [camera_loop] (lines 84-116) and the process state *)

Section System.

Context {A : Type} {N : Number A}.
Variable py_float : string -> option A.

Local Open Scope num_scope.

(** A captured frame, as far as the program looks at it: its JPEG bytes
    ([cv2.imencode('.jpg', frame)[1].tobytes()]) and the raw depth map the
    model returns for it ([depth_app.estimate_depth]). *)
Record frame : Type := mk_frame {
  jpeg : string;
  raw_depth : list A
}.

(** The module globals the two threads and the handlers share.
    ([latest_depth] stays [None] for ever and is left out.) *)
Record globals : Type := mk_globals {
  imu_buffer : list (sample A);
  synced_imu : list (A * list (sample A));
  latest_rgb : option string;
  latest_depth_float : option (list A);
  latest_imu_buffer : list (sample A);
  last_imu_ts : A
}.

Definition set_imu_buffer (g : globals) (b : list (sample A)) : globals :=
  mk_globals b (synced_imu g) (latest_rgb g) (latest_depth_float g)
             (latest_imu_buffer g) (last_imu_ts g).

Definition set_latest_depth_float (g : globals) (d : list A) : globals :=
  mk_globals (imu_buffer g) (synced_imu g) (latest_rgb g) (Some d)
             (latest_imu_buffer g) (last_imu_ts g).

Definition set_latest_rgb (g : globals) (rb : string) : globals :=
  mk_globals (imu_buffer g) (synced_imu g) (Some rb) (latest_depth_float g)
             (latest_imu_buffer g) (last_imu_ts g).

Definition set_latest_imu_buffer (g : globals) (synced : list (sample A)) : globals :=
  mk_globals (imu_buffer g) (synced_imu g) (latest_rgb g) (latest_depth_float g)
             synced (last_imu_ts g).

Definition synced_imu_append (g : globals) (b : A * list (sample A)) : globals :=
  mk_globals (imu_buffer g) (deque_append SYNCED_MAXLEN (synced_imu g) b)
             (latest_rgb g) (latest_depth_float g)
             (latest_imu_buffer g) (last_imu_ts g).

Definition set_last_imu_ts (g : globals) (t : A) : globals :=
  mk_globals (imu_buffer g) (synced_imu g) (latest_rgb g) (latest_depth_float g)
             (latest_imu_buffer g) t.

(** Where [camera_loop] stands, with the locals it still needs.  The
    threads interleave between statements; a point is kept before every
    statement that reads or writes a global, the purely local work being
    done together with the following one. *)
Inductive cam_pc : Type :=
| AtRead                                                   (* line 87 *)
| AtEncode (f : frame)                                     (* line 98 *)
| AtTimestamp                                              (* line 102 *)
| AtSnapshot (timestamp : A)                               (* line 105 *)
| AtPublishImu (timestamp : A) (synced : list (sample A))  (* line 112 *)
| AtAppend (timestamp : A) (synced : list (sample A))      (* line 113 *)
| AtLastTs (timestamp : A)                                 (* line 114 *)
| Dead.                             (* an uncaught exception ended the thread *)

(** One statement of [camera_loop].  [cap] is what [cap.read()] would
    return now ([None] for [ret == False]) and [now] what [time.time()]
    would. *)
Definition camera_loop_step (cap : option frame) (now : A) (pc : cam_pc) (g : globals)
  : cam_pc * globals :=
  match pc with
  | AtRead =>                                              (* lines 87-95 *)
      match cap with
      | None => (AtRead, g)                                (* continue *)
      | Some f =>
          match depth_to_distance (raw_depth f) MIN_DIST MAX_DIST with
          | Ok dist => (AtEncode f, set_latest_depth_float g dist)
          | Raise _ => (Dead, g)
          end
      end
  | AtEncode f => (AtTimestamp, set_latest_rgb g (jpeg f)) (* lines 98-99 *)
  | AtTimestamp => (AtSnapshot now, g)                     (* line 102 *)
  | AtSnapshot timestamp =>                                (* lines 105-109 *)
      let imu_list := imu_buffer g in
      (AtPublishImu timestamp (synchronize timestamp imu_list), g)
  | AtPublishImu timestamp synced =>                       (* line 112 *)
      (AtAppend timestamp synced, set_latest_imu_buffer g synced)
  | AtAppend timestamp synced =>                           (* line 113 *)
      (AtLastTs timestamp, synced_imu_append g (timestamp, synced))
  | AtLastTs timestamp => (AtRead, set_last_imu_ts g timestamp)  (* lines 114-116 *)
  | Dead => (Dead, g)
  end.

(** Where the main thread stands once both threads are started (lines 58
    and 119): it still has to run line 124, which assigns
    [latest_depth_float = None] while the camera thread may already have
    published a distance map, and then serves requests (line 181). *)
Inductive main_pc : Type :=
| AtAssign                                                 (* line 124 *)
| Serving.                                                 (* line 181 *)

Definition reset_latest_depth_float (g : globals) : globals :=
  mk_globals (imu_buffer g) (synced_imu g) (latest_rgb g) None
             (latest_imu_buffer g) (last_imu_ts g).

(** The whole process: the globals and each thread's locals. *)
Record system : Type := mk_system {
  glob : globals;
  imu_thread : reader A;
  cam_thread : cam_pc;
  main_thread : main_pc
}.

(** What the scheduler and the outside world do next: the reader thread
    does one iteration on what the serial port delivers, the camera
    thread does one statement, or the main thread does its next
    statement. *)
Inductive event : Type :=
| ImuRead (rd : read_result)
| CamStep (cap : option frame) (now : A)
| MainStep.

Definition sys_step (s : system) (e : event) : system :=
  match e with
  | ImuRead rd =>
      let '(r', b', _) := imu_reader_iteration py_float (imu_thread s) (imu_buffer (glob s)) rd in
      mk_system (set_imu_buffer (glob s) b') r' (cam_thread s) (main_thread s)
  | CamStep cap now =>
      let (pc', g') := camera_loop_step cap now (cam_thread s) (glob s) in
      mk_system g' (imu_thread s) pc' (main_thread s)
  | MainStep =>
      match main_thread s with
      | AtAssign =>                                        (* line 124 *)
          mk_system (reset_latest_depth_float (glob s)) (imu_thread s) (cam_thread s) Serving
      | Serving => s                       (* line 181: the globals are only read *)
      end
  end.

Definition sys_run (s : system) (evs : list event) : system :=
  fold_left sys_step evs s.

(** The process when the camera thread has just been started (line 119):
    empty deques, nothing published (lines 76-78; [latest_depth_float]
    is not bound yet and no handler can run before line 181, which is
    rendered as [None]), [last_imu_ts = 0.0], the reader thread having
    read the clock ([now]) at line 31, and the main thread still before
    line 124. *)
Definition initial (now : A) : system :=
  mk_system (mk_globals [] [] None None [] (of_decimal 0 0))
            (reader_start now) AtRead AtAssign.

Definition reachable (s : system) : Prop :=
  exists now evs, s = sys_run (initial now) evs.

(** What a reader of the published state can see: the encoded frame, the
    distance map and the latest bundle ([synced_imu[-1]]). *)
Definition published (g : globals)
  : option string * option (list A) * option (A * list (sample A)) :=
  (latest_rgb g, latest_depth_float g, last_item (synced_imu g)).

(** The camera thread running [n] statements on its own, the camera
    delivering [cap] and the clock reading [now]. *)
Definition camera_loop (n : nat) (cap : option frame) (now : A) (s : system) : system :=
  sys_run s (repeat (CamStep cap now) n).

(** ** The handlers (lines 126-176) *)

Inductive json : Type :=
| JNull
| JNum (x : A)
| JArr (items : list json)
| JObj (fields : list (string * json)).

(** [d.get(key)] on the dict a handler passes to [jsonify]. *)
Fixpoint json_lookup (key : string) (fields : list (string * json)) : option json :=
  match fields with
  | [] => None
  | (k, v) :: rest => if String.eqb k key then Some v else json_lookup key rest
  end.

Definition json_get (key : string) (j : json) : option json :=
  match j with
  | JObj fields => json_lookup key fields
  | _ => None
  end.

(** The dict built for one sample (lines 150-154, 169-173). *)
Definition sample_json (s : sample A) : json :=
  JObj [("ts", JNum (ts s));
        ("ax", JNum (ax s)); ("ay", JNum (ay s)); ("az", JNum (az s));
        ("gx", JNum (gx s)); ("gy", JNum (gy s)); ("gz", JNum (gz s))]%string.

(** [/imu_buffer] (lines 145-163). *)
Definition imu_buffer_stream (g : globals) : json :=
  match last_item (synced_imu g) with
  | Some (current_ts, imu_data) =>                      (* if synced_imu: *)
      let imu_list := map sample_json imu_data in
      JObj [("timestamp", JNum current_ts); ("imu", JArr imu_list)]%string
  | None =>
      JObj [("timestamp", JNull); ("imu", JArr [])]%string
  end.

(** [/imu_raw] (lines 165-176). *)
Definition imu_raw (g : globals) : json :=
  JObj [("imu", JArr (map sample_json (imu_buffer g)))]%string.

End System.

Arguments frame : clear implicits.
Arguments globals : clear implicits.
Arguments cam_pc : clear implicits.
Arguments system : clear implicits.
Arguments event : clear implicits.
Arguments json : clear implicits.

(** ** Vocabulary for the statements *)

Section Vocabulary.

Context {A : Type} {N : Number A}.
Variable py_float : string -> option A.

Local Open Scope num_scope.

(** [parts] at line 36. *)
Definition fields (text : string) : list string := split " " (strip text).

(** A record as the device writes it: the fields [parts], one space
    between two of them ([' '.join(parts)]); a field is a [token] when it
    has at least one character and no whitespace. *)
Fixpoint join (sep : ascii) (parts : list string) : string :=
  match parts with
  | [] => EmptyString
  | [p] => p
  | p :: ps => p ++ String sep (join sep ps)
  end.

Fixpoint no_space (s : string) : bool :=
  match s with
  | EmptyString => true
  | String c s' => negb (is_space c) && no_space s'
  end.

Definition token (s : string) : bool :=
  match s with
  | EmptyString => false
  | _ => no_space s
  end.

Fixpoint floats (parts : list string) : option (list A) :=
  match parts with
  | [] => Some []
  | p :: ps =>
      match py_float p, floats ps with
      | Some x, Some xs => Some (x :: xs)
      | _, _ => None
      end
  end.

(** A record is well formed when it has seven fields and [float()]
    accepts each; [parse_record] then gives the seven numbers, the raw
    time stamp first. *)
Definition parse_record (text : string) : option (list A) :=
  if (List.length (fields text) =? 7)%nat then floats (fields text) else None.

(** A record is malformed when it has not seven fields or [float()]
    rejects one of them. *)
Definition malformed (text : string) : Prop :=
  List.length (fields text) <> 7%nat \/
  exists p, In p (fields text) /\ py_float p = None.

(** The reference point of the device clock once a record with raw time
    stamp [ts_raw] has been parsed (lines 41-42), and the sample line 52
    then appends. *)
Definition device_t0 (r : reader A) (ts_raw : A) : A :=
  match imu_start_us r with
  | None => ts_raw
  | Some t0 => t0
  end.

Definition translated (r : reader A) (ts_raw v1 v2 v3 v4 v5 v6 : A) : sample A :=
  mk_sample (unix_start_time r + (ts_raw - device_t0 r ts_raw) / of_decimal 1000000 0)
            v1 v2 v3 v4 v5 v6.

(** The raw time stamp of the first well-formed record among [rds]. *)
Fixpoint first_raw_ts (rds : list read_result) : option A :=
  match rds with
  | [] => None
  | Line text :: rest =>
      match parse_record text with
      | Some (t :: _) => Some t
      | _ => first_raw_ts rest
      end
  | ReadFails :: rest => first_raw_ts rest
  end.

(** Reads with the wall clock at the moment each is parsed.  The reader
    does not look at that clock; the specification's wording does. *)
Definition timed_read : Type := (A * read_result)%type.

(** The clock and the raw time stamp at the first well-formed record. *)
Fixpoint first_parse (timed : list timed_read) : option (A * A) :=
  match timed with
  | [] => None
  | (clock, Line text) :: rest =>
      match parse_record text with
      | Some (t :: _) => Some (clock, t)
      | _ => first_parse rest
      end
  | (_, ReadFails) :: rest => first_parse rest
  end.

(** The reader started at [t_start] and run over the reads of [timed]. *)
Definition imu_reader_timed (t_start : A) (timed : list timed_read)
  : reader A * list (sample A) :=
  imu_reader py_float (reader_start t_start) [] (map snd timed).

(** The clock-domain translation in the specification's words: [wall_t0]
    is the wall clock at the moment the first record is parsed, and the
    sample made from a record with raw time stamp [raw] carries
    [wall_t0 + (raw - device_t0) / 1_000_000]. *)
Definition spec_clock_translation (t_start : A) (timed : list timed_read) : Prop :=
  forall pre clock text raw vals,
    firstn (List.length pre + 1) timed = pre ++ [(clock, Line text)] ->
    parse_record text = Some (raw :: vals) ->
    exists wall_t0 device_t0,
      first_parse (pre ++ [(clock, Line text)]) = Some (wall_t0, device_t0) /\
      option_map (@ts A)
        (last_item (snd (imu_reader_timed t_start (pre ++ [(clock, Line text)]))))
      = Some (wall_t0 + (raw - device_t0) / of_decimal 1000000 0).

(** Atomic publication in the specification's words: whatever a reader
    sees while the camera thread runs one cycle from [s] is the published
    state before the cycle or the one after it. *)
Definition spec_atomic_publish (s : system A) (cap : option (frame A)) (now : A) : Prop :=
  forall k, (k <= 7)%nat ->
    published (glob (camera_loop py_float k cap now s)) = published (glob s) \/
    published (glob (camera_loop py_float k cap now s))
    = published (glob (camera_loop py_float 7 cap now s)).

(** Both deques within their capacity. *)
Definition bounded (g : globals A) : Prop :=
  (List.length (imu_buffer g) <= IMU_MAXLEN)%nat /\
  (List.length (synced_imu g) <= SYNCED_MAXLEN)%nat.

(** The bounds on a distance map: every entry in the half-open interval
    from [MIN_DIST] (excluded) to [MAX_DIST] (included), and an entry
    holding the least raw value at [MAX_DIST].  [lt], [le] and [eq] are
    the order and the equality of the arithmetic. *)
Definition distance_bounds (lt le eq : A -> A -> Prop) (raw : list A) : Prop :=
  exists dist,
    depth_to_distance raw MIN_DIST MAX_DIST = Ok dist /\
    Forall2 (fun v d =>
               lt MIN_DIST d /\ le d MAX_DIST /\
               ((forall w, In w raw -> le v w) -> eq d MAX_DIST))
            raw dist.

(** Strictly decreasing: a larger raw value gets a smaller distance. *)
Definition strictly_decreasing (lt : A -> A -> Prop) (raw dist : list A) : Prop :=
  forall i j ri rj di dj,
    nth_error raw i = Some ri -> nth_error raw j = Some rj ->
    nth_error dist i = Some di -> nth_error dist j = Some dj ->
    lt ri rj -> lt dj di.

(** The normalization range in the specification's words: the depth map
    [0.0, 1.0] gives the distances [5.0, 1.0], and within a frame a larger
    raw value gets a strictly smaller distance.  [same] compares a result
    with the expected list and [lt] is the order of the arithmetic. *)
Definition spec_normalization_range
  (same : result (list A) -> list A -> Prop) (lt : A -> A -> Prop) : Prop :=
  same (depth_to_distance [of_decimal 0 0; of_decimal 1 0] MIN_DIST MAX_DIST)
       [of_decimal 5 0; of_decimal 1 0] /\
  forall raw dist,
    depth_to_distance raw MIN_DIST MAX_DIST = Ok dist ->
    strictly_decreasing lt raw dist.

(** A result is the list [expected]. *)
Definition returns (res : result (list A)) (expected : list A) : Prop :=
  res = Ok expected.

End Vocabulary.

(** The order and equality of binary64 and binary32 numbers, as
    propositions. *)
Definition float_lt (x y : float) : Prop := PrimFloat.ltb x y = true.
Definition float_le (x y : float) : Prop := PrimFloat.leb x y = true.
Definition float_eq (x y : float) : Prop := PrimFloat.eqb x y = true.

Definition binary32_lt (x y : spec_float) : Prop := SFltb x y = true.
Definition binary32_le (x y : spec_float) : Prop := SFleb x y = true.
Definition binary32_eq (x y : spec_float) : Prop := SFeqb x y = true.

(** Neither NaN nor an infinity. *)
Definition spec_finite (x : spec_float) : bool :=
  match x with
  | S754_zero _ | S754_finite _ _ _ => true
  | S754_infinity _ | S754_nan => false
  end.

Definition float_finite (x : float) : bool := spec_finite (Prim2SF x).

Unset Implicit Arguments.

(** ** Floating-point numbers as real numbers *)

(** The operations on [spec_float] round the exact result to nearest,
    ties to even.  What the claims on the distance map need of this is
    stated over the real numbers. *)

Definition bpow (e : Z) : R := powerRZ 2 e.

(** The real [x] lies at [m * 2^e] or, rounded down to a multiple of
    [2^e], at the place [l] between [m * 2^e] and [(m + 1) * 2^e]. *)
Definition inb (m e : Z) (l : location) (x : R) : Prop :=
  match l with
  | loc_Exact => x = (IZR m * bpow e)%R
  | loc_Inexact Lt => (IZR m * bpow e < x < (IZR m + /2) * bpow e)%R
  | loc_Inexact Eq => x = ((IZR m + /2) * bpow e)%R
  | loc_Inexact Gt => ((IZR m + /2) * bpow e < x < (IZR m + 1) * bpow e)%R
  end.

Definition mrs_ok (mrs : shr_record) (e : Z) (x : R) : Prop :=
  (0 <= shr_m mrs)%Z /\ inb (shr_m mrs) e (loc_of_shr_record mrs) x.

(** The real number a finite float stands for (0 for the others). *)
Definition SF2R (f : spec_float) : R :=
  match f with
  | S754_finite s m e => (IZR (cond_Zopp s (Zpos m)) * bpow e)%R
  | _ => 0%R
  end.

(** Two floats that are equal or both zeros (of any sign). *)
Definition same (x y : spec_float) : Prop :=
  x = y \/ exists s s', x = S754_zero s /\ y = S754_zero s'.

Section Format.

Variables prec emax : Z.

(** The numbers of the format with precision [prec] (exponents at least
    [emin], not bounded above). *)
Definition rep (g : R) : Prop :=
  exists k j, g = (IZR k * bpow j)%R /\ (Z.abs k < 2 ^ prec)%Z /\
              (SpecFloat.emin prec emax <= j)%Z.

(** Where rounding to nearest even overflows. *)
Definition overflow_threshold : R := ((bpow prec - /2) * bpow (emax - prec))%R.

(** [r] is what rounding the real [X] to nearest gives. *)
Definition rounds_to (X : R) (r : spec_float) : Prop :=
  SpecFloat.valid_binary prec emax r = true /\
  match r with
  | S754_nan => False
  | S754_infinity false => (overflow_threshold <= X)%R
  | S754_infinity true => (X <= - overflow_threshold)%R
  | _ => (- overflow_threshold < X < overflow_threshold)%R /\
         forall g, rep g -> (Rabs (SF2R r - X) <= Rabs (g - X))%R
  end.

(** A finite number of the format. *)
Definition good (x : spec_float) : Prop :=
  SpecFloat.valid_binary prec emax x = true /\ spec_finite x = true.

(** One entry of [depth_norm] and of the distance map (lines 72-73), for
    the raw value [v] in a depth map whose least and greatest values are
    [lo] and [hi]; [one], [five] and [eps] are the constants [1.0], [5.0]
    and [1e-8] of the format. *)
Definition norm_entry (eps lo hi v : spec_float) : spec_float :=
  SFdiv prec emax (SFsub prec emax v lo) (SFadd prec emax (SFsub prec emax hi lo) eps).

Definition dist_entry (one five n : spec_float) : spec_float :=
  SFadd prec emax one
    (SFmul prec emax (SFsub prec emax one n) (SFsub prec emax five one)).

End Format.

Set Implicit Arguments.

(** ** Vocabulary for the distance map under rounding *)

Section RoundedVocabulary.

Context {A : Type} {N : Number A}.

Local Open Scope num_scope.

(** The range [depth_map.max() - depth_map.min()] of line 72. *)
Definition depth_range (raw : list A) : result A :=
  match array_min raw, array_max raw with
  | Ok lo, Ok hi => Ok (hi - lo)
  | Raise e, _ => Raise e
  | _, Raise e => Raise e
  end.

(** The bounds on a distance map with the interval closed at [MIN_DIST]:
    every entry from [MIN_DIST] to [MAX_DIST], both included, and an
    entry holding the least raw value equal to [MAX_DIST]. *)
Definition distance_bounds_closed (le : A -> A -> Prop) (raw : list A) : Prop :=
  exists dist,
    depth_to_distance raw MIN_DIST MAX_DIST = Ok dist /\
    Forall2 (fun v d =>
               le MIN_DIST d /\ le d MAX_DIST /\
               ((forall w, In w raw -> le v w) -> d = MAX_DIST))
            raw dist.

(** Decreasing, not strictly: a raw value that is not smaller gets a
    distance that is not greater. *)
Definition decreasing (le : A -> A -> Prop) (raw dist : list A) : Prop :=
  forall i j ri rj di dj,
    nth_error raw i = Some ri -> nth_error raw j = Some rj ->
    nth_error dist i = Some di -> nth_error dist j = Some dj ->
    le ri rj -> le dj di.

(** One entry of the distance map as lines 72-73 compute it, for the raw
    value [v] in a depth map whose least and greatest values are [lo] and
    [hi]. *)
Definition entry_of (lo hi v : A) : A :=
  MIN_DIST + (of_decimal 1 0 - (v - lo) / (hi - lo + of_decimal 1 (-8)))
             * (MAX_DIST - MIN_DIST).

End RoundedVocabulary.

(** A depth map a [float64] array can hold without the normalization
    leaving the finite numbers: finite entries, and a finite range. *)
Definition finite_map64 (raw : list float) : Prop :=
  Forall (fun v => float_finite v = true) raw /\
  exists r, depth_range raw = Ok r /\ float_finite r = true.

(** The same for a [float32] array; its entries are numbers of the
    format. *)
Definition finite_map32 (raw : list spec_float) : Prop :=
  Forall (fun v => SpecFloat.valid_binary prec32 emax32 v = true /\ spec_finite v = true) raw /\
  exists r, depth_range raw = Ok r /\ spec_finite r = true.

(** A result over the exact numbers is the list [expected], entry by
    entry, up to the equality of fractions. *)
Definition returns_Q (res : result (list Q)) (expected : list Q) : Prop :=
  match res with
  | Ok dist => Forall2 Qeq dist expected
  | Raise _ => False
  end.

(** [1e-8] and the distance of one entry of a depth map whose least and
    greatest entries are [lo] and [hi], over the exact numbers with the
    constants of the module: [depth_to_distance] maps [distance_of lo hi]
    over the depth map ([depth_to_distance_exact] below). *)
Definition epsQ : Q := 1 # 100000000.

Definition distance_of (lo hi v : Q) : Q :=
  (1 + (1 - (v - lo) / (hi - lo + epsQ)) * (5 - 1))%Q.

(** A fragment of [float()] to run examples with: on a non-empty string of
    ASCII digits it is [float()]; it rejects every other string, which
    [float()] does too for the empty string and for text without digits,
    and does not for signs, fractions, exponents and the like.  The
    examples apply it to digit strings and to such text only. *)
Fixpoint digits_value (s : string) (acc : Z) : option Z :=
  match s with
  | EmptyString => Some acc
  | String c s' =>
      let n := nat_of_ascii c in
      if ((48 <=? n) && (n <=? 57))%nat
      then digits_value s' (10 * acc + Z.of_nat (n - 48))
      else None
  end.

Definition float_of_digits {A : Type} {N : Number A} (s : string) : option A :=
  match s with
  | EmptyString => None
  | _ => option_map (fun z => of_decimal z 0) (digits_value s 0)
  end.

(** A sample with the given time stamp and the six channels at zero. *)
Definition sample_at {A : Type} {N : Number A} (t : A) : sample A :=
  mk_sample t (of_decimal 0 0) (of_decimal 0 0) (of_decimal 0 0)
              (of_decimal 0 0) (of_decimal 0 0) (of_decimal 0 0).

(** Binary64 and binary32 literals. *)
Definition F (m e : Z) : float := of_decimal m e.
Definition F32 (m e : Z) : spec_float := of_decimal m e.

(** ** Data for the examples *)

(** A run: one record read, then a whole camera cycle. *)
Definition some_frame : frame float := mk_frame "jpeg-1" [F 0 0; F 1 0].

Definition some_run : list (event float) :=
  ImuRead (Line "0 1 2 3 4 5 6") :: repeat (CamStep (Some some_frame) (F 105 (-1))) 7.

(** Two frames, and the process after a complete cycle on the first. *)
Definition frame_a : frame float := mk_frame "jpeg-A" [F 0 0; F 1 0].
Definition frame_b : frame float := mk_frame "jpeg-B" [F 0 0; F 1 0; F 2 0].

Definition dist_of (f : frame float) : list float :=
  match depth_to_distance (raw_depth f) MIN_DIST MAX_DIST with
  | Ok dist => dist
  | Raise _ => []
  end.

Definition after_cycle_a : system float :=
  camera_loop float_of_digits 7 (Some frame_a) (F 100 0)
    (sys_run float_of_digits (initial (F 995 (-1))) [ImuRead (Line "0 1 2 3 4 5 6")]).

(** ** The frame handlers (lines 126-142) *)

(** A Flask [Response]: status (200 unless given), body (empty unless
    given) and mimetype ([text/html] unless given). *)
Record response : Type := mk_response {
  status : nat;
  body : string;
  mimetype : string
}.

Section FrameHandlers.

Context {A : Type} {N : Number A}.

Local Open Scope num_scope.

(** numpy's cast [astype(np.uint16)] of one entry, and
    [cv2.imencode('.png', _)] on the cast array ([None] when [ok] is
    false). *)
Variable astype_uint16 : A -> Z.
Variable imencode_png : list Z -> option string.

(** [/frame_rgb] (lines 126-131). *)
Definition frame_rgb (g : globals A) : response :=
  match latest_rgb g with
  | None => mk_response 503 EmptyString "text/html"
  | Some rb => mk_response 200 rb "image/jpeg"
  end.

(** [depth_16] at line 138: metres to millimetres, then the cast. *)
Definition depth_16 (latest_depth_float : list A) : list Z :=
  map (fun d => astype_uint16 (d * of_decimal 1000 0)) latest_depth_float.

(** [/frame_depth_raw] (lines 133-142). *)
Definition frame_depth_raw (g : globals A) : response :=
  match latest_depth_float g with
  | None => mk_response 503 EmptyString "text/html"
  | Some dist =>
      match imencode_png (depth_16 dist) with
      | None => mk_response 500 EmptyString "text/html"
      | Some png => mk_response 200 png "image/png"
      end
  end.

End FrameHandlers.

(** ** Vocabulary for further properties *)

(** The number of occurrences of a character. *)
Fixpoint count_char (c : ascii) (s : string) : nat :=
  match s with
  | EmptyString => 0
  | String c' s' => (if Ascii.eqb c' c then 1 else 0) + count_char c s'
  end.

(** Only whitespace. *)
Fixpoint all_space (s : string) : bool :=
  match s with
  | EmptyString => true
  | String c s' => is_space c && all_space s'
  end.

Section MoreVocabulary.

Context {A : Type} {N : Number A}.

(** The bundle the camera thread holds between lines 109 and 113. *)
Definition pending (pc : cam_pc A) : list (A * list (sample A)) :=
  match pc with
  | AtPublishImu timestamp synced | AtAppend timestamp synced => [(timestamp, synced)]
  | _ => []
  end.

(** A bundle whose samples all pass the windowing rule for its own time
    stamp, and which is no longer than the inertial buffer can be. *)
Definition bundle_ok (b : A * list (sample A)) : Prop :=
  Forall (fun x => in_window (fst b) x = true) (snd b) /\
  (List.length (snd b) <= IMU_MAXLEN)%nat.

Definition bundles_ok (s : system A) : Prop :=
  Forall bundle_ok (synced_imu (glob s)) /\
  Forall bundle_ok (pending (cam_thread s)) /\
  (List.length (imu_buffer (glob s)) <= IMU_MAXLEN)%nat.

(** The camera thread has passed line 95, and line 99, of the cycle it is
    in. *)
Definition past_depth (pc : cam_pc A) : bool :=
  match pc with
  | AtRead | Dead => false
  | _ => true
  end.

Definition past_rgb (pc : cam_pc A) : bool :=
  match pc with
  | AtRead | Dead | AtEncode _ => false
  | _ => true
  end.

(** What is published comes in the order of the assignments: a bundle
    only after a frame, and, as long as the main thread has not run line
    124, a frame only after a distance map. *)
Definition availability (s : system A) : Prop :=
  (main_thread s = AtAssign ->
   past_depth (cam_thread s) = true -> latest_depth_float (glob s) <> None) /\
  (past_rgb (cam_thread s) = true -> latest_rgb (glob s) <> None) /\
  (main_thread s = AtAssign ->
   latest_rgb (glob s) <> None -> latest_depth_float (glob s) <> None) /\
  (synced_imu (glob s) <> [] -> latest_rgb (glob s) <> None).

(** [last_imu_ts] and [latest_imu_buffer] are the time stamp and the
    samples of [synced_imu[-1]] (0.0 and no samples when there is none). *)
Definition ts_agrees (g : globals A) : Prop :=
  last_imu_ts g = match last_item (synced_imu g) with
                  | Some (timestamp, _) => timestamp
                  | None => of_decimal 0 0
                  end.

Definition buffer_agrees (g : globals A) : Prop :=
  latest_imu_buffer g = match last_item (synced_imu g) with
                        | Some (_, synced) => synced
                        | None => []
                        end.

Definition bookkeeping (s : system A) : Prop :=
  match cam_thread s with
  | AtAppend _ synced => ts_agrees (glob s) /\ latest_imu_buffer (glob s) = synced
  | AtLastTs timestamp =>
      buffer_agrees (glob s) /\
      exists synced, last_item (synced_imu (glob s)) = Some (timestamp, synced)
  | _ => ts_agrees (glob s) /\ buffer_agrees (glob s)
  end.

End MoreVocabulary.

Section ReaderVocabulary.

Context {A : Type} {N : Number A}.
Variable py_float : string -> option A.

(** The samples the reader appends, in order, on the reads [rds] from the
    locals [r]. *)
Fixpoint appended (r : reader A) (rds : list read_result) : list (sample A) :=
  match rds with
  | [] => []
  | Line text :: rest =>
      match parse_record py_float text with
      | Some [t; v1; v2; v3; v4; v5; v6] =>
          translated r t v1 v2 v3 v4 v5 v6
          :: appended (mk_reader (Some (device_t0 r t)) (unix_start_time r)) rest
      | _ => appended r rest
      end
  | ReadFails :: rest => appended r rest
  end.

End ReaderVocabulary.

(** The distance maps of the exact arithmetic lie in (1, 5]. *)
Definition depth_in_range (g : globals Q) : Prop :=
  forall dist, latest_depth_float g = Some dist ->
               Forall (fun d => (1 < d)%Q /\ (d <= 5)%Q) dist.

(** A cast that wraps outside the range of [uint16], to run examples. *)
Definition wrapping_cast (q : Q) : Z := (Qfloor q mod 65536)%Z.

(** More data for the examples: a line end, and the process in exact
    arithmetic after one record and a complete cycle. *)
Definition crlf : string :=
  String (ascii_of_nat 13) (String (ascii_of_nat 10) EmptyString).

Definition exact_run : list (event Q) :=
  ImuRead (Line "0 1 2 3 4 5 6")
  :: repeat (CamStep (Some (mk_frame "jpeg-A" [0; 1; 3]%Q)) 100%Q) 7.

Definition after_exact_run : system Q :=
  sys_run float_of_digits (initial (995 # 10)%Q) exact_run.

Definition exact_dist : list Q :=
  match latest_depth_float (glob after_exact_run) with
  | Some dist => dist
  | None => []
  end.

(* ================================================================= *)
(** * Part II: properties *)
(* ================================================================= *)

(** ** Auxiliary facts and tactics *)

(** Two binary64 numbers that [PrimFloat.eqb] tells apart are different. *)
Lemma float_eqb_neq (x y : float) : PrimFloat.eqb x y = false -> PrimFloat.eqb x x = true -> x <> y.
Proof. intros Hxy Hxx E. rewrite <- E in Hxy. congruence. Qed.

Ltac float_neq := apply float_eqb_neq; vm_compute; reflexivity.

Lemma some_inj (T : Type) (x y : T) : Some x = Some y -> x = y.
Proof. intros H. exact (f_equal (fun o => match o with Some v => v | None => x end) H). Qed.

(** ** The deque *)

Section DequeFacts.

Variable T : Type.
Implicit Types (d : list T) (x : T).

Lemma deque_append_room maxlen d x :
  (List.length d < maxlen)%nat -> deque_append maxlen d x = d ++ [x].
Proof.
  intros H. unfold deque_append. rewrite length_app. simpl.
  destruct (Nat.ltb_spec maxlen (List.length d + 1)); [lia | reflexivity].
Qed.

Lemma deque_append_full maxlen d x :
  (maxlen <= List.length d)%nat -> deque_append maxlen d x = tl (d ++ [x]).
Proof.
  intros H. unfold deque_append. rewrite length_app. simpl.
  destruct (Nat.ltb_spec maxlen (List.length d + 1)); [reflexivity | lia].
Qed.

Lemma deque_append_evicts maxlen oldest d x :
  List.length (oldest :: d) = maxlen -> deque_append maxlen (oldest :: d) x = d ++ [x].
Proof.
  intros H. rewrite deque_append_full by lia. reflexivity.
Qed.

Lemma deque_append_length maxlen d x :
  (List.length d <= maxlen)%nat -> (List.length (deque_append maxlen d x) <= maxlen)%nat.
Proof.
  intros H. unfold deque_append.
  destruct (Nat.ltb_spec maxlen (List.length (d ++ [x]))) as [Hlt | Hle].
  - rewrite length_app in Hlt. simpl in Hlt.
    destruct d as [| y d']; simpl in *; [lia |].
    rewrite length_app. simpl. lia.
  - exact Hle.
Qed.

Lemma last_item_snoc d x : last_item (d ++ [x]) = Some x.
Proof.
  induction d as [| y d IH]; simpl; [reflexivity |].
  destruct (d ++ [x]) eqn:E; [destruct d; discriminate | exact IH].
Qed.

Lemma last_item_tl d x : d <> [] -> last_item (tl (d ++ [x])) = Some x.
Proof.
  destruct d as [| y d]; [congruence |]. intros _. simpl. apply last_item_snoc.
Qed.

Lemma last_item_deque_append maxlen d x :
  (0 < maxlen)%nat -> last_item (deque_append maxlen d x) = Some x.
Proof.
  intros Hpos. unfold deque_append.
  destruct (Nat.ltb_spec maxlen (List.length (d ++ [x]))) as [Hlt | Hle].
  - apply last_item_tl. intros ->. simpl in Hlt. lia.
  - apply last_item_snoc.
Qed.

End DequeFacts.

(** ** The ingestion loop *)

Section IngestionFacts.

Context {A : Type} {N : Number A}.
Variable py_float : string -> option A.

Local Open Scope num_scope.

Implicit Types (r : reader A) (buf : list (sample A)) (text : string).

Lemma seven_fields (l : list string) :
  List.length l = 7%nat -> exists p0 p1 p2 p3 p4 p5 p6, l = [p0; p1; p2; p3; p4; p5; p6].
Proof.
  intros H.
  do 7 (destruct l as [| ? l]; [discriminate |]).
  destruct l; [| discriminate]. now repeat eexists.
Qed.

Lemma parse_record_some text l :
  parse_record py_float text = Some l ->
  exists p0 p1 p2 p3 p4 p5 p6 t v1 v2 v3 v4 v5 v6,
    fields text = [p0; p1; p2; p3; p4; p5; p6] /\
    l = [t; v1; v2; v3; v4; v5; v6] /\
    py_float p0 = Some t /\ py_float p1 = Some v1 /\ py_float p2 = Some v2 /\
    py_float p3 = Some v3 /\ py_float p4 = Some v4 /\ py_float p5 = Some v5 /\
    py_float p6 = Some v6.
Proof.
  unfold parse_record. intros H.
  destruct (Nat.eqb_spec (List.length (fields text)) 7) as [Hlen | ]; [| discriminate].
  destruct (seven_fields _ Hlen) as (p0 & p1 & p2 & p3 & p4 & p5 & p6 & E).
  rewrite E in H. simpl in H.
  destruct (py_float p0) eqn:H0, (py_float p1) eqn:H1, (py_float p2) eqn:H2,
           (py_float p3) eqn:H3, (py_float p4) eqn:H4, (py_float p5) eqn:H5,
           (py_float p6) eqn:H6; try discriminate.
  injection H as <-. exists p0, p1, p2, p3, p4, p5, p6. do 7 eexists.
  repeat split; eassumption || reflexivity.
Qed.

(** A well-formed record is translated and appended, and nothing is
    printed. *)
Lemma imu_reader_iteration_parsed r buf text t v1 v2 v3 v4 v5 v6 :
  parse_record py_float text = Some [t; v1; v2; v3; v4; v5; v6] ->
  imu_reader_iteration py_float r buf (Line text)
  = (mk_reader (Some (device_t0 r t)) (unix_start_time r),
     deque_append IMU_MAXLEN buf (translated r t v1 v2 v3 v4 v5 v6),
     None).
Proof.
  intros H. destruct (parse_record_some _ H)
    as (p0 & p1 & p2 & p3 & p4 & p5 & p6 & t' & w1 & w2 & w3 & w4 & w5 & w6 &
        E & L & H0 & H1 & H2 & H3 & H4 & H5 & H6).
  injection L as -> -> -> -> -> -> ->.
  unfold imu_reader_iteration, imu_reader_try. fold (fields text). rewrite E.
  rewrite H0, H1, H2, H3, H4, H5, H6. reflexivity.
Qed.

(** A record that is not well formed leaves the body either through the
    [if] (not seven fields) or through a [ValueError]. *)
Lemma imu_reader_try_malformed r buf text :
  parse_record py_float text = None ->
  imu_reader_try py_float r buf (Line text) = Ok (r, buf) \/
  imu_reader_try py_float r buf (Line text) = Raise ValueError.
Proof.
  unfold parse_record, imu_reader_try. fold (fields text). intros H.
  destruct (Nat.eqb_spec (List.length (fields text)) 7) as [Hlen | Hlen].
  - destruct (seven_fields _ Hlen) as (p0 & p1 & p2 & p3 & p4 & p5 & p6 & E).
    rewrite E in *. simpl in H.
    destruct (py_float p0), (py_float p1), (py_float p2), (py_float p3),
             (py_float p4), (py_float p5), (py_float p6);
      try discriminate; now right.
  - left. clear H. revert Hlen. generalize (fields text) as l. intros l Hlen.
    do 7 (destruct l as [| ? l]; [reflexivity |]).
    destruct l; [simpl in Hlen; congruence | reflexivity].
Qed.

Lemma imu_reader_iteration_malformed r buf text :
  parse_record py_float text = None ->
  imu_reader_iteration py_float r buf (Line text) = (r, buf, None) \/
  imu_reader_iteration py_float r buf (Line text) = (r, buf, Some ValueError).
Proof.
  intros H. unfold imu_reader_iteration.
  destruct (imu_reader_try_malformed r buf _ H) as [-> | ->]; auto.
Qed.

Lemma imu_reader_iteration_read_fails r buf :
  imu_reader_iteration py_float r buf ReadFails = (r, buf, Some TransportError).
Proof. reflexivity. Qed.

(** Every iteration leaves the buffer alone or appends one sample to it. *)
Lemma imu_reader_iteration_buffer r buf rd :
  snd (fst (imu_reader_iteration py_float r buf rd)) = buf \/
  exists s, snd (fst (imu_reader_iteration py_float r buf rd)) = deque_append IMU_MAXLEN buf s.
Proof.
  destruct rd as [text |]; [| now left].
  destruct (parse_record py_float text) as [l |] eqn:H.
  - destruct (parse_record_some _ H)
      as (? & ? & ? & ? & ? & ? & ? & t & v1 & v2 & v3 & v4 & v5 & v6 & _ & -> & _).
    rewrite (imu_reader_iteration_parsed r buf _ H). right. eexists. reflexivity.
  - left. destruct (imu_reader_iteration_malformed r buf _ H) as [-> | ->]; reflexivity.
Qed.

End IngestionFacts.

Section IngestionRuns.

Context {A : Type} {N : Number A}.
Variable py_float : string -> option A.

Local Open Scope num_scope.

Implicit Types (r : reader A) (buf : list (sample A)) (text : string).

Lemma floats_none (l : list string) :
  floats py_float l = None <-> exists p, In p l /\ py_float p = None.
Proof.
  induction l as [| q l IH]; simpl.
  - split; [discriminate | intros (p & [] & _)].
  - destruct (py_float q) eqn:Hq.
    + destruct (floats py_float l) eqn:Hl.
      * split; [discriminate |]. intros (p & [-> | Hin] & Hp); [congruence |].
        assert (E : Some l0 = None) by (apply IH; eauto). discriminate E.
      * split; [| reflexivity]. intros _.
        destruct (proj1 IH eq_refl) as (p & Hin & Hp). eauto.
    + split; [| reflexivity]. intros _. eauto.
Qed.

Lemma malformed_parse_record text :
  malformed py_float text <-> parse_record py_float text = None.
Proof.
  unfold malformed, parse_record.
  destruct (Nat.eqb_spec (List.length (fields text)) 7) as [Hlen | Hlen].
  - rewrite floats_none. split; [intros [? | ?]; [contradiction | assumption] | auto].
  - split; auto.
Qed.

Lemma imu_reader_cons r buf rd rds :
  imu_reader py_float r buf (rd :: rds)
  = imu_reader py_float (fst (fst (imu_reader_iteration py_float r buf rd)))
                     (snd (fst (imu_reader_iteration py_float r buf rd))) rds.
Proof.
  unfold imu_reader. simpl. destruct (imu_reader_iteration py_float r buf rd) as [[r' b'] p].
  reflexivity.
Qed.

(** [unix_start_time] keeps the value read before the loop, and
    [imu_start_us] becomes, and then stays, the raw time stamp of the
    first well-formed record. *)
Lemma imu_reader_locals rds : forall r buf,
  unix_start_time (fst (imu_reader py_float r buf rds)) = unix_start_time r /\
  imu_start_us (fst (imu_reader py_float r buf rds))
  = match imu_start_us r with
    | Some t0 => Some t0
    | None => first_raw_ts py_float rds
    end.
Proof.
  induction rds as [| rd rds IH]; intros r buf.
  - simpl. split; [reflexivity | now destruct (imu_start_us r)].
  - rewrite imu_reader_cons. destruct rd as [text |].
    + simpl first_raw_ts. destruct (parse_record py_float text) as [l |] eqn:H.
      * destruct (parse_record_some _ _ H)
          as (? & ? & ? & ? & ? & ? & ? & t & v1 & v2 & v3 & v4 & v5 & v6 & _ & -> & _).
        rewrite (imu_reader_iteration_parsed _ r buf _ H). simpl fst. simpl snd.
        destruct (IH (mk_reader (Some (device_t0 r t)) (unix_start_time r))
                     (deque_append IMU_MAXLEN buf (translated r t v1 v2 v3 v4 v5 v6)))
          as [IH1 IH2].
        split; [exact IH1 |]. rewrite IH2. simpl. unfold device_t0.
        now destruct (imu_start_us r).
      * destruct (imu_reader_iteration_malformed _ r buf _ H) as [-> | ->]; apply IH.
    + rewrite imu_reader_iteration_read_fails. apply IH.
Qed.

Lemma first_raw_ts_snoc rds text t l :
  parse_record py_float text = Some (t :: l) ->
  first_raw_ts py_float (rds ++ [Line text])
  = match first_raw_ts py_float rds with
    | Some t0 => Some t0
    | None => Some t
    end.
Proof.
  intros H. induction rds as [| rd rds IH]; simpl.
  - now rewrite H.
  - destruct rd as [text' |]; [| exact IH].
    destruct (parse_record py_float text') as [[| t' l'] |]; auto.
Qed.

End IngestionRuns.

(** C4.  [deque.append] pushes to the back; a deque with room keeps all its
    items, a full one loses exactly its front item and keeps the others in
    order.  That is how the reader appends a sample to [imu_buffer], whose
    capacity is 2000.  Four items with time stamps 1, 2, 3, 4 appended to
    an empty deque of capacity 3 leave 2, 3, 4 in that order. *)
Theorem ring_buffer_fifo_eviction :
  (forall (T : Type) maxlen (d : list T) x,
      (List.length d < maxlen)%nat -> deque_append maxlen d x = d ++ [x]) /\
  (forall (T : Type) maxlen oldest (d : list T) x,
      List.length (oldest :: d) = maxlen ->
      deque_append maxlen (oldest :: d) x = d ++ [x]) /\
  (forall (A : Type) (N : Number A) (py_float : string -> option A)
          (r : reader A) (buf : list (sample A)) text t v1 v2 v3 v4 v5 v6,
      parse_record py_float text = Some [t; v1; v2; v3; v4; v5; v6] ->
      snd (fst (imu_reader_iteration py_float r buf (Line text)))
      = deque_append 2000 buf (translated r t v1 v2 v3 v4 v5 v6)) /\
  (forall (T : Type) (x1 x2 x3 x4 : T),
      fold_left (deque_append 3) [x1; x2; x3; x4] [] = [x2; x3; x4]) /\
  map (@ts float)
      (fold_left (deque_append 3)
         (map sample_at [F 1 0; F 2 0; F 3 0; F 4 0]) [])
  = [F 2 0; F 3 0; F 4 0].
Proof.
  split; [| split; [| split; [| split]]].
  - intros. now apply deque_append_room.
  - intros. now apply deque_append_evicts.
  - intros A N py_float r buf text t v1 v2 v3 v4 v5 v6 H.
    now rewrite (imu_reader_iteration_parsed _ r buf _ H).
  - reflexivity.
  - reflexivity.
Qed.

(** C3, as the program has it.  [wall_t0] is the wall clock read once
    when the reader thread starts (line 31), before anything is read;
    [device_t0] is the raw time stamp of the first well-formed record.
    After any sequence of reads, the sample made from a well-formed record
    with raw time stamp [t] carries [wall_t0 + (t - device_t0) / 1_000_000]
    and is appended to the buffer. *)
Theorem clock_domain_translation
  (A : Type) (N : Number A) (py_float : string -> option A)
  (t_start : A) (rds : list read_result) (text : string) (t v1 v2 v3 v4 v5 v6 : A) :
  parse_record py_float text = Some [t; v1; v2; v3; v4; v5; v6] ->
  let st := imu_reader py_float (reader_start t_start) [] rds in
  exists t0,
    first_raw_ts py_float (rds ++ [Line text]) = Some t0 /\
    imu_reader_iteration py_float (fst st) (snd st) (Line text)
    = (mk_reader (Some t0) t_start,
       deque_append IMU_MAXLEN (snd st)
         (mk_sample (t_start + (t - t0) / of_decimal 1000000 0)%num v1 v2 v3 v4 v5 v6),
       None).
Proof.
  intros H st.
  destruct (imu_reader_locals py_float rds (reader_start t_start) []) as [Hu Hs].
  fold st in Hu, Hs. simpl in Hu, Hs.
  rewrite (imu_reader_iteration_parsed _ (fst st) (snd st) _ H).
  rewrite (first_raw_ts_snoc _ rds _ H).
  unfold translated, device_t0. rewrite Hu, Hs.
  destruct (first_raw_ts py_float rds) as [t0 |]; eexists; split; reflexivity.
Qed.

(** The reader started at wall clock 10, on two well-formed records. *)
Lemma clock_domain_translation_witness :
  exists t0,
    first_raw_ts float_of_digits
      ([Line "0 1 2 3 4 5 6"] ++ [Line "1000000 1 2 3 4 5 6"]) = Some t0 /\
    imu_reader_iteration float_of_digits
      (fst (imu_reader float_of_digits (reader_start (F 10 0)) [] [Line "0 1 2 3 4 5 6"]))
      (snd (imu_reader float_of_digits (reader_start (F 10 0)) [] [Line "0 1 2 3 4 5 6"]))
      (Line "1000000 1 2 3 4 5 6")
    = (mk_reader (Some t0) (F 10 0),
       deque_append IMU_MAXLEN
         (snd (imu_reader float_of_digits (reader_start (F 10 0)) [] [Line "0 1 2 3 4 5 6"]))
         (mk_sample (F 10 0 + (F 1000000 0 - t0) / of_decimal 1000000 0)%num
                    (F 1 0) (F 2 0) (F 3 0) (F 4 0) (F 5 0) (F 6 0)),
       None).
Proof.
  apply (@clock_domain_translation float _ float_of_digits (F 10 0)
           [Line "0 1 2 3 4 5 6"] "1000000 1 2 3 4 5 6"
           (F 1000000 0) (F 1 0) (F 2 0) (F 3 0) (F 4 0) (F 5 0) (F 6 0)).
  vm_compute. reflexivity.
Defined.

(** C3, as the specification words it, fails: the reader started at wall
    clock 10 parses its first record (raw time stamp 0) at wall clock 20
    and a second one (raw time stamp 1000000) at 21.  The second sample
    carries 11 = 10 + 1, not 21 = 20 + 1. *)
Lemma clock_domain_translation_counterexample :
  ~ spec_clock_translation float_of_digits (F 10 0)
      [(F 20 0, Line "0 1 2 3 4 5 6"); (F 21 0, Line "1000000 1 2 3 4 5 6")].
Proof.
  intros H.
  destruct (H [(F 20 0, Line "0 1 2 3 4 5 6")] (F 21 0) "1000000 1 2 3 4 5 6"
              (F 1000000 0) [F 1 0; F 2 0; F 3 0; F 4 0; F 5 0; F 6 0]
              eq_refl eq_refl) as (wall_t0 & dev_t0 & Hfirst & Hts).
  vm_compute in Hfirst. injection Hfirst as <- <-.
  vm_compute in Hts. apply some_inj in Hts.
  revert Hts. float_neq.
Qed.

(** ** Records written field by field *)

Lemma no_space_split (p : string) : no_space p = true -> split " " p = [p].
Proof.
  induction p as [| c p IH]; [reflexivity |].
  cbn [no_space split]. intros H. apply andb_prop in H. destruct H as [Hc Hp].
  destruct (Ascii.eqb c " ") eqn:E.
  - apply Ascii.eqb_eq in E. subst c. discriminate Hc.
  - rewrite (IH Hp). reflexivity.
Qed.

Lemma split_app_sep (p rest : string) :
  no_space p = true -> split " " (p ++ String " " rest) = p :: split " " rest.
Proof.
  induction p as [| c p IH]; [reflexivity |].
  cbn [no_space]. intros H. apply andb_prop in H. destruct H as [Hc Hp].
  change (String c p ++ String " " rest)%string with (String c (p ++ String " " rest)).
  cbn [split]. destruct (Ascii.eqb c " ") eqn:E.
  - apply Ascii.eqb_eq in E. subst c. discriminate Hc.
  - rewrite (IH Hp). reflexivity.
Qed.

Lemma token_no_space (p : string) : token p = true -> no_space p = true.
Proof. destruct p; [discriminate | auto]. Qed.

Lemma split_join (ps : list string) :
  ps <> [] -> forallb token ps = true -> split " " (join " " ps) = ps.
Proof.
  induction ps as [| p ps IH]; [congruence |]. intros _ H.
  cbn [forallb] in H. apply andb_prop in H. destruct H as [Hp Hps].
  apply token_no_space in Hp.
  destruct ps as [| q ps]; [now apply no_space_split |].
  change (join " " (p :: q :: ps)) with (p ++ String " " (join " " (q :: ps)))%string.
  rewrite split_app_sep by exact Hp. f_equal. apply IH; [discriminate | exact Hps].
Qed.

Lemma no_space_rstrip (p : string) : no_space p = true -> rstrip p = p.
Proof.
  induction p as [| c p IH]; [reflexivity |].
  cbn [no_space rstrip]. intros H. apply andb_prop in H. destruct H as [Hc Hp].
  rewrite (IH Hp). destruct p; [| reflexivity].
  apply negb_true_iff in Hc. now rewrite Hc.
Qed.

Lemma rstrip_app (x y : string) :
  y <> EmptyString -> rstrip y = y -> rstrip (x ++ y) = (x ++ y)%string.
Proof.
  intros Hne Hy. induction x as [| c x IH]; [exact Hy |].
  change (String c x ++ y)%string with (String c (x ++ y)).
  cbn [rstrip]. rewrite IH. destruct (x ++ y)%string eqn:E; [| reflexivity].
  destruct x; [| discriminate E]. simpl in E. contradiction.
Qed.

Lemma join_not_empty (ps : list string) :
  ps <> [] -> forallb token ps = true -> join " " ps <> EmptyString.
Proof.
  destruct ps as [| p ps]; [congruence |]. intros _ H.
  cbn [forallb] in H. apply andb_prop in H. destruct H as [Hp _].
  destruct p as [| c p]; [discriminate Hp |].
  destruct ps; discriminate.
Qed.

Lemma rstrip_join (ps : list string) :
  ps <> [] -> forallb token ps = true -> rstrip (join " " ps) = join " " ps.
Proof.
  induction ps as [| p ps IH]; [congruence |]. intros _ H.
  pose proof H as H0.
  cbn [forallb] in H. apply andb_prop in H. destruct H as [Hp Hps].
  destruct ps as [| q ps]; [apply no_space_rstrip, token_no_space, Hp |].
  change (join " " (p :: q :: ps)) with (p ++ String " " (join " " (q :: ps)))%string.
  assert (Hq : q :: ps <> []) by discriminate.
  apply rstrip_app; [discriminate |].
  cbn [rstrip]. rewrite (IH Hq Hps).
  destruct (join " " (q :: ps)) eqn:E; [| reflexivity].
  exfalso. exact (join_not_empty Hq Hps E).
Qed.

Lemma lstrip_join (ps : list string) :
  forallb token ps = true -> lstrip (join " " ps) = join " " ps.
Proof.
  destruct ps as [| p ps]; [reflexivity |]. intros H.
  cbn [forallb] in H. apply andb_prop in H. destruct H as [Hp _].
  destruct p as [| c p]; [discriminate Hp |].
  cbn [token no_space] in Hp. apply andb_prop in Hp. destruct Hp as [Hc _].
  apply negb_true_iff in Hc.
  destruct ps as [| q ps]; cbn [join]; simpl; now rewrite Hc.
Qed.

(** A record of tokens separated by single spaces splits into these
    tokens at line 36. *)
Lemma fields_join (ps : list string) :
  ps <> [] -> forallb token ps = true -> fields (join " " ps) = ps.
Proof.
  intros Hne H. unfold fields, strip.
  rewrite lstrip_join, rstrip_join by assumption. now apply split_join.
Qed.



(** The same on concrete records: five fields, a non-numeric field, a
    failing read, and then a well-formed record. *)
Example ingestion_resilience_run :
  snd (imu_reader float_of_digits (reader_start (F 10 0)) []
         [Line "1 2 3 4 5"; Line "7 a b c d e f"; ReadFails; Line "7 1 2 3 4 5 6"])
  = [mk_sample (F 10 0) (F 1 0) (F 2 0) (F 3 0) (F 4 0) (F 5 0) (F 6 0)].
Proof. vm_compute. reflexivity. Qed.

(** ** The process *)

Section SystemFacts.

Context {A : Type} {N : Number A}.
Variable py_float : string -> option A.

Implicit Types (g : globals A) (s : system A).

Lemma camera_loop_step_bounded cap now pc g :
  bounded g -> bounded (snd (camera_loop_step cap now pc g)).
Proof.
  intros [Hb Hs]. destruct pc; simpl; try (split; assumption).
  - destruct cap as [f |]; [| split; assumption].
    destruct (depth_to_distance (raw_depth f) MIN_DIST MAX_DIST); split; assumption.
  - split; [assumption |]. simpl. now apply deque_append_length.
Qed.

Lemma sys_step_bounded s e : bounded (glob s) -> bounded (glob (sys_step py_float s e)).
Proof.
  intros H. destruct e as [rd | cap now |]; simpl;
    [| | destruct (main_thread s); [destruct H; split; assumption | exact H]].
  - destruct (imu_reader_iteration py_float (imu_thread s) (imu_buffer (glob s)) rd)
      as [[r' b'] printed] eqn:E.
    destruct H as [Hb Hs]. split; [| exact Hs]. simpl.
    assert (Hb' : b' = snd (fst (imu_reader_iteration py_float (imu_thread s)
                                   (imu_buffer (glob s)) rd))) by now rewrite E.
    destruct (imu_reader_iteration_buffer py_float (imu_thread s) (imu_buffer (glob s)) rd)
      as [Hsame | [x Happ]].
    + now rewrite Hb', Hsame.
    + rewrite Hb', Happ. now apply deque_append_length.
  - pose proof (camera_loop_step_bounded cap now (cam_thread s) H) as Hc.
    destruct (camera_loop_step cap now (cam_thread s) (glob s)). exact Hc.
Qed.

Lemma sys_run_bounded evs : forall s,
  bounded (glob s) -> bounded (glob (sys_run py_float s evs)).
Proof.
  induction evs as [| e evs IH]; intros s H; [exact H |].
  apply IH. now apply sys_step_bounded.
Qed.

Lemma initial_bounded now : bounded (glob (initial now)).
Proof. split; simpl; lia. Qed.

(** The reader thread does not touch what is published. *)
Lemma imu_read_published s rd :
  published (glob (sys_step py_float s (ImuRead rd))) = published (glob s).
Proof.
  simpl. destruct (imu_reader_iteration py_float (imu_thread s) (imu_buffer (glob s)) rd)
    as [[r' b'] printed]. reflexivity.
Qed.

End SystemFacts.

(** C8.  In every state the process can reach, whatever the serial port,
    the camera, the clock and the scheduler do, [imu_buffer] holds at most
    2000 samples and [synced_imu] at most 100 bundles. *)
Theorem bounded_memory
  (A : Type) (N : Number A) (py_float : string -> option A) (s : system A) :
  reachable py_float s ->
  (List.length (imu_buffer (glob s)) <= 2000)%nat /\
  (List.length (synced_imu (glob s)) <= 100)%nat.
Proof.
  intros (now & evs & ->).
  exact (sys_run_bounded py_float evs (initial now) (initial_bounded now)).
Qed.

(** A reachable state: one record read, then a whole camera cycle. *)
Lemma bounded_memory_witness :
  (List.length (imu_buffer (glob (sys_run float_of_digits (initial (F 10 0)) some_run)))
   <= 2000)%nat /\
  (List.length (synced_imu (glob (sys_run float_of_digits (initial (F 10 0)) some_run)))
   <= 100)%nat.
Proof.
  apply (@bounded_memory float _ float_of_digits).
  exists (F 10 0), some_run. reflexivity.
Defined.

(** The bound is reached and kept: 2001 well-formed records leave 2000
    samples, and 101 camera cycles leave 100 bundles. *)
Example imu_buffer_saturates :
  List.length (snd (imu_reader float_of_digits (reader_start (F 10 0)) []
                      (repeat (Line "0 1 2 3 4 5 6") 2001))) = 2000%nat.
Proof. vm_compute. reflexivity. Qed.

Example synced_imu_saturates :
  List.length (synced_imu (glob (sys_run float_of_digits (initial (F 10 0))
                 (repeat (CamStep (Some some_frame) (F 105 (-1))) (7 * 101))))) = 100%nat.
Proof. vm_compute. reflexivity. Qed.

(** ** The frame loop *)

Section FrameLoopFacts.

Context {A : Type} {N : Number A}.
Variable py_float : string -> option A.

(** The seven statements of one cycle of [camera_loop], one by one. *)
Lemma camera_cycle (g : globals A) (r : reader A) (m : main_pc)
    (f : frame A) (dist : list A) (now : A) :
  depth_to_distance (raw_depth f) MIN_DIST MAX_DIST = Ok dist ->
  let s := mk_system g r AtRead m in
  let g1 := set_latest_depth_float g dist in
  let g2 := set_latest_rgb g1 (jpeg f) in
  let synced := synchronize now (imu_buffer g) in
  let g5 := set_latest_imu_buffer g2 synced in
  let g6 := synced_imu_append g5 (now, synced) in
  let g7 := set_last_imu_ts g6 now in
  camera_loop py_float 1 (Some f) now s = mk_system g1 r (AtEncode f) m /\
  camera_loop py_float 2 (Some f) now s = mk_system g2 r AtTimestamp m /\
  camera_loop py_float 3 (Some f) now s = mk_system g2 r (AtSnapshot now) m /\
  camera_loop py_float 4 (Some f) now s = mk_system g2 r (AtPublishImu now synced) m /\
  camera_loop py_float 5 (Some f) now s = mk_system g5 r (AtAppend now synced) m /\
  camera_loop py_float 6 (Some f) now s = mk_system g6 r (AtLastTs now) m /\
  camera_loop py_float 7 (Some f) now s = mk_system g7 r AtRead m.
Proof.
  intros H. unfold camera_loop, sys_run. simpl. rewrite H. simpl.
  repeat split; reflexivity.
Qed.

End FrameLoopFacts.

(** ** Order on the exact numbers *)

Lemma Q_ltb_lt (x y : Q) : Q_ltb x y = true <-> (x < y)%Q.
Proof.
  unfold Q_ltb. rewrite negb_true_iff.
  destruct (Qle_bool y x) eqn:E.
  - apply Qle_bool_iff in E. split; [discriminate |].
    intros H. exfalso. exact (Qlt_not_le _ _ H E).
  - split; [| reflexivity]. intros _. apply Qnot_le_lt. intros H.
    apply Qle_bool_iff in H. congruence.
Qed.

Lemma Q_ltb_ge (x y : Q) : Q_ltb x y = false <-> (y <= x)%Q.
Proof.
  split; intros H.
  - apply Qnot_lt_le. intros Hlt. apply Q_ltb_lt in Hlt. congruence.
  - destruct (Q_ltb x y) eqn:E; [| reflexivity].
    apply Q_ltb_lt in E. exfalso. exact (Qlt_not_le _ _ E H).
Qed.

(** ** The windowing rule *)

Lemma in_window_spec (A : Type) (N : Number A) (T : A) (s : sample A) :
  in_window T s = true <->
  (of_decimal 0 0 <? T - ts s)%num = true /\ (T - ts s <? of_decimal 1 0)%num = true.
Proof. unfold in_window. cbv zeta. apply andb_true_iff. Qed.

(** C1.  The bundle of a frame stamped [T] holds exactly the samples [s]
    of the snapshot with [0 < T - s.ts < 1.0], in whatever arithmetic the
    program runs (first part) and so in exact arithmetic (second part);
    the frame loop makes the bundle by that rule from the snapshot it
    takes of [imu_buffer], and a cycle leaves it as the latest bundle
    (third and fourth parts); and with the interpreter's binary64
    arithmetic, [T = 100.0] and samples at 98.9, 99.2, 99.9, 100.0, 100.1
    give the samples at 99.2 and 99.9 (last part). *)
Theorem windowing_correct :
  (forall (A : Type) (N : Number A) (T : A) (snapshot : list (sample A)) (s : sample A),
      In s (synchronize T snapshot) <->
      In s snapshot /\
      (of_decimal 0 0 <? T - ts s)%num = true /\
      (T - ts s <? of_decimal 1 0)%num = true) /\
  (forall (T : Q) (snapshot : list (sample Q)) (s : sample Q),
      In s (synchronize T snapshot) <->
      In s snapshot /\ (0 < T - ts s)%Q /\ (T - ts s < 1)%Q) /\
  (forall (A : Type) (N : Number A) cap now (T : A) (g : globals A),
      camera_loop_step cap now (AtSnapshot T) g
      = (AtPublishImu T (synchronize T (imu_buffer g)), g)) /\
  (forall (A : Type) (N : Number A) (py_float : string -> option A)
          (g : globals A) (r : reader A) (m : main_pc)
          (f : frame A) (dist : list A) (T : A),
      depth_to_distance (raw_depth f) MIN_DIST MAX_DIST = Ok dist ->
      let g' := glob (camera_loop py_float 7 (Some f) T (mk_system g r AtRead m)) in
      last_item (synced_imu g') = Some (T, synchronize T (imu_buffer g)) /\
      latest_imu_buffer g' = synchronize T (imu_buffer g)) /\
  synchronize (F 100 0)
    (map sample_at [F 989 (-1); F 992 (-1); F 999 (-1); F 1000 (-1); F 1001 (-1)])
  = map sample_at [F 992 (-1); F 999 (-1)].
Proof.
  split; [| split; [| split; [| split]]].
  - intros A N T snapshot s. unfold synchronize.
    rewrite filter_In, in_window_spec. reflexivity.
  - intros T snapshot s. unfold synchronize.
    rewrite filter_In, in_window_spec.
    change (of_decimal 0 0 <? T - ts s)%num with (Q_ltb 0 (T - ts s)).
    change (T - ts s <? of_decimal 1 0)%num with (Q_ltb (T - ts s) 1).
    rewrite !Q_ltb_lt. reflexivity.
  - reflexivity.
  - intros A N py_float g r m f dist T Hdist.
    destruct (camera_cycle py_float g r m f T Hdist) as (_ & _ & _ & _ & _ & _ & E7).
    cbv zeta. rewrite E7. simpl.
    rewrite last_item_deque_append by (unfold SYNCED_MAXLEN; lia).
    split; reflexivity.
  - vm_compute. reflexivity.
Qed.

(** The same in exact arithmetic. *)
Example windowing_exact :
  map (@ts Q)
      (synchronize 100%Q
         (map sample_at [98.9; 99.2; 99.9; 100; 100.1]%Q))
  = [99.2; 99.9]%Q.
Proof. vm_compute. reflexivity. Qed.

(** The literals of the example are the binary64 numbers nearest to the
    decimal ones, which is how Python reads them. *)
Example window_literals :
  [F 100 0; F 989 (-1); F 992 (-1); F 999 (-1); F 1000 (-1); F 1001 (-1)]
  = [100; 98.9; 99.2; 99.9; 100; 100.1]%float.
Proof. vm_compute. reflexivity. Qed.

(** ** Publication *)

(** C2, as the program has it.  A cycle of the frame loop replaces the
    three published fields one after another, each by one assignment:
    first the distance map (line 95), then the encoded frame (line 99),
    last the bundle (line 113).  Before the cycle and after it the three
    belong together; in between a reader sees the new distance map with
    the old frame and the old bundle, and then the new frame and distance
    map with the old bundle.  The reader thread never changes what is
    published. *)
Theorem publish_field_by_field
  (A : Type) (N : Number A) (py_float : string -> option A)
  (s : system A) (f : frame A) (dist : list A) (now : A) :
  cam_thread s = AtRead ->
  depth_to_distance (raw_depth f) MIN_DIST MAX_DIST = Ok dist ->
  let g := glob s in
  let old_bundle := last_item (synced_imu g) in
  let bundle := (now, synchronize now (imu_buffer g)) in
  let view k := published (glob (camera_loop py_float k (Some f) now s)) in
  view 0%nat = (latest_rgb g, latest_depth_float g, old_bundle) /\
  view 1%nat = (latest_rgb g, Some dist, old_bundle) /\
  view 2%nat = (Some (jpeg f), Some dist, old_bundle) /\
  view 3%nat = view 2%nat /\ view 4%nat = view 2%nat /\ view 5%nat = view 2%nat /\
  view 6%nat = (Some (jpeg f), Some dist, Some bundle) /\
  view 7%nat = view 6%nat /\
  cam_thread (camera_loop py_float 7 (Some f) now s) = AtRead /\
  forall (s' : system A) rd,
    published (glob (sys_step py_float s' (ImuRead rd))) = published (glob s').
Proof.
  intros Hpc Hdist. destruct s as [g r pc m]. simpl in Hpc. subst pc.
  cbv zeta.
  destruct (camera_cycle py_float g r m f now Hdist)
    as (E1 & E2 & E3 & E4 & E5 & E6 & E7).
  rewrite E1, E2, E3, E4, E5, E6, E7. simpl glob. unfold published. simpl.
  rewrite last_item_deque_append by (unfold SYNCED_MAXLEN; lia).
  repeat split; try reflexivity.
  intros s' rd. apply imu_read_published.
Qed.

(** The first statement of a cycle on frame B after a cycle on frame A. *)
Lemma publish_field_by_field_witness :
  published (glob (camera_loop float_of_digits 1 (Some frame_b) (F 101 0) after_cycle_a))
  = (Some "jpeg-A", Some (dist_of frame_b),
     last_item (synced_imu (glob after_cycle_a))).
Proof.
  refine (proj1 (proj2 (@publish_field_by_field float _ float_of_digits
                          after_cycle_a frame_b (dist_of frame_b) (F 101 0) _ _))).
  - vm_compute. reflexivity.
  - vm_compute. reflexivity.
Defined.

(** C2, as the specification words it, fails: after a cycle on frame A, the
    first statement of the cycle on frame B publishes B's distance map
    while the encoded frame and the bundle are still A's; that is neither
    the state before the cycle nor the one after it. *)
Lemma atomic_publish_counterexample :
  ~ spec_atomic_publish float_of_digits after_cycle_a (Some frame_b) (F 101 0).
Proof.
  intros H. destruct (H 1%nat ltac:(lia)) as [E | E].
  - apply (f_equal (fun v => option_map (@List.length float) (snd (fst v)))) in E.
    vm_compute in E. discriminate E.
  - apply (f_equal (fun v => fst (fst v))) in E.
    vm_compute in E. discriminate E.
Qed.

(** What the reader sees at that point. *)
Example torn_state :
  published (glob (camera_loop float_of_digits 1 (Some frame_b) (F 101 0) after_cycle_a))
  = (Some (jpeg frame_a), Some (dist_of frame_b),
     Some (F 100 0, synchronize (F 100 0) (imu_buffer (glob after_cycle_a)))).
Proof. vm_compute. reflexivity. Qed.

(** ** The latest-bundle query *)

(** C9.  With no bundle in [synced_imu] the handler
    answers [{"timestamp": None, "imu": []}]; otherwise it answers with the
    bundle appended last, its frame time stamp under ["timestamp"] and its
    samples under ["imu"], one object per sample with the keys ["ts"],
    ["ax"], ["ay"], ["az"], ["gx"], ["gy"], ["gz"].  The process answers
    the first before any cycle of the frame loop, and after a cycle it
    answers with the bundle of that cycle. *)
Theorem latest_bundle_query :
  (forall (A : Type) (g : globals A),
      synced_imu g = [] ->
      imu_buffer_stream g = JObj [("timestamp", JNull); ("imu", JArr [])]) /\
  (forall (A : Type) (g : globals A) older (current_ts : A) imu_data,
      synced_imu g = older ++ [(current_ts, imu_data)] ->
      imu_buffer_stream g
      = JObj [("timestamp", JNum current_ts);
              ("imu", JArr (map sample_json imu_data))]) /\
  (forall (A : Type) (s : sample A),
      sample_json s
      = JObj [("ts", JNum (ts s));
              ("ax", JNum (ax s)); ("ay", JNum (ay s)); ("az", JNum (az s));
              ("gx", JNum (gx s)); ("gy", JNum (gy s)); ("gz", JNum (gz s))]) /\
  (forall (A : Type) (N : Number A) (now : A),
      imu_buffer_stream (glob (initial now))
      = JObj [("timestamp", JNull); ("imu", JArr [])]) /\
  (forall (A : Type) (N : Number A) (py_float : string -> option A)
          (g : globals A) (r : reader A) (m : main_pc)
          (f : frame A) (dist : list A) (T : A),
      depth_to_distance (raw_depth f) MIN_DIST MAX_DIST = Ok dist ->
      imu_buffer_stream (glob (camera_loop py_float 7 (Some f) T (mk_system g r AtRead m)))
      = JObj [("timestamp", JNum T);
              ("imu", JArr (map sample_json (synchronize T (imu_buffer g))))]).
Proof.
  split; [| split; [| split; [| split]]].
  - intros A g H. unfold imu_buffer_stream. now rewrite H.
  - intros A g older current_ts imu_data H. unfold imu_buffer_stream.
    now rewrite H, last_item_snoc.
  - reflexivity.
  - reflexivity.
  - intros A N py_float g r m f dist T Hdist.
    destruct (camera_cycle py_float g r m f T Hdist) as (_ & _ & _ & _ & _ & _ & E7).
    rewrite E7. unfold imu_buffer_stream. simpl.
    now rewrite last_item_deque_append by (unfold SYNCED_MAXLEN; lia).
Qed.

(** The answer after one record and one cycle of the frame loop. *)
Example latest_bundle_keys :
  let answer := imu_buffer_stream (glob after_cycle_a) in
  json_get "timestamp" answer = Some (JNum (F 100 0)) /\
  json_get "imu" answer
  = Some (JArr [JObj [("ts", JNum (F 995 (-1)));
                      ("ax", JNum (F 1 0)); ("ay", JNum (F 2 0)); ("az", JNum (F 3 0));
                      ("gx", JNum (F 4 0)); ("gy", JNum (F 5 0)); ("gz", JNum (F 6 0))]]).
Proof. vm_compute. repeat split; reflexivity. Qed.

(** ** The distance map *)

Lemma some_inj_ok (T : Type) (x y : T) : @Ok T x = Ok y -> x = y.
Proof. intros H. injection H as ->. reflexivity. Qed.

Section ExactDepth.
Local Open Scope Q_scope.

Lemma Q_minimum_le (x y : Q) : minimum x y <= x /\ minimum x y <= y.
Proof.
  simpl. destruct (Q_ltb y x) eqn:E.
  - apply Q_ltb_lt in E. split; lra.
  - apply Q_ltb_ge in E. split; lra.
Qed.

Lemma Q_maximum_ge (x y : Q) : x <= maximum x y /\ y <= maximum x y.
Proof.
  simpl. destruct (Q_ltb x y) eqn:E.
  - apply Q_ltb_lt in E. split; lra.
  - apply Q_ltb_ge in E. split; lra.
Qed.

Lemma Q_minimum_cases (x y : Q) : minimum x y = x \/ minimum x y = y.
Proof. simpl. destruct (Q_ltb y x); auto. Qed.

Lemma Q_maximum_cases (x y : Q) : maximum x y = x \/ maximum x y = y.
Proof. simpl. destruct (Q_ltb x y); auto. Qed.

Lemma Q_fold_minimum (xs : list Q) : forall x,
  In (fold_left minimum xs x) (x :: xs) /\
  forall v, In v (x :: xs) -> fold_left minimum xs x <= v.
Proof.
  induction xs as [| y xs IH]; intros x.
  - simpl. split; [auto |]. intros v [<- | []]. lra.
  - cbn [fold_left]. destruct (IH (minimum x y)) as [Hin Hle].
    destruct (Q_minimum_le x y) as [Hx Hy]. split.
    + destruct Hin as [E | Hin].
      * rewrite <- E. destruct (Q_minimum_cases x y) as [-> | ->]; simpl; auto.
      * right. right. exact Hin.
    + intros v [<- | [<- | Hv]].
      * specialize (Hle (minimum x y) (or_introl eq_refl)). lra.
      * specialize (Hle (minimum x y) (or_introl eq_refl)). lra.
      * apply Hle. right. exact Hv.
Qed.

Lemma Q_fold_maximum (xs : list Q) : forall x,
  In (fold_left maximum xs x) (x :: xs) /\
  forall v, In v (x :: xs) -> v <= fold_left maximum xs x.
Proof.
  induction xs as [| y xs IH]; intros x.
  - simpl. split; [auto |]. intros v [<- | []]. lra.
  - cbn [fold_left]. destruct (IH (maximum x y)) as [Hin Hle].
    destruct (Q_maximum_ge x y) as [Hx Hy]. split.
    + destruct Hin as [E | Hin].
      * rewrite <- E. destruct (Q_maximum_cases x y) as [-> | ->]; simpl; auto.
      * right. right. exact Hin.
    + intros v [<- | [<- | Hv]].
      * specialize (Hle (maximum x y) (or_introl eq_refl)). lra.
      * specialize (Hle (maximum x y) (or_introl eq_refl)). lra.
      * apply Hle. right. exact Hv.
Qed.


Lemma epsQ_pos : 0 < epsQ.
Proof. reflexivity. Qed.

Lemma norm_bounds (lo hi v : Q) :
  lo <= v -> v <= hi ->
  0 <= (v - lo) / (hi - lo + epsQ) /\ (v - lo) / (hi - lo + epsQ) < 1.
Proof.
  intros Hlo Hhi. pose proof epsQ_pos as He.
  assert (HD : 0 < hi - lo + epsQ) by lra. split.
  - apply Qle_shift_div_l; [exact HD | lra].
  - apply Qlt_shift_div_r; [exact HD | lra].
Qed.

Lemma distance_of_bounds (lo hi v : Q) :
  lo <= v -> v <= hi -> 1 < distance_of lo hi v /\ distance_of lo hi v <= 5.
Proof.
  intros Hlo Hhi. destruct (norm_bounds Hlo Hhi) as [H0 H1].
  unfold distance_of. set (n := (v - lo) / (hi - lo + epsQ)) in *. split; lra.
Qed.

Lemma distance_of_least (lo hi v : Q) : v == lo -> distance_of lo hi v == 5.
Proof.
  intros H. unfold distance_of, Qdiv.
  assert (E : v - lo == 0) by lra. rewrite E. ring.
Qed.

Lemma distance_of_decreasing (lo hi v w : Q) :
  lo <= hi -> v < w -> distance_of lo hi w < distance_of lo hi v.
Proof.
  intros Hr Hvw. pose proof epsQ_pos as He.
  assert (HD : 0 < / (hi - lo + epsQ)) by (apply Qinv_lt_0_compat; lra).
  assert (Hn : (v - lo) / (hi - lo + epsQ) < (w - lo) / (hi - lo + epsQ)).
  { unfold Qdiv. apply Qmult_lt_r; [exact HD | lra]. }
  unfold distance_of.
  set (n := (v - lo) / (hi - lo + epsQ)) in *.
  set (m := (w - lo) / (hi - lo + epsQ)) in *. lra.
Qed.

Lemma depth_to_distance_exact (x : Q) (xs : list Q) :
  depth_to_distance (x :: xs) MIN_DIST MAX_DIST
  = Ok (map (distance_of (fold_left minimum xs x) (fold_left maximum xs x)) (x :: xs)).
Proof. unfold depth_to_distance, array_min, array_max. rewrite map_map. reflexivity. Qed.

Lemma Forall2_map_In (T U : Type) (P : T -> U -> Prop) (f : T -> U) (l : list T) :
  (forall v, In v l -> P v (f v)) -> Forall2 P l (map f l).
Proof.
  induction l as [| a l IH]; intros H; simpl; constructor.
  - apply H. now left.
  - apply IH. intros v Hv. apply H. now right.
Qed.

Lemma distance_bounds_Q (raw : list Q) :
  raw <> [] -> distance_bounds Qlt Qle Qeq raw.
Proof.
  destruct raw as [| x xs]; [congruence |]. intros _.
  destruct (Q_fold_minimum xs x) as [Hlo_in Hlo].
  destruct (Q_fold_maximum xs x) as [Hhi_in Hhi].
  eexists. split; [apply depth_to_distance_exact |].
  apply Forall2_map_In. intros v Hv.
  destruct (distance_of_bounds (Hlo v Hv) (Hhi v Hv)) as [H1 H5].
  split; [exact H1 | split; [exact H5 |]].
  intros Hleast. apply distance_of_least.
  apply Qle_antisym; [apply Hleast; exact Hlo_in | apply Hlo; exact Hv].
Qed.

Lemma uniform_exact (raw : list Q) (c : Q) :
  raw <> [] -> (forall v, In v raw -> v == c) ->
  exists dist, depth_to_distance raw MIN_DIST MAX_DIST = Ok dist /\
               List.length dist = List.length raw /\
               Forall (fun d => d == MAX_DIST) dist.
Proof.
  destruct raw as [| x xs]; [congruence |]. intros _ Hc.
  destruct (Q_fold_minimum xs x) as [Hlo_in _].
  eexists. split; [apply depth_to_distance_exact |].
  split; [apply length_map |].
  apply Forall_forall. intros d Hd. apply in_map_iff in Hd.
  destruct Hd as (v & <- & Hv).
  apply distance_of_least. rewrite (Hc v Hv), (Hc _ Hlo_in). reflexivity.
Qed.

Lemma decreasing_exact (raw dist : list Q) :
  depth_to_distance raw MIN_DIST MAX_DIST = Ok dist ->
  strictly_decreasing Qlt raw dist.
Proof.
  destruct raw as [| x xs]; [discriminate |].
  rewrite depth_to_distance_exact. intros E. apply some_inj_ok in E. subst dist.
  destruct (Q_fold_minimum xs x) as [_ Hlo].
  destruct (Q_fold_maximum xs x) as [_ Hhi].
  intros i j ri rj di dj Hri Hrj Hdi Hdj Hlt.
  rewrite nth_error_map, Hri in Hdi. rewrite nth_error_map, Hrj in Hdj.
  simpl in Hdi, Hdj. injection Hdi as <-. injection Hdj as <-.
  apply distance_of_decreasing; [| exact Hlt].
  exact (Qle_trans _ _ _ (Hlo x (or_introl eq_refl)) (Hhi x (or_introl eq_refl))).
Qed.
End ExactDepth.

Section Binary64.
Local Open Scope float_scope.

Lemma float_sub_self (c : float) : float_finite c = true -> c - c = 0.
Proof.
  intros H. apply Prim2SF_inj. rewrite sub_spec.
  unfold float_finite, spec_finite in H.
  destruct (Prim2SF c) as [s | s | | s m e]; try discriminate.
  - destruct s; reflexivity.
  - unfold SF64sub, SFsub. rewrite Z.sub_diag. reflexivity.
Qed.

Lemma float_minimum_self (c : float) : float_minimum c c = c.
Proof. unfold float_minimum. destruct (is_nan c), (c <? c); reflexivity. Qed.

Lemma float_maximum_self (c : float) : float_maximum c c = c.
Proof. unfold float_maximum. destruct (is_nan c), (c <? c); reflexivity. Qed.

Lemma fold_minimum_repeat (c : float) (n : nat) : fold_left minimum (repeat c n) c = c.
Proof. induction n as [| n IH]; simpl; [reflexivity |]. now rewrite float_minimum_self. Qed.

Lemma fold_maximum_repeat (c : float) (n : nat) : fold_left maximum (repeat c n) c = c.
Proof. induction n as [| n IH]; simpl; [reflexivity |]. now rewrite float_maximum_self. Qed.

Lemma uniform_binary64 (c : float) (n : nat) :
  float_finite c = true ->
  depth_to_distance (c :: repeat c n) MIN_DIST MAX_DIST = Ok (F 5 0 :: repeat (F 5 0) n).
Proof.
  intros H. unfold depth_to_distance, array_min, array_max.
  rewrite fold_minimum_repeat, fold_maximum_repeat, map_map.
  change (c :: repeat c n) with (repeat c (S n)).
  change (F 5 0 :: repeat (F 5 0) n) with (repeat (F 5 0) (S n)).
  rewrite map_repeat. f_equal. f_equal.
  change (@num_sub float float_Number) with PrimFloat.sub.
  rewrite float_sub_self by exact H. vm_compute. reflexivity.
Qed.
End Binary64.

Section Binary32.

Lemma binary32_sub_self (c : spec_float) :
  spec_finite c = true -> SFsub prec32 emax32 c c = S754_zero false.
Proof.
  destruct c as [s | s | | s m e]; try discriminate; intros _.
  - destruct s; reflexivity.
  - unfold SFsub. rewrite Z.sub_diag. reflexivity.
Qed.

Lemma binary32_minimum_self (c : spec_float) : binary32_minimum c c = c.
Proof. unfold binary32_minimum. destruct (binary32_is_nan c), (SFltb c c); reflexivity. Qed.

Lemma binary32_maximum_self (c : spec_float) : binary32_maximum c c = c.
Proof. unfold binary32_maximum. destruct (binary32_is_nan c), (SFltb c c); reflexivity. Qed.

Lemma binary32_fold_minimum_repeat (c : spec_float) (n : nat) :
  fold_left minimum (repeat c n) c = c.
Proof. induction n as [| n IH]; simpl; [reflexivity |]. now rewrite binary32_minimum_self. Qed.

Lemma binary32_fold_maximum_repeat (c : spec_float) (n : nat) :
  fold_left maximum (repeat c n) c = c.
Proof. induction n as [| n IH]; simpl; [reflexivity |]. now rewrite binary32_maximum_self. Qed.

Lemma uniform_binary32 (c : spec_float) (n : nat) :
  spec_finite c = true ->
  depth_to_distance (c :: repeat c n) MIN_DIST MAX_DIST = Ok (F32 5 0 :: repeat (F32 5 0) n).
Proof.
  intros H. unfold depth_to_distance, array_min, array_max.
  rewrite binary32_fold_minimum_repeat, binary32_fold_maximum_repeat, map_map.
  change (c :: repeat c n) with (repeat c (S n)).
  change (F32 5 0 :: repeat (F32 5 0) n) with (repeat (F32 5 0) (S n)).
  rewrite map_repeat. f_equal. f_equal.
  change (@num_sub spec_float binary32_Number) with (SFsub prec32 emax32).
  rewrite binary32_sub_self by exact H. vm_compute. reflexivity.
Qed.

End Binary32.

(** ** Rounding to nearest *)

(** The library's [SFadd], [SFsub], [SFmul] and [SFdiv], by which the
    operations of [PrimFloat] are specified, compute the exact result as
    an integer mantissa, an exponent and the place of the remainder, and
    round it with [binary_round_aux].  This part proves that the result is
    a number of the format nearest to the exact one, and draws from it
    what the distance map needs: rounding leaves a real between two
    numbers of the format in between, and rounding is monotone. *)

Unset Implicit Arguments.

Section Bits.

Local Open Scope R_scope.

Lemma bpow_pos e : 0 < bpow e.
Proof. apply powerRZ_lt. Lra.lra. Qed.

Lemma bpow_add a b : bpow (a + b) = bpow a * bpow b.
Proof. apply powerRZ_add. Lra.lra. Qed.

Lemma bpow_succ e : bpow (e + 1) = 2 * bpow e.
Proof. rewrite bpow_add. unfold bpow at 2. simpl. Lra.lra. Qed.

Lemma bpow_0 : bpow 0 = 1.
Proof. reflexivity. Qed.

Lemma bpow_opp e : bpow (- e) = / bpow e.
Proof.
  pose proof (bpow_pos e) as Hb.
  assert (H : bpow (- e) * bpow e = 1).
  { rewrite <- bpow_add. replace (- e + e)%Z with 0%Z by lia. reflexivity. }
  apply Rmult_eq_reg_r with (bpow e); [| Lra.lra]. rewrite H. field. Lra.lra.
Qed.

Lemma bpow_le a b : (a <= b)%Z -> bpow a <= bpow b.
Proof.
  intros H. replace b with (a + (b - a))%Z by lia. rewrite bpow_add.
  assert (1 <= bpow (b - a)).
  { assert (Hn : (0 <= b - a)%Z) by lia. revert Hn. generalize (b - a)%Z.
    intros n Hn. apply (natlike_ind (fun n => 1 <= bpow n)); [rewrite bpow_0; Lra.lra | | exact Hn].
    intros k Hk IH. unfold Z.succ. rewrite bpow_succ. Lra.lra. }
  pose proof (bpow_pos a). Lra.nra.
Qed.

Lemma bpow_lt a b : (a < b)%Z -> bpow a < bpow b.
Proof.
  intros H. assert (bpow (a + 1) <= bpow b) by (apply bpow_le; lia).
  rewrite bpow_succ in H0. pose proof (bpow_pos a). Lra.lra.
Qed.

Lemma bpow_IZR n : (0 <= n)%Z -> bpow n = IZR (2 ^ n).
Proof.
  intros Hn. apply (natlike_ind (fun n => bpow n = IZR (2 ^ n))); [reflexivity | | exact Hn].
  intros k Hk IH. unfold Z.succ. rewrite bpow_succ, IH, Z.pow_add_r by lia.
  rewrite mult_IZR. change (2 ^ 1)%Z with 2%Z. Lra.lra.
Qed.

(** The number of binary digits of a mantissa. *)
Lemma digits2_pos_bounds (p : positive) :
  (2 ^ (Zpos (digits2_pos p) - 1) <= Zpos p < 2 ^ Zpos (digits2_pos p))%Z.
Proof.
  induction p as [p IH | p IH |]; cbn [digits2_pos].
  - rewrite Pos2Z.inj_succ. unfold Z.succ.
    replace (Z.pos (digits2_pos p) + 1 - 1)%Z with (Z.pos (digits2_pos p) - 1 + 1)%Z by lia.
    rewrite !Z.pow_add_r by lia. change (2 ^ 1)%Z with 2%Z. lia.
  - rewrite Pos2Z.inj_succ. unfold Z.succ.
    replace (Z.pos (digits2_pos p) + 1 - 1)%Z with (Z.pos (digits2_pos p) - 1 + 1)%Z by lia.
    rewrite !Z.pow_add_r by lia. change (2 ^ 1)%Z with 2%Z. lia.
  - simpl. lia.
Qed.

Lemma digits2_bpow (p : positive) :
  bpow (Zpos (digits2_pos p) - 1) <= IZR (Zpos p) < bpow (Zpos (digits2_pos p)).
Proof.
  pose proof (digits2_pos_bounds p) as [H1 H2].
  rewrite !bpow_IZR by lia. split; [apply IZR_le | apply IZR_lt]; assumption.
Qed.

Lemma IZR_xO p : IZR (Zpos p~0) = 2 * IZR (Zpos p).
Proof. change (Zpos p~0) with (2 * Zpos p)%Z. rewrite mult_IZR. reflexivity. Qed.

Lemma IZR_xI p : IZR (Zpos p~1) = 2 * IZR (Zpos p) + 1.
Proof. change (Zpos p~1) with (2 * Zpos p + 1)%Z. rewrite plus_IZR, mult_IZR. reflexivity. Qed.

(** Shifting the mantissa right by one bit keeps track of where the real
    lies. *)
Lemma shr_1_ok mrs e x : mrs_ok mrs e x -> mrs_ok (shr_1 mrs) (e + 1) x.
Proof.
  destruct mrs as [m r s]. unfold mrs_ok. cbn [shr_m]. intros [Hm H].
  pose proof (bpow_pos e) as Hb. pose proof (bpow_succ e) as Hs.
  destruct m as [| p | p]; [| | lia].
  - destruct r, s; cbn [shr_1 shr_m loc_of_shr_record inb orb] in *;
      rewrite Hs; (split; [lia |]); Lra.lra.
  - destruct p as [p | p |];
      [pose proof (IZR_xI p) as Hp | pose proof (IZR_xO p) as Hp | pose proof (eq_refl 1) as Hp];
      destruct r, s; cbn [shr_1 shr_m loc_of_shr_record inb orb] in *;
      rewrite Hs; try rewrite Hp in H; (split; [lia |]); Lra.lra.
Qed.

Lemma iter_pos_shr_1_ok (p : positive) : forall mrs e x,
  mrs_ok mrs e x -> mrs_ok (iter_pos shr_1 p mrs) (e + Zpos p) x.
Proof.
  induction p as [p IH | p IH |]; intros mrs e x H; cbn [iter_pos].
  - replace (e + Zpos p~1)%Z with (e + 1 + Zpos p + Zpos p)%Z by lia.
    apply IH, IH, shr_1_ok, H.
  - replace (e + Zpos p~0)%Z with (e + Zpos p + Zpos p)%Z by lia.
    apply IH, IH, H.
  - apply shr_1_ok, H.
Qed.

Lemma shr_ok mrs e n x :
  mrs_ok mrs e x -> (0 <= n)%Z ->
  mrs_ok (fst (shr mrs e n)) (e + n) x /\ snd (shr mrs e n) = (e + n)%Z.
Proof.
  intros H Hn. destruct n as [| p | p]; [| | lia]; cbn [shr fst snd].
  - rewrite Z.add_0_r. auto.
  - split; [now apply iter_pos_shr_1_ok | reflexivity].
Qed.

Lemma shr_record_of_loc_ok m l e x :
  (0 <= m)%Z -> inb m e l x -> mrs_ok (shr_record_of_loc m l) e x.
Proof.
  intros Hm H. unfold mrs_ok.
  destruct l as [| [| |]]; cbn [shr_record_of_loc shr_m loc_of_shr_record]; auto.
Qed.

(** Nearest integer, ties to even. *)
Lemma round_nearest_even_ok m l e x (k : Z) :
  inb m e l x ->
  Rabs (IZR (round_nearest_even m l) * bpow e - x) <= Rabs (IZR k * bpow e - x).
Proof.
  intros H. pose proof (bpow_pos e) as Hb.
  assert (Hk : (k <= m)%Z \/ (m + 1 <= k)%Z) by lia.
  assert (Hk' : IZR k * bpow e <= IZR m * bpow e \/ (IZR m + 1) * bpow e <= IZR k * bpow e).
  { destruct Hk as [Hk | Hk]; [left | right].
    - apply Rmult_le_compat_r; [Lra.lra | now apply IZR_le].
    - apply Rmult_le_compat_r; [Lra.lra |]. apply IZR_le in Hk. now rewrite plus_IZR in Hk. }
  clear Hk.
  destruct l as [| [| |]]; cbn [round_nearest_even inb] in *.
  - subst x. replace (IZR m * bpow e - IZR m * bpow e) with 0 by ring.
    rewrite Rabs_R0. apply Rabs_pos.
  - destruct (Z.even m); rewrite ?plus_IZR; subst x;
      unfold Rabs; repeat destruct Rcase_abs; Lra.lra.
  - unfold Rabs; repeat destruct Rcase_abs; Lra.lra.
  - rewrite plus_IZR. unfold Rabs; repeat destruct Rcase_abs; Lra.lra.
Qed.

Lemma round_nearest_even_range m l e x :
  inb m e l x ->
  (m <= round_nearest_even m l <= m + 1)%Z /\
  (round_nearest_even m l = (m + 1)%Z -> (IZR m + /2) * bpow e <= x) /\
  (round_nearest_even m l = m ->
   x < (IZR m + /2) * bpow e \/ (x = (IZR m + /2) * bpow e /\ Z.even m = true)).
Proof.
  intros H. pose proof (bpow_pos e) as Hb.
  destruct l as [| [| |]]; cbn [round_nearest_even inb] in *.
  - split; [lia | split; [intros; lia | intros; left; subst; Lra.lra]].
  - destruct (Z.even m) eqn:Ev.
    + split; [lia | split; [intros; lia | intros; right; auto]].
    + split; [lia | split; [intros; Lra.lra | intros; lia]].
  - split; [lia | split; [intros; lia | intros; left; Lra.lra]].
  - split; [lia | split; [intros; Lra.lra | intros; lia]].
Qed.

Lemma Zdigits2_bounds (m : Z) :
  (0 <= m)%Z ->
  (0 <= Zdigits2 m)%Z /\ (m < 2 ^ Zdigits2 m)%Z /\ ((0 < m)%Z -> (2 ^ (Zdigits2 m - 1) <= m)%Z).
Proof.
  intros Hm. destruct m as [| p | p]; [simpl; repeat split; lia | | lia].
  pose proof (digits2_pos_bounds p). cbn [Zdigits2]. repeat split; lia.
Qed.

Lemma Zdigits2_le (m k : Z) : (0 <= m)%Z -> (0 <= k)%Z -> (m < 2 ^ k)%Z -> (Zdigits2 m <= k)%Z.
Proof.
  intros Hm Hk H. destruct (Zdigits2_bounds m Hm) as (H0 & _ & H2).
  destruct (Z.eq_dec m 0) as [-> | Hne]; [simpl; lia |].
  assert (Hp : (0 < m)%Z) by lia. specialize (H2 Hp).
  destruct (Z_le_gt_dec (Zdigits2 m) k) as [Hle | Hgt]; [exact Hle |].
  assert ((2 ^ k <= 2 ^ (Zdigits2 m - 1))%Z) by (apply Z.pow_le_mono_r; lia). lia.
Qed.

Lemma Zdigits2_ge (m k : Z) : (0 < m)%Z -> (2 ^ (k - 1) <= m)%Z -> (k <= Zdigits2 m)%Z.
Proof.
  intros Hm H. destruct (Zdigits2_bounds m ltac:(lia)) as (H0 & H1 & _).
  destruct (Z_le_gt_dec k (Zdigits2 m)) as [Hle | Hgt]; [exact Hle |].
  assert ((2 ^ Zdigits2 m <= 2 ^ (k - 1))%Z) by (apply Z.pow_le_mono_r; lia). lia.
Qed.

Lemma IZR_lt_bpow (m k : Z) : (0 <= k)%Z -> IZR m < bpow k -> (m < 2 ^ k)%Z.
Proof. intros Hk H. rewrite bpow_IZR in H by exact Hk. now apply lt_IZR. Qed.

Lemma inb_bounds m e l x :
  inb m e l x -> IZR m * bpow e <= x < (IZR m + 1) * bpow e.
Proof.
  pose proof (bpow_pos e). destruct l as [| [| |]]; cbn [inb]; intros; subst; Lra.lra.
Qed.



Lemma Pos_iter_xO (d m : positive) : Zpos (Pos.iter xO m d) = (Zpos m * 2 ^ Zpos d)%Z.
Proof.
  revert m. induction d as [| d IH] using Pos.peano_ind; intros m.
  - simpl. lia.
  - rewrite Pos.iter_succ, Pos2Z.inj_succ, Z.pow_succ_r by lia.
    rewrite Pos2Z.inj_xO, IH. lia.
Qed.

Lemma digits2_Pos_iter_xO (d m : positive) :
  Zpos (digits2_pos (Pos.iter xO m d)) = (Zpos (digits2_pos m) + Zpos d)%Z.
Proof.
  revert m. induction d as [| d IH] using Pos.peano_ind; intros m.
  - simpl. lia.
  - rewrite Pos.iter_succ. cbn [digits2_pos]. rewrite !Pos2Z.inj_succ, IH. lia.
Qed.

Lemma shl_align_ok (mx : positive) (ex ex' : Z) :
  let mz := fst (shl_align mx ex ex') in
  let ez := snd (shl_align mx ex ex') in
  IZR (Zpos mz) * bpow ez = IZR (Zpos mx) * bpow ex /\
  (Zpos (digits2_pos mz) + ez = Zpos (digits2_pos mx) + ex)%Z /\
  ez = Z.min ex ex'.
Proof.
  unfold shl_align. destruct (ex' - ex)%Z as [| d | d] eqn:Ed; cbn [fst snd].
  - repeat split; lia.
  - repeat split; lia.
  - rewrite digits2_Pos_iter_xO, Pos_iter_xO. repeat split; try lia.
    rewrite mult_IZR, <- bpow_IZR by lia. rewrite Rmult_assoc, <- bpow_add.
    f_equal. f_equal. lia.
Qed.


Lemma IZR_cond_Zopp (s : bool) (m : Z) : IZR (cond_Zopp s m) = if s then - IZR m else IZR m.
Proof. destruct s; cbn [cond_Zopp]; [apply opp_IZR | reflexivity]. Qed.

Lemma new_location_ok (m2 r : Z) :
  (0 <= r < m2)%Z ->
  match new_location m2 r with
  | loc_Exact => r = 0%Z
  | loc_Inexact Lt => (0 < r)%Z /\ (2 * r < m2)%Z
  | loc_Inexact Eq => (2 * r = m2)%Z
  | loc_Inexact Gt => (m2 < 2 * r)%Z
  end.
Proof.
  intros H. unfold new_location, new_location_even, new_location_odd.
  destruct (Z.even m2) eqn:Ev.
  - destruct (Z.eqb_spec r 0) as [-> | Hr]; [reflexivity |].
    destruct (Z.compare_spec (2 * r) m2); lia.
  - destruct (Z.eqb_spec r 0) as [-> | Hr]; [reflexivity |].
    assert (Hodd : Z.odd m2 = true) by (rewrite <- Z.negb_even, Ev; reflexivity).
    apply Z.odd_spec in Hodd. destruct Hodd as [k Hk].
    destruct (Z.compare_spec (2 * r + 1) m2); lia.
Qed.



Lemma same_refl x : same x x.
Proof. now left. Qed.

Lemma same_SF2R x y : same x y -> SF2R x = SF2R y.
Proof. intros [-> | (s & s' & -> & ->)]; reflexivity. Qed.

Lemma div_bounds (a D : R) : 0 <= a <= D -> 0 < D -> 0 <= a / D <= 1.
Proof.
  intros [H0 H1] HD. assert (0 < / D) by now apply Rinv_0_lt_compat.
  unfold Rdiv. split; [apply Rmult_le_pos; Lra.lra |].
  replace 1 with (D * / D) by (field; Lra.lra). apply Rmult_le_compat_r; Lra.lra.
Qed.

Lemma div_mono (a1 a2 D : R) : a1 <= a2 -> 0 < D -> a1 / D <= a2 / D.
Proof.
  intros H HD. assert (0 < / D) by now apply Rinv_0_lt_compat.
  unfold Rdiv. apply Rmult_le_compat_r; Lra.lra.
Qed.

Lemma div_inj (a1 a2 D : R) : 0 < D -> a1 / D = a2 / D -> a1 = a2.
Proof.
  intros HD H. assert (0 < / D) by now apply Rinv_0_lt_compat.
  unfold Rdiv in H. apply Rmult_eq_reg_r in H; Lra.lra.
Qed.

Lemma finite_nonzero (x : spec_float) :
  spec_finite x = true -> SF2R x <> 0 -> exists s m e, x = S754_finite s m e.
Proof.
  destruct x as [s | s | | s m e]; try discriminate; intros _ H.
  - exfalso. apply H. reflexivity.
  - eauto.
Qed.

End Bits.

Section Rounding.

Local Open Scope R_scope.

Variables prec emax : Z.
Hypothesis Hprec : (0 < prec)%Z.
Hypothesis Hemax : (prec < emax)%Z.

Local Notation "'emin'" := (SpecFloat.emin prec emax).
Local Notation "'fexp'" := (SpecFloat.fexp prec emax).
Local Notation "'valid'" := (SpecFloat.valid_binary prec emax).
Local Notation "'rep'" := (rep prec emax).
Local Notation "'T'" := (overflow_threshold prec emax).
Local Notation "'rounds_to'" := (rounds_to prec emax).
Local Notation "'good'" := (good prec emax).



Lemma fexp_eq z : fexp z = Z.max (z - prec) emin.
Proof. reflexivity. Qed.

Lemma emin_eq : emin = (3 - emax - prec)%Z.
Proof. reflexivity. Qed.

Lemma rep_opp g : rep g -> rep (- g).
Proof.
  intros (k & j & H1 & H2 & H3). exists (- k)%Z, j. rewrite opp_IZR, H1.
  repeat split; [ring | lia | lia].
Qed.

(** A number nearest among the multiples of [2^E] is nearest in the
    format, when [E] is the exponent of the format at that number. *)
Lemma nearest_rep (E : Z) (x r : R) :
  (forall k, Rabs (r - x) <= Rabs (IZR k * bpow E - x)) ->
  (emin <= E)%Z ->
  ((emin < E)%Z -> bpow (E + prec - 1) <= x) ->
  forall g, rep g -> Rabs (r - x) <= Rabs (g - x).
Proof.
  intros Hr HE Hx g (k & j & H1 & H2 & H3).
  destruct (Z_le_gt_dec E j) as [Hle | Hgt].
  - subst g. replace j with (j - E + E)%Z by lia. rewrite bpow_add, <- Rmult_assoc.
    rewrite bpow_IZR by lia. rewrite <- mult_IZR. apply Hr.
  - assert (HE' : (emin < E)%Z) by lia. specialize (Hx HE').
    specialize (Hr (2 ^ (prec - 1))%Z).
    rewrite <- bpow_IZR, <- bpow_add in Hr by lia.
    replace (prec - 1 + E)%Z with (E + prec - 1)%Z in Hr by lia.
    assert (Hg : g < bpow (E + prec - 1)).
    { subst g. pose proof (bpow_pos j) as Hb.
      assert (Hk : IZR k < bpow prec).
      { rewrite bpow_IZR by lia. apply IZR_lt. lia. }
      assert (IZR k * bpow j < bpow prec * bpow j) by (apply Rmult_lt_compat_r; assumption).
      rewrite <- bpow_add in H.
      assert (bpow (prec + j) <= bpow (E + prec - 1)) by (apply bpow_le; lia). Lra.lra. }
    revert Hr. unfold Rabs. repeat destruct Rcase_abs; Lra.lra.
Qed.




Lemma shr_nonpos mrs e n : (n <= 0)%Z -> shr mrs e n = (mrs, e).
Proof. destruct n; [reflexivity | lia | reflexivity]. Qed.

Lemma shr_fexp_ok m e l x :
  (0 <= m)%Z -> inb m e l x -> (e <= fexp (Zdigits2 m + e))%Z ->
  snd (shr_fexp prec emax m e l) = fexp (Zdigits2 m + e) /\
  mrs_ok (fst (shr_fexp prec emax m e l)) (fexp (Zdigits2 m + e)) x.
Proof.
  intros Hm Hin Hal. unfold shr_fexp.
  destruct (@shr_ok (shr_record_of_loc m l) e (fexp (Zdigits2 m + e) - e) x) as [H1 H2].
  - now apply shr_record_of_loc_ok.
  - lia.
  - replace (e + (fexp (Zdigits2 m + e) - e))%Z with (fexp (Zdigits2 m + e)) in * by lia.
    split; assumption.
Qed.

Lemma Zdigits2_pow2 : Zdigits2 (2 ^ prec) = (prec + 1)%Z.
Proof.
  assert (H : (0 < 2 ^ prec)%Z) by (apply Z.pow_pos_nonneg; lia).
  apply Z.le_antisymm.
  - apply Zdigits2_le; [lia | lia |]. rewrite Z.pow_add_r by lia. lia.
  - apply Zdigits2_ge; [exact H |]. replace (prec + 1 - 1)%Z with prec by lia. lia.
Qed.

(** The second shift of [binary_round_aux] only undoes a carry. *)
Lemma shr_fexp_exact (m1 E : Z) :
  (0 <= m1 <= 2 ^ prec)%Z -> (emin <= E)%Z ->
  ((m1 < 2 ^ prec)%Z /\
   shr_m (fst (shr_fexp prec emax m1 E loc_Exact)) = m1 /\
   snd (shr_fexp prec emax m1 E loc_Exact) = E) \/
  (m1 = (2 ^ prec)%Z /\
   shr_m (fst (shr_fexp prec emax m1 E loc_Exact)) = (2 ^ (prec - 1))%Z /\
   snd (shr_fexp prec emax m1 E loc_Exact) = (E + 1)%Z).
Proof.
  intros Hm HE. destruct (Z.eq_dec m1 (2 ^ prec)) as [-> | Hne]; [right | left].
  - split; [reflexivity |]. unfold shr_fexp. rewrite Zdigits2_pow2.
    replace (fexp (prec + 1 + E) - E)%Z with 1%Z by (rewrite fexp_eq; lia).
    cbn [shr iter_pos shr_record_of_loc fst snd]. split; [| reflexivity].
    assert (Hpow : (2 ^ prec = 2 * 2 ^ (prec - 1))%Z).
    { replace prec with (prec - 1 + 1)%Z at 1 by lia. rewrite Z.pow_add_r by lia. lia. }
    assert (Hpos : (0 < 2 ^ (prec - 1))%Z) by (apply Z.pow_pos_nonneg; lia).
    rewrite Hpow. destruct (2 ^ (prec - 1))%Z as [| p | p]; [lia | reflexivity | lia].
  - split; [lia |]. unfold shr_fexp.
    assert (Hd : (Zdigits2 m1 <= prec)%Z) by (apply Zdigits2_le; lia).
    rewrite shr_nonpos by (rewrite fexp_eq; lia).
    destruct m1; split; reflexivity.
Qed.


Lemma bpow_prec_ge_2 : 2 <= bpow prec.
Proof. replace 2 with (bpow 1) by (unfold bpow; simpl; Lra.lra). apply bpow_le. lia. Qed.

Lemma below_threshold (E : Z) (x : R) :
  (E <= emax - prec)%Z -> x < (bpow prec - /2) * bpow E -> x < T.
Proof.
  intros HE Hx. unfold overflow_threshold.
  pose proof bpow_prec_ge_2. pose proof (bpow_pos E).
  assert (bpow E <= bpow (emax - prec)) by (apply bpow_le; lia).
  assert ((bpow prec - /2) * bpow E <= (bpow prec - /2) * bpow (emax - prec))
    by (apply Rmult_le_compat_l; Lra.lra).
  Lra.lra.
Qed.

Lemma even_pow2_pred : Z.even (2 ^ prec - 1) = false.
Proof.
  destruct (Z.even (2 ^ prec - 1)) eqn:Ev; [| reflexivity].
  apply Z.even_spec in Ev. destruct Ev as [k Hk].
  assert (Hpow : (2 ^ prec = 2 * 2 ^ (prec - 1))%Z).
  { replace prec with (prec - 1 + 1)%Z at 1 by lia. rewrite Z.pow_add_r by lia. lia. }
  lia.
Qed.

(** [binary_round_aux] rounds to nearest: from a mantissa, an exponent
    not above the one of the format and the place of the positive real
    [x], it gives a number of the format nearest to [x], or an infinity
    when [x] is at or above the overflow threshold. *)
Lemma binary_round_aux_ok sx m e l x :
  (0 <= m)%Z -> 0 < x -> inb m e l x -> (e <= fexp (Zdigits2 m + e))%Z ->
  match binary_round_aux prec emax sx m e l with
  | S754_nan => False
  | S754_zero s =>
      s = sx /\ x < T /\ forall g, rep g -> x <= Rabs (g - x)
  | S754_finite s m' e' =>
      s = sx /\ x < T /\ SpecFloat.bounded prec emax m' e' = true /\
      forall g, rep g -> Rabs (IZR (Zpos m') * bpow e' - x) <= Rabs (g - x)
  | S754_infinity s => s = sx /\ T <= x
  end.
Proof.
  intros Hm Hx Hin Hal.
  destruct (shr_fexp_ok m e l x Hm Hin Hal) as [HsE Hok].
  unfold binary_round_aux.
  destruct (shr_fexp prec emax m e l) as [mrs' e'] eqn:E1. cbn [fst snd] in *. subst e'.
  set (E := fexp (Zdigits2 m + e)) in *.
  destruct Hok as [Hm' Hin'].
  set (m' := shr_m mrs') in *. set (l' := loc_of_shr_record mrs') in *.
  set (m1 := round_nearest_even m' l').
  pose proof (bpow_pos E) as HbE. pose proof bpow_prec_ge_2 as HP.
  destruct (Zdigits2_bounds m Hm) as (Hd0 & Hd1 & Hd2).
  assert (HEmin : (emin <= E)%Z) by (unfold E; rewrite fexp_eq; lia).
  assert (Hxlt : x < bpow (prec + E)).
  { pose proof (inb_bounds _ _ _ _ Hin) as [_ Hlt]. pose proof (bpow_pos e) as Hbe.
    assert (IZR m + 1 <= bpow (Zdigits2 m)).
    { rewrite bpow_IZR by lia. rewrite <- plus_IZR. apply IZR_le. lia. }
    assert ((IZR m + 1) * bpow e <= bpow (Zdigits2 m) * bpow e)
      by (apply Rmult_le_compat_r; Lra.lra).
    rewrite <- bpow_add in H0.
    assert (bpow (Zdigits2 m + e) <= bpow (prec + E))
      by (apply bpow_le; unfold E; rewrite fexp_eq; lia).
    Lra.lra. }
  assert (Hxge : (emin < E)%Z -> bpow (E + prec - 1) <= x).
  { intros HE. assert (HEd : E = (Zdigits2 m + e - prec)%Z)
      by (unfold E in *; rewrite fexp_eq in *; lia).
    assert (Hmp : (0 < m)%Z).
    { destruct (Z.eq_dec m 0) as [-> | Hne]; [| lia].
      exfalso. cbn [Zdigits2] in *. unfold E in *. rewrite fexp_eq in *. lia. }
    specialize (Hd2 Hmp).
    pose proof (inb_bounds _ _ _ _ Hin) as [Hle _]. pose proof (bpow_pos e) as Hbe.
    assert (bpow (Zdigits2 m - 1) <= IZR m).
    { rewrite bpow_IZR by lia. now apply IZR_le. }
    assert (bpow (Zdigits2 m - 1) * bpow e <= IZR m * bpow e)
      by (apply Rmult_le_compat_r; Lra.lra).
    rewrite <- bpow_add in H0.
    replace (E + prec - 1)%Z with (Zdigits2 m - 1 + e)%Z by lia. Lra.lra. }
  pose proof (inb_bounds _ _ _ _ Hin') as [Hlo Hhi].
  assert (Hm'lt : (m' < 2 ^ prec)%Z).
  { apply IZR_lt_bpow; [lia |]. apply Rmult_lt_reg_r with (bpow E); [exact HbE |].
    rewrite <- bpow_add. Lra.lra. }
  assert (Hm'le : IZR m' <= bpow prec - 1).
  { rewrite bpow_IZR by lia. rewrite <- minus_IZR. apply IZR_le. lia. }
  destruct (round_nearest_even_range _ _ _ _ Hin') as (Hrange & Hup & Hdown).
  fold m1 in Hrange, Hup, Hdown.
  assert (Hnear : forall g, rep g -> Rabs (IZR m1 * bpow E - x) <= Rabs (g - x)).
  { apply nearest_rep with (E := E); auto.
    intros k. apply round_nearest_even_ok. exact Hin'. }
  assert (Hm1ge : (emin < E)%Z -> (2 ^ (prec - 1) <= m1)%Z).
  { intros HE. specialize (Hxge HE).
    assert (bpow (prec - 1) < IZR m' + 1).
    { apply Rmult_lt_reg_r with (bpow E); [exact HbE |]. rewrite <- bpow_add.
      replace (prec - 1 + E)%Z with (E + prec - 1)%Z by lia. Lra.lra. }
    rewrite bpow_IZR in H by lia. rewrite <- plus_IZR in H. apply lt_IZR in H. lia. }
  (* without a carry, [x] is below [(2^prec - 1/2) 2^E] *)
  assert (Hxlt' : (m1 < 2 ^ prec)%Z -> x < (bpow prec - /2) * bpow E).
  { intros Hlt. destruct (Z.eq_dec m1 m') as [Hsame | Hdiff].
    - destruct (Hdown Hsame) as [Hs | [Hs Hev]].
      + assert ((IZR m' + /2) * bpow E <= (bpow prec - /2) * bpow E)
          by (apply Rmult_le_compat_r; Lra.lra). Lra.lra.
      + assert (Hne : m' <> (2 ^ prec - 1)%Z).
        { intros Heq. rewrite Heq, even_pow2_pred in Hev. discriminate Hev. }
        assert (IZR m' <= bpow prec - 2).
        { rewrite bpow_IZR by lia. rewrite <- minus_IZR. apply IZR_le. lia. }
        assert ((IZR m' + /2) * bpow E <= (bpow prec - 2 + /2) * bpow E)
          by (apply Rmult_le_compat_r; Lra.lra). Lra.lra.
    - assert (Heq : m1 = (m' + 1)%Z) by lia.
      assert (IZR m' + 1 <= bpow prec - 1).
      { rewrite bpow_IZR by lia. rewrite <- minus_IZR, <- plus_IZR. apply IZR_le. lia. }
      assert ((IZR m' + 1) * bpow E <= (bpow prec - 1) * bpow E)
        by (apply Rmult_le_compat_r; Lra.lra). Lra.lra. }
  destruct (@shr_fexp_exact m1 E ltac:(lia) HEmin) as [(Hlt & Hs & He) | (Heq & Hs & He)];
    destruct (shr_fexp prec emax m1 E loc_Exact) as [mrs'' e''] eqn:E2;
    cbn [fst snd] in Hs, He; rewrite Hs; subst e''.
  - (* no carry *)
    specialize (Hxlt' Hlt).
    destruct m1 as [| p | p] eqn:Em1; [| | lia].
    + split; [reflexivity |]. split.
      * assert (HE : E = emin).
        { destruct (Z_le_gt_dec E emin) as [Hle | Hgt]; [lia |].
          exfalso. assert (HE : (emin < E)%Z) by lia. specialize (Hm1ge HE).
          assert (0 < 2 ^ (prec - 1))%Z by (apply Z.pow_pos_nonneg; lia). lia. }
        apply below_threshold with (E := E); [rewrite HE, emin_eq; lia | exact Hxlt'].
      * intros g Hg. specialize (Hnear g Hg).
        replace (IZR 0 * bpow E - x) with (- x) in Hnear by (simpl; ring).
        rewrite Rabs_Ropp, Rabs_pos_eq in Hnear by Lra.lra. exact Hnear.
    + destruct (E <=? emax - prec)%Z eqn:Ele.
      * apply Z.leb_le in Ele. split; [reflexivity |].
        split; [now apply below_threshold with (E := E) |].
        split; [| exact Hnear].
        unfold SpecFloat.bounded, canonical_mantissa. apply andb_true_intro. split.
        -- apply Z.eqb_eq. change (Z.pos (digits2_pos p)) with (Zdigits2 (Z.pos p)).
           assert (Hdp : (Zdigits2 (Z.pos p) <= prec)%Z) by (apply Zdigits2_le; lia).
           rewrite fexp_eq. destruct (Z_le_gt_dec E emin) as [HEle | HEgt]; [lia |].
           assert ((prec <= Zdigits2 (Z.pos p))%Z).
           { apply Zdigits2_ge; [lia |]. apply Hm1ge. lia. }
           lia.
        -- now apply Z.leb_le.
      * apply Z.leb_gt in Ele. split; [reflexivity |].
        assert (HE : (emin < E)%Z) by (rewrite emin_eq in *; lia).
        specialize (Hxge HE). unfold overflow_threshold.
        assert (bpow prec * bpow (emax - prec) <= bpow (E + prec - 1)).
        { rewrite <- bpow_add. apply bpow_le. lia. }
        pose proof (bpow_pos (emax - prec)). Lra.nra.
  - (* carry *)
    assert (Hpos : (0 < 2 ^ (prec - 1))%Z) by (apply Z.pow_pos_nonneg; lia).
    destruct (2 ^ (prec - 1))%Z as [| p | p] eqn:Ep; [lia | | lia].
    assert (Hval : IZR (Z.pos p) * bpow (E + 1) = IZR m1 * bpow E).
    { rewrite bpow_succ, Heq, <- Ep.
      replace prec with (prec - 1 + 1)%Z at 2 by lia. rewrite Z.pow_add_r by lia.
      rewrite mult_IZR. change (IZR (2 ^ 1)) with 2. ring. }
    destruct (E + 1 <=? emax - prec)%Z eqn:Ele.
    + apply Z.leb_le in Ele. split; [reflexivity |]. split; [| split].
      * apply below_threshold with (E := (E + 1)%Z); [exact Ele |].
        rewrite bpow_succ. rewrite bpow_add in Hxlt. Lra.nra.
      * unfold SpecFloat.bounded, canonical_mantissa. apply andb_true_intro. split.
        -- apply Z.eqb_eq. change (Z.pos (digits2_pos p)) with (Zdigits2 (Z.pos p)).
           assert (Hdp : Zdigits2 (Z.pos p) = prec).
           { apply Z.le_antisymm.
             - apply Zdigits2_le; [lia | lia |]. rewrite <- Ep.
               apply Z.pow_lt_mono_r; lia.
             - apply Zdigits2_ge; [lia |]. lia. }
           rewrite Hdp, fexp_eq. lia.
        -- now apply Z.leb_le.
      * intros g Hg. rewrite Hval. now apply Hnear.
    + apply Z.leb_gt in Ele. split; [reflexivity |].
      assert (Hm'eq : m1 = (m' + 1)%Z) by lia.
      specialize (Hup Hm'eq).
      assert (IZR m' = bpow prec - 1).
      { rewrite bpow_IZR by lia. rewrite <- minus_IZR. f_equal. lia. }
      rewrite H in Hup. unfold overflow_threshold.
      assert (bpow (emax - prec) <= bpow E) by (apply bpow_le; lia).
      assert ((bpow prec - /2) * bpow (emax - prec) <= (bpow prec - /2) * bpow E)
        by (apply Rmult_le_compat_l; Lra.lra).
      replace (bpow prec - 1 + / 2) with (bpow prec - /2) in Hup by Lra.lra. Lra.lra.
Qed.





Lemma threshold_pos : 0 < T.
Proof.
  unfold overflow_threshold. pose proof (bpow_prec_ge_2).
  pose proof (bpow_pos (emax - prec)). apply Rmult_lt_0_compat; Lra.lra.
Qed.

Lemma binary_round_aux_rounds (sx : bool) (m e : Z) (l : location) (x : R) :
  (0 <= m)%Z -> 0 < x -> inb m e l x -> (e <= fexp (Zdigits2 m + e))%Z ->
  rounds_to (if sx then - x else x) (binary_round_aux prec emax sx m e l).
Proof.
  intros Hm Hx Hin Hal. pose proof threshold_pos as HT.
  pose proof (binary_round_aux_ok sx m e l x Hm Hx Hin Hal) as H.
  destruct (binary_round_aux prec emax sx m e l) as [s | s | | s m' e'].
  - destruct H as (-> & Hlt & H). split; [reflexivity |].
    split; [destruct sx; Lra.lra |]. intros g Hg. cbn [SF2R].
    destruct sx.
    + apply (rep_opp) in Hg. specialize (H _ Hg).
      replace (0 - - x) with x by ring.
      replace (g - - x) with (- (- g - x)) by ring. rewrite Rabs_Ropp.
      rewrite (Rabs_pos_eq x); [exact H | Lra.lra].
    + replace (0 - x) with (- x) by ring. rewrite Rabs_Ropp.
      rewrite Rabs_pos_eq; [auto | Lra.lra].
  - destruct H as [-> H]. split; [reflexivity |]. destruct sx; Lra.lra.
  - contradiction.
  - destruct H as (-> & Hlt & Hb & H). split; [exact Hb |].
    split; [destruct sx; Lra.lra |]. intros g Hg. cbn [SF2R].
    destruct sx; cbn [cond_Zopp].
    + apply (rep_opp) in Hg. specialize (H _ Hg).
      change (Z.opp (Z.pos m')) with (- Z.pos m')%Z. rewrite opp_IZR.
      replace (- IZR (Z.pos m') * bpow e' - - x) with (- (IZR (Z.pos m') * bpow e' - x)) by ring.
      replace (g - - x) with (- (- g - x)) by ring. now rewrite !Rabs_Ropp.
    + auto.
Qed.

Lemma binary_round_rounds sx (mx : positive) ex :
  rounds_to (IZR (cond_Zopp sx (Zpos mx)) * bpow ex) (binary_round prec emax sx mx ex).
Proof.
  unfold binary_round.
  destruct (shl_align_ok mx ex (fexp (Zpos (digits2_pos mx) + ex))) as (Hv & Hd & He).
  destruct (shl_align mx ex (fexp (Z.pos (digits2_pos mx) + ex))) as [mz ez].
  cbn [fst snd] in *.
  assert (Hx : 0 < IZR (Zpos mx) * bpow ex).
  { apply Rmult_lt_0_compat; [apply IZR_lt; lia | apply bpow_pos]. }
  replace (IZR (cond_Zopp sx (Z.pos mx)) * bpow ex)
    with (if sx then - (IZR (Zpos mx) * bpow ex) else IZR (Zpos mx) * bpow ex).
  2:{ destruct sx; cbn [cond_Zopp]; [| reflexivity].
      change (Z.opp (Z.pos mx)) with (- Z.pos mx)%Z. rewrite opp_IZR. ring. }
  apply binary_round_aux_rounds; [lia | exact Hx | cbn [inb]; symmetry; exact Hv |].
  cbn [Zdigits2]. rewrite Hd. lia.
Qed.

(** The finite numbers of the format are below the threshold, and are
    numbers of the format. *)
Lemma bounded_lt_threshold (m : positive) (e : Z) :
  SpecFloat.bounded prec emax m e = true -> IZR (Zpos m) * bpow e < T.
Proof.
  unfold SpecFloat.bounded, canonical_mantissa. intros H. apply andb_prop in H. destruct H as [H1 H2].
  apply Z.eqb_eq in H1. apply Z.leb_le in H2. rewrite fexp_eq in H1.
  pose proof (digits2_pos_bounds m) as [_ Hm].
  assert (Hd : (Zpos (digits2_pos m) <= prec)%Z) by lia.
  assert (Hlt : (Zpos m < 2 ^ prec)%Z).
  { apply Z.lt_le_trans with (2 ^ Zpos (digits2_pos m))%Z; [exact Hm |].
    apply Z.pow_le_mono_r; lia. }
  assert (IZR (Zpos m) <= bpow prec - 1).
  { rewrite bpow_IZR by lia. rewrite <- minus_IZR. apply IZR_le. lia. }
  apply below_threshold with (E := e); [exact H2 |].
  pose proof (bpow_pos e).
  assert (IZR (Zpos m) * bpow e <= (bpow prec - 1) * bpow e)
    by (apply Rmult_le_compat_r; Lra.lra).
  Lra.lra.
Qed.

Lemma valid_lt_threshold (f : spec_float) :
  SpecFloat.valid_binary prec emax f = true -> - T < SF2R f < T.
Proof.
  intros Hv. pose proof threshold_pos as HT.
  destruct f as [s | s | | s m e]; cbn [SF2R]; try Lra.lra.
  pose proof (bounded_lt_threshold m e Hv) as H.
  assert (0 < IZR (Zpos m) * bpow e).
  { apply Rmult_lt_0_compat; [apply IZR_lt; lia | apply bpow_pos]. }
  destruct s; cbn [cond_Zopp].
  - change (Z.opp (Z.pos m)) with (- Z.pos m)%Z. rewrite opp_IZR. Lra.lra.
  - Lra.lra.
Qed.

Lemma valid_rep (f : spec_float) :
  SpecFloat.valid_binary prec emax f = true -> rep (SF2R f).
Proof.
  intros Hv. destruct f as [s | s | | s m e]; cbn [SF2R];
    try (exists 0%Z, emin; repeat split; [simpl; ring | apply Z.pow_pos_nonneg; lia | lia]).
  cbn [SpecFloat.valid_binary] in Hv.
  unfold SpecFloat.bounded, canonical_mantissa in Hv. apply andb_prop in Hv. destruct Hv as [H1 H2].
  apply Z.eqb_eq in H1. apply Z.leb_le in H2. rewrite fexp_eq in H1.
  pose proof (digits2_pos_bounds m) as [_ Hm].
  assert (Hlt : (Zpos m < 2 ^ prec)%Z).
  { apply Z.lt_le_trans with (2 ^ Zpos (digits2_pos m))%Z; [exact Hm |].
    apply Z.pow_le_mono_r; lia. }
  exists (cond_Zopp s (Zpos m)), e. repeat split; [| lia].
  destruct s; cbn [cond_Zopp]; lia.
Qed.

Lemma rounds_to_exact (f : spec_float) :
  SpecFloat.valid_binary prec emax f = true -> spec_finite f = true -> rounds_to (SF2R f) f.
Proof.
  intros Hv Hf. split; [exact Hv |]. pose proof (valid_lt_threshold f Hv) as HT.
  destruct f; try discriminate Hf; (split; [exact HT |]); intros g Hg;
    replace (_ - _) with 0 by ring; rewrite Rabs_R0; apply Rabs_pos.
Qed.

Lemma binary_normalize_rounds m e szero :
  rounds_to (IZR m * bpow e) (binary_normalize prec emax m e szero).
Proof.
  destruct m as [| p | p]; cbn [binary_normalize].
  - replace (IZR 0 * bpow e) with (SF2R (S754_zero szero)) by (simpl; ring).
    now apply rounds_to_exact.
  - apply (binary_round_rounds false).
  - apply (binary_round_rounds true).
Qed.




Lemma bounded_inv (m : positive) (e : Z) :
  SpecFloat.bounded prec emax m e = true ->
  (emin <= e <= emax - prec)%Z /\ (Zpos (digits2_pos m) <= prec)%Z /\
  ((emin < e)%Z -> Zpos (digits2_pos m) = prec).
Proof.
  unfold SpecFloat.bounded, canonical_mantissa. intros H. apply andb_prop in H. destruct H as [H1 H2].
  apply Z.eqb_eq in H1. apply Z.leb_le in H2. rewrite fexp_eq in H1. lia.
Qed.

(** The four operations round the exact result. *)
Lemma SFadd_rounds (x y : spec_float) :
  valid x = true -> valid y = true -> spec_finite x = true -> spec_finite y = true ->
  rounds_to (SF2R x + SF2R y) (SFadd prec emax x y).
Proof.
  intros Hvx Hvy Hfx Hfy.
  destruct x as [sx | sx | | sx mx ex]; try discriminate Hfx;
    destruct y as [sy | sy | | sy my ey]; try discriminate Hfy.
  - replace (SF2R (S754_zero sx) + SF2R (S754_zero sy)) with 0 by (simpl; ring).
    destruct sx, sy; cbn [SFadd]; apply rounds_to_exact; try assumption; reflexivity.
  - replace (SF2R (S754_zero sx) + SF2R (S754_finite sy my ey))
      with (SF2R (S754_finite sy my ey)) by (simpl; ring).
    cbn [SFadd]. now apply rounds_to_exact.
  - replace (SF2R (S754_finite sx mx ex) + SF2R (S754_zero sy))
      with (SF2R (S754_finite sx mx ex)) by (simpl; ring).
    cbn [SFadd]. now apply rounds_to_exact.
  - cbn [SFadd].
    destruct (shl_align_ok mx ex (Z.min ex ey)) as (Hx & _ & Hex).
    destruct (shl_align_ok my ey (Z.min ex ey)) as (Hy & _ & Hey).
    replace (Z.min ex (Z.min ex ey)) with (Z.min ex ey) in Hex by lia.
    replace (Z.min ey (Z.min ex ey)) with (Z.min ex ey) in Hey by lia.
    rewrite Hex in Hx. rewrite Hey in Hy.
    match goal with |- rounds_to ?X (binary_normalize _ _ ?m ?e ?s) =>
      replace X with (IZR m * bpow e); [apply binary_normalize_rounds; assumption |] end.
    rewrite plus_IZR, !IZR_cond_Zopp. cbn [SF2R]. rewrite !IZR_cond_Zopp.
    destruct sx, sy; Lra.lra.
Qed.

Lemma SFsub_rounds (x y : spec_float) :
  valid x = true -> valid y = true -> spec_finite x = true -> spec_finite y = true ->
  rounds_to (SF2R x - SF2R y) (SFsub prec emax x y).
Proof.
  intros Hvx Hvy Hfx Hfy.
  destruct x as [sx | sx | | sx mx ex]; try discriminate Hfx;
    destruct y as [sy | sy | | sy my ey]; try discriminate Hfy.
  - replace (SF2R (S754_zero sx) - SF2R (S754_zero sy)) with 0 by (simpl; ring).
    destruct sx, sy; cbn [SFsub]; apply rounds_to_exact; try assumption; reflexivity.
  - replace (SF2R (S754_zero sx) - SF2R (S754_finite sy my ey))
      with (SF2R (S754_finite (negb sy) my ey)).
    + cbn [SFsub]. now apply rounds_to_exact.
    + cbn [SF2R]. rewrite !IZR_cond_Zopp. destruct sy; simpl; ring.
  - replace (SF2R (S754_finite sx mx ex) - SF2R (S754_zero sy))
      with (SF2R (S754_finite sx mx ex)) by (simpl; ring).
    cbn [SFsub]. now apply rounds_to_exact.
  - cbn [SFsub].
    destruct (shl_align_ok mx ex (Z.min ex ey)) as (Hx & _ & Hex).
    destruct (shl_align_ok my ey (Z.min ex ey)) as (Hy & _ & Hey).
    replace (Z.min ex (Z.min ex ey)) with (Z.min ex ey) in Hex by lia.
    replace (Z.min ey (Z.min ex ey)) with (Z.min ex ey) in Hey by lia.
    rewrite Hex in Hx. rewrite Hey in Hy.
    match goal with |- rounds_to ?X (binary_normalize _ _ ?m ?e ?s) =>
      replace X with (IZR m * bpow e); [apply binary_normalize_rounds; assumption |] end.
    rewrite minus_IZR, !IZR_cond_Zopp. cbn [SF2R]. rewrite !IZR_cond_Zopp.
    destruct sx, sy; Lra.lra.
Qed.

Lemma emin_nonpos : (emin <= 0)%Z.
Proof. rewrite emin_eq. lia. Qed.

Lemma SFmul_rounds (x y : spec_float) :
  valid x = true -> valid y = true -> spec_finite x = true -> spec_finite y = true ->
  rounds_to (SF2R x * SF2R y) (SFmul prec emax x y).
Proof.
  intros Hvx Hvy Hfx Hfy.
  destruct x as [sx | sx | | sx mx ex]; try discriminate Hfx;
    destruct y as [sy | sy | | sy my ey]; try discriminate Hfy;
    try (match goal with |- rounds_to ?X _ => replace X with 0 by (simpl; ring) end;
         cbn [SFmul]; apply rounds_to_exact; try assumption; reflexivity).
  cbn [SFmul].
  destruct (bounded_inv mx ex Hvx) as (Hex & Hdx & Hcx).
  destruct (bounded_inv my ey Hvy) as (Hey & Hdy & Hcy).
  pose proof (digits2_pos_bounds mx) as [Hmx _].
  pose proof (digits2_pos_bounds my) as [Hmy _].
  pose proof emin_nonpos as Hemin.
  replace (SF2R (S754_finite sx mx ex) * SF2R (S754_finite sy my ey))
    with (if xorb sx sy then - (IZR (Zpos (mx * my)) * bpow (ex + ey))
          else IZR (Zpos (mx * my)) * bpow (ex + ey)).
  2:{ cbn [SF2R]. rewrite !IZR_cond_Zopp, Pos2Z.inj_mul, mult_IZR, bpow_add.
      destruct sx, sy; simpl; ring. }
  apply binary_round_aux_rounds; try assumption.
  - lia.
  - apply Rmult_lt_0_compat; [apply IZR_lt; lia | apply bpow_pos].
  - reflexivity.
  - cbn [Zdigits2]. rewrite fexp_eq.
    assert (Hd : (Zpos (digits2_pos mx) + Zpos (digits2_pos my) - 1
                  <= Zdigits2 (Zpos (mx * my)))%Z).
    { apply Zdigits2_ge; [lia |]. rewrite Pos2Z.inj_mul.
      replace (Z.pos (digits2_pos mx) + Z.pos (digits2_pos my) - 1 - 1)%Z
        with ((Z.pos (digits2_pos mx) - 1) + (Z.pos (digits2_pos my) - 1))%Z by lia.
      rewrite Z.pow_add_r by lia.
      apply Z.mul_le_mono_nonneg; try lia; apply Z.pow_nonneg; lia. }
    cbn [Zdigits2] in Hd.
    destruct (Z_le_gt_dec ex emin), (Z_le_gt_dec ey emin); lia.
Qed.

(** The quotient of the mantissas, with the place of the exact quotient
    read off the remainder. *)
Lemma SFdiv_core_binary_ok (m1 m2 : positive) (e1 e2 : Z) :
  let '(q, e', l) := SFdiv_core_binary prec emax (Zpos m1) e1 (Zpos m2) e2 in
  (0 <= q)%Z /\
  inb q e' l (IZR (Zpos m1) * bpow e1 / (IZR (Zpos m2) * bpow e2)) /\
  (e' <= fexp (Zdigits2 q + e'))%Z.
Proof.
  unfold SFdiv_core_binary.
  set (d1 := Zdigits2 (Zpos m1)). set (d2 := Zdigits2 (Zpos m2)).
  set (e' := Z.min (fexp (d1 + e1 - (d2 + e2))) (e1 - e2)).
  set (s := (e1 - e2 - e')%Z).
  assert (Hs : (0 <= s)%Z) by (unfold s, e'; lia).
  set (m' := match s with Zpos _ => Z.shiftl (Zpos m1) s | Z0 => Zpos m1 | Zneg _ => 0%Z end).
  assert (Hm' : m' = (Zpos m1 * 2 ^ s)%Z).
  { unfold m'. destruct s as [| p | p]; [lia | | lia]. now rewrite Z.shiftl_mul_pow2 by lia. }
  clearbody m'.
  pose proof (Z_div_mod m' (Zpos m2) ltac:(lia)) as Hdiv.
  destruct (Z.div_eucl m' (Zpos m2)) as [q r]. destruct Hdiv as [Hqr Hr].
  assert (Hpow : (0 < 2 ^ s)%Z) by (apply Z.pow_pos_nonneg; lia).
  assert (Hq : (0 <= q)%Z) by nia.
  split; [exact Hq |].
  pose proof (bpow_pos e') as Hb. pose proof (bpow_pos e1) as Hb1. pose proof (bpow_pos e2) as Hb2.
  assert (HM2 : 0 < IZR (Zpos m2)) by (apply IZR_lt; lia).
  assert (HX : IZR (Zpos m1) * bpow e1 / (IZR (Zpos m2) * bpow e2)
               = (IZR q + IZR r / IZR (Zpos m2)) * bpow e').
  { assert (E1 : bpow e1 = bpow s * bpow e' * bpow e2).
    { rewrite <- !bpow_add. f_equal. unfold s. lia. }
    assert (E2 : IZR (Zpos m1) * bpow s = IZR (Zpos m2) * IZR q + IZR r).
    { rewrite bpow_IZR by lia. rewrite <- !mult_IZR, <- plus_IZR. f_equal. lia. }
    rewrite E1. field_simplify; [| Lra.lra | Lra.lra].
    replace (IZR (Z.pos m1) * bpow s * bpow e') with ((IZR (Z.pos m1) * bpow s) * bpow e') by ring.
    rewrite E2. field. Lra.lra. }
  split.
  - rewrite HX. pose proof (new_location_ok (Zpos m2) r Hr) as Hl.
    set (rho := IZR r / IZR (Zpos m2)).
    assert (Hrho : rho * IZR (Zpos m2) = IZR r) by (unfold rho; field; Lra.lra).
    destruct (new_location (Zpos m2) r) as [| [| |]]; cbn [inb].
    + subst r. unfold rho. replace (IZR 0 / IZR (Z.pos m2)) with 0 by (field; Lra.lra). ring.
    + assert (rho = / 2).
      { apply Rmult_eq_reg_r with (IZR (Zpos m2)); [| Lra.lra]. rewrite Hrho, <- Hl, mult_IZR. field. }
      rewrite H. reflexivity.
    + destruct Hl as [Hl0 Hl].
      assert (0 < rho).
      { apply Rmult_lt_reg_r with (IZR (Zpos m2)); [Lra.lra |]. rewrite Hrho, Rmult_0_l.
        apply IZR_lt. lia. }
      assert (rho < / 2).
      { apply Rmult_lt_reg_r with (IZR (Zpos m2)); [Lra.lra |]. rewrite Hrho.
        apply IZR_lt in Hl. rewrite mult_IZR in Hl. Lra.lra. }
      split; apply Rmult_lt_compat_r; Lra.lra.
    + assert (/ 2 < rho).
      { apply Rmult_lt_reg_r with (IZR (Zpos m2)); [Lra.lra |]. rewrite Hrho.
        apply IZR_lt in Hl. rewrite mult_IZR in Hl. Lra.lra. }
      assert (rho < 1).
      { apply Rmult_lt_reg_r with (IZR (Zpos m2)); [Lra.lra |]. rewrite Hrho, Rmult_1_l.
        apply IZR_lt. lia. }
      split; apply Rmult_lt_compat_r; Lra.lra.
  - rewrite fexp_eq. destruct (Z_le_gt_dec e' emin) as [Hle | Hgt]; [lia |].
    assert (HF : (e' <= d1 + e1 - (d2 + e2) - prec)%Z).
    { unfold e' in *. rewrite fexp_eq in *. lia. }
    assert (Hs' : (d2 - d1 + prec <= s)%Z) by (unfold s; lia).
    pose proof (digits2_pos_bounds m1) as [Hm1 _].
    pose proof (digits2_pos_bounds m2) as [_ Hm2].
    fold (Zdigits2 (Zpos m1)) in Hm1. fold (Zdigits2 (Zpos m2)) in Hm2.
    fold d1 in Hm1. fold d2 in Hm2.
    assert (Hd1 : (0 < d1)%Z) by (unfold d1; simpl; lia).
    assert (Hd2 : (0 < d2)%Z) by (unfold d2; simpl; lia).
    assert (Hbig : (2 ^ (prec - 1) * 2 ^ d2 <= m')%Z).
    { rewrite Hm', <- Z.pow_add_r by lia.
      apply Z.le_trans with (2 ^ (d1 - 1 + s))%Z; [apply Z.pow_le_mono_r; lia |].
      rewrite Z.pow_add_r by lia.
      apply Z.mul_le_mono_nonneg_r; lia. }
    assert (Hq1 : (2 ^ (prec - 1) <= q)%Z).
    { assert (Hp : (0 < 2 ^ (prec - 1))%Z) by (apply Z.pow_pos_nonneg; lia).
      destruct (Z_le_gt_dec (2 ^ (prec - 1)) q) as [Hok | Hbad]; [exact Hok |].
      exfalso. assert ((q + 1) <= 2 ^ (prec - 1))%Z by lia.
      assert ((q + 1) * Zpos m2 <= 2 ^ (prec - 1) * Zpos m2)%Z by (apply Z.mul_le_mono_nonneg_r; lia).
      assert (2 ^ (prec - 1) * Zpos m2 < 2 ^ (prec - 1) * 2 ^ d2)%Z by (apply Z.mul_lt_mono_pos_l; lia).
      lia. }
    assert (Hdq : (prec <= Zdigits2 q)%Z).
    { apply Zdigits2_ge; [| exact Hq1].
      assert (0 < 2 ^ (prec - 1))%Z by (apply Z.pow_pos_nonneg; lia). lia. }
    lia.
Qed.

Lemma SFdiv_rounds (x y : spec_float) :
  valid x = true -> valid y = true -> spec_finite x = true ->
  (exists s m e, y = S754_finite s m e) ->
  rounds_to (SF2R x / SF2R y) (SFdiv prec emax x y).
Proof.
  intros Hvx Hvy Hfx (sy & my & ey & ->).
  destruct x as [sx | sx | | sx mx ex]; try discriminate Hfx.
  - replace (SF2R (S754_zero sx) / SF2R (S754_finite sy my ey)) with 0.
    + cbn [SFdiv]. apply rounds_to_exact; try assumption; reflexivity.
    + cbn [SF2R]. unfold Rdiv. ring.
  - cbn [SFdiv].
    pose proof (SFdiv_core_binary_ok mx my ex ey) as H.
    destruct (SFdiv_core_binary prec emax (Z.pos mx) ex (Z.pos my) ey) as [[q e'] l].
    destruct H as (Hq & Hin & Hal).
    pose proof (bpow_pos ex). pose proof (bpow_pos ey).
    assert (0 < IZR (Zpos mx)) by (apply IZR_lt; lia).
    assert (0 < IZR (Zpos my)) by (apply IZR_lt; lia).
    replace (SF2R (S754_finite sx mx ex) / SF2R (S754_finite sy my ey))
      with (if xorb sx sy then - (IZR (Zpos mx) * bpow ex / (IZR (Zpos my) * bpow ey))
            else IZR (Zpos mx) * bpow ex / (IZR (Zpos my) * bpow ey)).
    2:{ cbn [SF2R]. rewrite !IZR_cond_Zopp. destruct sx, sy; simpl; field; repeat split; Lra.lra. }
    apply binary_round_aux_rounds; try assumption.
    apply Rdiv_lt_0_compat; apply Rmult_lt_0_compat; assumption.
Qed.




Lemma rounds_to_valid X r : rounds_to X r -> valid r = true.
Proof. intros [H _]. exact H. Qed.

Lemma rounds_to_finite X r : rounds_to X r -> - T < X < T -> spec_finite r = true.
Proof.
  intros [_ H] HX. destruct r as [s | [|] | | s m e]; try reflexivity; try contradiction; Lra.lra.
Qed.

Lemma rounds_to_nearest X r :
  rounds_to X r -> spec_finite r = true ->
  forall g, rep g -> Rabs (SF2R r - X) <= Rabs (g - X).
Proof.
  intros [_ H] Hf. destruct r as [s | [|] | | s m e]; try discriminate Hf; apply H.
Qed.

Lemma rounds_to_threshold X r :
  rounds_to X r -> spec_finite r = true -> - T < X < T.
Proof.
  intros [_ H] Hf. destruct r as [s | [|] | | s m e]; try discriminate Hf; apply H.
Qed.

(** Rounding keeps a real within bounds of the format. *)
Lemma rounds_to_ge X r g :
  rounds_to X r -> spec_finite r = true -> rep g -> g <= X -> g <= SF2R r.
Proof.
  intros Hr Hf Hg Hle. pose proof (rounds_to_nearest X r Hr Hf g Hg) as H.
  revert H. unfold Rabs. repeat destruct Rcase_abs; Lra.lra.
Qed.

Lemma rounds_to_le X r g :
  rounds_to X r -> spec_finite r = true -> rep g -> X <= g -> SF2R r <= g.
Proof.
  intros Hr Hf Hg Hle. pose proof (rounds_to_nearest X r Hr Hf g Hg) as H.
  revert H. unfold Rabs. repeat destruct Rcase_abs; Lra.lra.
Qed.

Lemma rounds_to_eq X r :
  rounds_to X r -> spec_finite r = true -> rep X -> SF2R r = X.
Proof.
  intros Hr Hf HX. apply Rle_antisym.
  - apply (rounds_to_le X r X Hr Hf HX). Lra.lra.
  - apply (rounds_to_ge X r X Hr Hf HX). Lra.lra.
Qed.

(** Rounding to nearest is monotone. *)
Lemma rounds_to_mono X r X' r' :
  rounds_to X r -> rounds_to X' r' -> spec_finite r = true -> spec_finite r' = true ->
  X < X' -> SF2R r <= SF2R r'.
Proof.
  intros Hr Hr' Hf Hf' Hlt.
  pose proof (rounds_to_nearest X r Hr Hf (SF2R r')
                (valid_rep r' (rounds_to_valid X' r' Hr'))) as H1.
  pose proof (rounds_to_nearest X' r' Hr' Hf' (SF2R r)
                (valid_rep r (rounds_to_valid X r Hr))) as H2.
  revert H1 H2. unfold Rabs. repeat destruct Rcase_abs; Lra.lra.
Qed.

(** Order of the finite floats. *)
Lemma finite_pos (m : positive) (e : Z) : 0 < IZR (Zpos m) * bpow e.
Proof. apply Rmult_lt_0_compat; [apply IZR_lt; lia | apply bpow_pos]. Qed.

Lemma canonical_lt (m1 m2 : positive) (e1 e2 : Z) :
  SpecFloat.bounded prec emax m1 e1 = true -> SpecFloat.bounded prec emax m2 e2 = true ->
  (e1 < e2)%Z -> IZR (Zpos m1) * bpow e1 < IZR (Zpos m2) * bpow e2.
Proof.
  intros H1 H2 He.
  destruct (bounded_inv m1 e1 H1) as (He1 & Hd1 & _).
  destruct (bounded_inv m2 e2 H2) as (He2 & _ & Hc2).
  assert (Hd2 : Zpos (digits2_pos m2) = prec) by (apply Hc2; lia).
  pose proof (digits2_bpow m1) as [_ Hm1]. pose proof (digits2_bpow m2) as [Hm2 _].
  rewrite Hd2 in Hm2.
  assert (bpow (Zpos (digits2_pos m1)) <= bpow prec) by (apply bpow_le; lia).
  pose proof (bpow_pos e1). pose proof (bpow_pos e2).
  assert (IZR (Zpos m1) * bpow e1 < bpow prec * bpow e1)
    by (apply Rmult_lt_compat_r; Lra.lra).
  assert (bpow (prec - 1) * bpow e2 <= IZR (Zpos m2) * bpow e2)
    by (apply Rmult_le_compat_r; Lra.lra).
  rewrite <- bpow_add in *.
  assert (bpow (prec + e1) <= bpow (prec - 1 + e2)) by (apply bpow_le; lia).
  Lra.lra.
Qed.

(** The comparison of finite floats is that of the reals they stand for. *)
Lemma SFcompare_spec (x y : spec_float) :
  valid x = true -> valid y = true -> spec_finite x = true -> spec_finite y = true ->
  match SFcompare x y with
  | Some Lt => SF2R x < SF2R y
  | Some Eq => SF2R x = SF2R y
  | Some Gt => SF2R y < SF2R x
  | None => False
  end.
Proof.
  intros Hvx Hvy Hfx Hfy.
  destruct x as [sx | sx | | sx mx ex]; try discriminate Hfx;
    destruct y as [sy | sy | | sy my ey]; try discriminate Hfy;
    cbn [SFcompare SF2R SpecFloat.valid_binary] in *; rewrite ?IZR_cond_Zopp.
  - reflexivity.
  - pose proof (finite_pos my ey). destruct sy; Lra.lra.
  - pose proof (finite_pos mx ex). destruct sx; Lra.lra.
  - pose proof (finite_pos mx ex). pose proof (finite_pos my ey).
    destruct sx, sy; try Lra.lra.
    + destruct (Z.compare_spec ex ey) as [-> | Hlt | Hgt].
      * change (Pos.compare_cont Eq mx my) with (Pos.compare mx my).
        pose proof (bpow_pos ey).
        destruct (Pos.compare_spec mx my) as [-> | Hm | Hm]; cbn [CompOpp]; try reflexivity.
        -- assert (IZR (Zpos mx) * bpow ey < IZR (Zpos my) * bpow ey)
             by (apply Rmult_lt_compat_r; [Lra.lra | apply IZR_lt; lia]). Lra.lra.
        -- assert (IZR (Zpos my) * bpow ey < IZR (Zpos mx) * bpow ey)
             by (apply Rmult_lt_compat_r; [Lra.lra | apply IZR_lt; lia]). Lra.lra.
      * pose proof (canonical_lt mx my ex ey Hvx Hvy Hlt). Lra.lra.
      * pose proof (canonical_lt my mx ey ex Hvy Hvx Hgt). Lra.lra.
    + destruct (Z.compare_spec ex ey) as [-> | Hlt | Hgt].
      * change (Pos.compare_cont Eq mx my) with (Pos.compare mx my).
        pose proof (bpow_pos ey).
        destruct (Pos.compare_spec mx my) as [-> | Hm | Hm]; try reflexivity.
        -- apply Rmult_lt_compat_r; [Lra.lra | apply IZR_lt; lia].
        -- apply Rmult_lt_compat_r; [Lra.lra | apply IZR_lt; lia].
      * exact (canonical_lt mx my ex ey Hvx Hvy Hlt).
      * exact (canonical_lt my mx ey ex Hvy Hvx Hgt).
Qed.

Lemma SFltb_spec (x y : spec_float) :
  valid x = true -> valid y = true -> spec_finite x = true -> spec_finite y = true ->
  (SFltb x y = true <-> SF2R x < SF2R y).
Proof.
  intros Hvx Hvy Hfx Hfy. pose proof (SFcompare_spec x y Hvx Hvy Hfx Hfy) as H.
  unfold SFltb. destruct (SFcompare x y) as [[| |] |]; split; intros; try discriminate;
    try reflexivity; try Lra.lra; contradiction.
Qed.

Lemma SFleb_spec (x y : spec_float) :
  valid x = true -> valid y = true -> spec_finite x = true -> spec_finite y = true ->
  (SFleb x y = true <-> SF2R x <= SF2R y).
Proof.
  intros Hvx Hvy Hfx Hfy. pose proof (SFcompare_spec x y Hvx Hvy Hfx Hfy) as H.
  unfold SFleb. destruct (SFcompare x y) as [[| |] |]; split; intros; try discriminate;
    try reflexivity; try Lra.lra; contradiction.
Qed.

Lemma SFeqb_spec (x y : spec_float) :
  valid x = true -> valid y = true -> spec_finite x = true -> spec_finite y = true ->
  (SFeqb x y = true <-> SF2R x = SF2R y).
Proof.
  intros Hvx Hvy Hfx Hfy. pose proof (SFcompare_spec x y Hvx Hvy Hfx Hfy) as H.
  unfold SFeqb. destruct (SFcompare x y) as [[| |] |]; split; intros; try discriminate;
    try reflexivity; try Lra.lra; contradiction.
Qed.




(** Finite floats that stand for the same real are the same, up to the
    sign of zero. *)
Lemma SF2R_inj (x y : spec_float) :
  valid x = true -> valid y = true -> spec_finite x = true -> spec_finite y = true ->
  SF2R x = SF2R y -> same x y.
Proof.
  intros Hvx Hvy Hfx Hfy.
  destruct x as [sx | sx | | sx mx ex]; try discriminate Hfx;
    destruct y as [sy | sy | | sy my ey]; try discriminate Hfy;
    cbn [SF2R SpecFloat.valid_binary] in *; rewrite ?IZR_cond_Zopp; intros H.
  - right. eauto.
  - pose proof (finite_pos my ey). destruct sy; Lra.lra.
  - pose proof (finite_pos mx ex). destruct sx; Lra.lra.
  - left. pose proof (finite_pos mx ex). pose proof (finite_pos my ey).
    assert (Hs : sx = sy) by (destruct sx, sy; try reflexivity; Lra.lra).
    subst sy.
    assert (Hv : IZR (Zpos mx) * bpow ex = IZR (Zpos my) * bpow ey) by (destruct sx; Lra.lra).
    assert (He : ex = ey).
    { destruct (Z.lt_trichotomy ex ey) as [Hlt | [Heq | Hgt]]; [| exact Heq |].
      - pose proof (canonical_lt mx my ex ey Hvx Hvy Hlt). Lra.lra.
      - pose proof (canonical_lt my mx ey ex Hvy Hvx Hgt). Lra.lra. }
    subst ey. pose proof (bpow_pos ex).
    apply Rmult_eq_reg_r in Hv; [| Lra.lra]. apply eq_IZR in Hv. congruence.
Qed.

Lemma same_sub_l x x' y : same x x' -> same (SFsub prec emax x y) (SFsub prec emax x' y).
Proof.
  intros [-> | (s & s' & -> & ->)]; [apply same_refl |].
  destruct y as [sy | sy | | sy my ey]; cbn [SFsub]; try apply same_refl.
  right. destruct s, s', sy; eauto.
Qed.

Lemma same_div_l x x' y : same x x' -> same (SFdiv prec emax x y) (SFdiv prec emax x' y).
Proof.
  intros [-> | (s & s' & -> & ->)]; [apply same_refl |].
  destruct y as [sy | sy | | sy my ey]; cbn [SFdiv]; try apply same_refl; right; eauto.
Qed.

Lemma same_sub_r x y y' :
  (exists s m e, x = S754_finite s m e) ->
  same y y' -> same (SFsub prec emax x y) (SFsub prec emax x y').
Proof.
  intros (sx & mx & ex & ->) [-> | (s & s' & -> & ->)]; apply same_refl.
Qed.

Lemma same_mul_l x x' y :
  (exists s m e, y = S754_finite s m e) ->
  same x x' -> same (SFmul prec emax x y) (SFmul prec emax x' y).
Proof.
  intros (sy & my & ey & ->) [-> | (s & s' & -> & ->)]; [apply same_refl |].
  cbn [SFmul]. right. eauto.
Qed.

Lemma same_add_r x y y' :
  (exists s m e, x = S754_finite s m e) ->
  same y y' -> same (SFadd prec emax x y) (SFadd prec emax x y').
Proof.
  intros (sx & mx & ex & ->) [-> | (s & s' & -> & ->)]; apply same_refl.
Qed.




Lemma good_zero : good (S754_zero false).
Proof. split; reflexivity. Qed.

(** The result of rounding a real between two numbers of the format. *)
Lemma round_between (X : R) (r fa fb : spec_float) :
  rounds_to X r -> good fa -> good fb -> SF2R fa <= X <= SF2R fb ->
  good r /\ SF2R fa <= SF2R r <= SF2R fb.
Proof.
  intros Hr [Hva Hfa] [Hvb Hfb] [Ha Hb].
  pose proof (valid_lt_threshold fa Hva) as Hta.
  pose proof (valid_lt_threshold fb Hvb) as Htb.
  assert (Hf : spec_finite r = true) by (apply (rounds_to_finite X r Hr); Lra.lra).
  split; [split; [exact (rounds_to_valid X r Hr) | exact Hf] |]. split.
  - apply (rounds_to_ge X r _ Hr Hf); [now apply valid_rep | exact Ha].
  - apply (rounds_to_le X r _ Hr Hf); [now apply valid_rep | exact Hb].
Qed.

(** Two roundings of ordered reals are ordered. *)
Lemma round_mono (X1 X2 : R) (r1 r2 : spec_float) :
  rounds_to X1 r1 -> rounds_to X2 r2 -> spec_finite r1 = true -> spec_finite r2 = true ->
  X1 <= X2 -> (X1 = X2 -> same r1 r2) -> SF2R r1 <= SF2R r2.
Proof.
  intros H1 H2 Hf1 Hf2 Hle Heq. destruct (Rle_lt_or_eq_dec _ _ Hle) as [Hlt | He].
  - exact (rounds_to_mono X1 r1 X2 r2 H1 H2 Hf1 Hf2 Hlt).
  - rewrite (same_SF2R _ _ (Heq He)). Lra.lra.
Qed.

(** The constants of [depth_to_distance]: [1.0], [5.0] and [1e-8]; the
    factor [max_dist - min_dist] is their rounded difference, 4. *)
Variables one five eps : spec_float.
Hypothesis one_good : good one.
Hypothesis five_good : good five.
Hypothesis eps_good : good eps.
Hypothesis one_val : SF2R one = 1.
Hypothesis five_val : SF2R five = 5.
Hypothesis eps_pos : 0 < SF2R eps.

Local Notation "'four'" := (SFsub prec emax five one).
Local Notation "'norm'" := (norm_entry prec emax eps).
Local Notation "'dist'" := (dist_entry prec emax one five).

Lemma four_facts : good four /\ SF2R four = 4.
Proof.
  destruct one_good as [Hv1 Hf1]. destruct five_good as [Hv5 Hf5].
  pose proof (SFsub_rounds five one Hv5 Hv1 Hf5 Hf1) as H.
  destruct (round_between _ _ one five H one_good five_good) as [Hg _].
  { rewrite one_val, five_val. Lra.lra. }
  split; [exact Hg |].
  replace 4 with (SF2R five - SF2R one) by (rewrite one_val, five_val; Lra.lra).
  apply (rounds_to_eq _ _ H (proj2 Hg)).
  rewrite one_val, five_val. exists 1%Z, 2%Z. repeat split.
  - unfold bpow. simpl. Lra.lra.
  - apply Z.pow_gt_1; lia.
  - pose proof emin_nonpos. lia.
Qed.

Lemma four_good : good four.
Proof. apply four_facts. Qed.

Lemma four_val : SF2R four = 4.
Proof. apply four_facts. Qed.

Lemma one_finite : exists s m e, one = S754_finite s m e.
Proof. apply finite_nonzero; [apply one_good | rewrite one_val; Lra.lra]. Qed.

Lemma four_finite : exists s m e, four = S754_finite s m e.
Proof. apply finite_nonzero; [apply four_good | rewrite four_val; Lra.lra]. Qed.

(** From a normalized value in [0, 1] to a distance in [1, 5]. *)
Lemma dist_entry_bounds (n : spec_float) :
  good n -> 0 <= SF2R n <= 1 ->
  good (dist n) /\ 1 <= SF2R (dist n) <= 5 /\
  (SF2R n = 0 -> SF2R (dist n) = 5).
Proof.
  intros [Hvn Hfn] Hn. unfold dist_entry.
  destruct one_good as [Hv1 Hf1]. destruct four_good as [Hv4 Hf4].
  pose proof (SFsub_rounds one n Hv1 Hvn Hf1 Hfn) as Hu.
  set (u := SFsub prec emax one n) in *.
  destruct (round_between _ u (S754_zero false) one Hu good_zero one_good) as [[Hvu Hfu] Hub].
  { rewrite one_val. simpl. Lra.lra. }
  rewrite one_val in Hub. change (SF2R (S754_zero false)) with 0 in Hub.
  pose proof (SFmul_rounds u four Hvu Hv4 Hfu Hf4) as Hw.
  set (w := SFmul prec emax u four) in *.
  destruct (round_between _ w (S754_zero false) four Hw good_zero four_good) as [[Hvw Hfw] Hwb].
  { rewrite four_val. simpl. Lra.lra. }
  rewrite four_val in Hwb. change (SF2R (S754_zero false)) with 0 in Hwb.
  pose proof (SFadd_rounds one w Hv1 Hvw Hf1 Hfw) as Hd.
  set (d := SFadd prec emax one w) in *.
  destruct (round_between _ d one five Hd one_good five_good) as [Hgd Hdb].
  { rewrite one_val, five_val. Lra.lra. }
  rewrite one_val, five_val in Hdb.
  split; [exact Hgd |]. split; [exact Hdb |].
  intros Hn0.
  assert (Hu1 : SF2R u = 1).
  { rewrite <- one_val. apply (rounds_to_eq); [| exact Hfu | now apply valid_rep].
    replace (SF2R one) with (SF2R one - SF2R n) at 1 by Lra.lra. exact Hu. }
  assert (Hw4 : SF2R w = 4).
  { rewrite <- four_val. apply (rounds_to_eq); [| exact Hfw | now apply valid_rep].
    replace (SF2R four) with (SF2R u * SF2R four) at 1 by (rewrite Hu1; Lra.lra). exact Hw. }
  rewrite <- five_val. apply (rounds_to_eq); [| apply Hgd | apply valid_rep; auto; apply five_good].
  replace (SF2R five) with (SF2R one + SF2R w) at 1 by Lra.lra. exact Hd.
Qed.

(** The distance does not grow with the normalized value. *)
Lemma dist_entry_mono (n1 n2 : spec_float) :
  good n1 -> good n2 -> 0 <= SF2R n1 -> SF2R n1 <= SF2R n2 -> SF2R n2 <= 1 ->
  SF2R (dist n2) <= SF2R (dist n1).
Proof.
  intros Hg1 Hg2 H0 Hle H1.
  destruct (Rle_lt_or_eq_dec _ _ Hle) as [Hlt | Heq].
  2:{ assert (Hs : same n1 n2) by (apply (SF2R_inj); try apply Hg1; try apply Hg2; auto).
      unfold dist_entry.
      rewrite (same_SF2R _ _ (same_add_r one _ _ one_finite
                 (same_mul_l _ _ four four_finite
                    (same_sub_r one _ _ one_finite Hs)))). Lra.lra. }
  destruct Hg1 as [Hvn1 Hfn1]. destruct Hg2 as [Hvn2 Hfn2].
  destruct one_good as [Hv1 Hf1]. destruct four_good as [Hv4 Hf4].
  unfold dist_entry.
  pose proof (SFsub_rounds one n1 Hv1 Hvn1 Hf1 Hfn1) as Hu1.
  pose proof (SFsub_rounds one n2 Hv1 Hvn2 Hf1 Hfn2) as Hu2.
  set (u1 := SFsub prec emax one n1) in *. set (u2 := SFsub prec emax one n2) in *.
  destruct (round_between _ u1 (S754_zero false) one Hu1 good_zero one_good) as [[Hvu1 Hfu1] Hub1].
  { rewrite one_val. simpl. Lra.lra. }
  destruct (round_between _ u2 (S754_zero false) one Hu2 good_zero one_good) as [[Hvu2 Hfu2] Hub2].
  { rewrite one_val. simpl. Lra.lra. }
  change (SF2R (S754_zero false)) with 0 in Hub1, Hub2. rewrite one_val in Hub1, Hub2.
  assert (Hu : SF2R u2 <= SF2R u1).
  { apply (round_mono _ _ u2 u1 Hu2 Hu1 Hfu2 Hfu1); [Lra.lra | intros; Lra.lra]. }
  pose proof (SFmul_rounds u1 four Hvu1 Hv4 Hfu1 Hf4) as Hw1.
  pose proof (SFmul_rounds u2 four Hvu2 Hv4 Hfu2 Hf4) as Hw2.
  set (w1 := SFmul prec emax u1 four) in *. set (w2 := SFmul prec emax u2 four) in *.
  destruct (round_between _ w1 (S754_zero false) four Hw1 good_zero four_good) as [[Hvw1 Hfw1] Hwb1].
  { rewrite four_val. simpl. Lra.lra. }
  destruct (round_between _ w2 (S754_zero false) four Hw2 good_zero four_good) as [[Hvw2 Hfw2] Hwb2].
  { rewrite four_val. simpl. Lra.lra. }
  change (SF2R (S754_zero false)) with 0 in Hwb1, Hwb2. rewrite four_val in Hwb1, Hwb2.
  assert (Hw : SF2R w2 <= SF2R w1).
  { apply (round_mono _ _ w2 w1 Hw2 Hw1 Hfw2 Hfw1); [rewrite four_val; Lra.lra |].
    rewrite four_val. intros E. apply (same_mul_l _ _ four four_finite).
    apply (SF2R_inj); auto. Lra.lra. }
  pose proof (SFadd_rounds one w1 Hv1 Hvw1 Hf1 Hfw1) as Hd1.
  pose proof (SFadd_rounds one w2 Hv1 Hvw2 Hf1 Hfw2) as Hd2.
  set (d1 := SFadd prec emax one w1) in *. set (d2 := SFadd prec emax one w2) in *.
  destruct (round_between _ d1 one five Hd1 one_good five_good) as [[Hvd1 Hfd1] _].
  { rewrite one_val, five_val. Lra.lra. }
  destruct (round_between _ d2 one five Hd2 one_good five_good) as [[Hvd2 Hfd2] _].
  { rewrite one_val, five_val. Lra.lra. }
  apply (round_mono _ _ d2 d1 Hd2 Hd1 Hfd2 Hfd1); [Lra.lra |].
  intros E. apply (same_add_r one _ _ one_finite).
  apply (SF2R_inj); auto. Lra.lra.
Qed.


Lemma good_finite x : good x -> spec_finite x = true.
Proof. intros [_ H]. exact H. Qed.

Lemma rep_0 : rep 0.
Proof. apply (valid_rep (S754_zero false)). reflexivity. Qed.

(** The range [hi - lo] of a depth map, and what is left of a value
    above the least one. *)
Lemma range_facts (lo hi v : spec_float) :
  good lo -> good hi -> good v ->
  SF2R lo <= SF2R v <= SF2R hi ->
  spec_finite (SFsub prec emax hi lo) = true ->
  good (SFsub prec emax hi lo) /\
  good (SFsub prec emax v lo) /\
  0 <= SF2R (SFsub prec emax v lo) <= SF2R (SFsub prec emax hi lo) /\
  (SF2R v = SF2R lo -> SF2R (SFsub prec emax v lo) = 0).
Proof.
  intros [Hvlo Hflo] [Hvhi Hfhi] [Hvv Hfv] [Hlo Hhi] Hfh.
  pose proof (SFsub_rounds hi lo Hvhi Hvlo Hfhi Hflo) as Hh.
  pose proof (SFsub_rounds v lo Hvv Hvlo Hfv Hflo) as Ha.
  set (h := SFsub prec emax hi lo) in *. set (a := SFsub prec emax v lo) in *.
  pose proof (rounds_to_threshold _ _ Hh Hfh) as Hth.
  pose proof threshold_pos as HT.
  assert (Hfa : spec_finite a = true) by (apply (rounds_to_finite _ _ Ha); Lra.lra).
  assert (Ha0 : 0 <= SF2R a) by (apply (rounds_to_ge _ _ _ Ha Hfa rep_0); Lra.lra).
  split; [split; [exact (rounds_to_valid _ _ Hh) | exact Hfh] |].
  split; [split; [exact (rounds_to_valid _ _ Ha) | exact Hfa] |].
  split; [split; [exact Ha0 |] |].
  - apply (round_mono _ _ a h Ha Hh Hfa Hfh); [Lra.lra |].
    intros E. apply same_sub_l. apply SF2R_inj; auto. Lra.lra.
  - intros E. replace 0 with (SF2R v - SF2R lo) at 1 by Lra.lra.
    apply (rounds_to_eq _ _ Ha Hfa).
    replace (SF2R v - SF2R lo) with 0 by Lra.lra. exact rep_0.
Qed.

(** The denominator [hi - lo + 1e-8]: positive and at least the range, or
    an infinity when the sum overflows. *)
Lemma denominator_facts (h : spec_float) :
  good h -> 0 <= SF2R h ->
  SFadd prec emax h eps = S754_infinity false \/
  ((exists s m e, SFadd prec emax h eps = S754_finite s m e) /\
   good (SFadd prec emax h eps) /\
   SF2R h <= SF2R (SFadd prec emax h eps) /\ 0 < SF2R (SFadd prec emax h eps)).
Proof.
  intros [Hvh Hfh] Hh0. destruct eps_good as [Hve Hfe].
  pose proof (SFadd_rounds h eps Hvh Hve Hfh Hfe) as HD.
  pose proof threshold_pos as HT.
  destruct (spec_finite (SFadd prec emax h eps)) eqn:HfD.
  - right.
    assert (H1 : SF2R h <= SF2R (SFadd prec emax h eps)).
    { apply (rounds_to_ge _ _ _ HD HfD); [now apply valid_rep | Lra.lra]. }
    assert (H2 : SF2R eps <= SF2R (SFadd prec emax h eps)).
    { apply (rounds_to_ge _ _ _ HD HfD); [now apply valid_rep | Lra.lra]. }
    split; [apply finite_nonzero; [exact HfD | Lra.lra] |].
    split; [split; [exact (rounds_to_valid _ _ HD) | exact HfD] |].
    split; [exact H1 | Lra.lra].
  - left. destruct HD as [_ HD].
    destruct (SFadd prec emax h eps) as [s | [|] | | s m e]; try discriminate HfD.
    + exfalso. Lra.lra.
    + reflexivity.
    + contradiction.
Qed.

Lemma norm_entry_bounds (lo hi v : spec_float) :
  good lo -> good hi -> good v ->
  SF2R lo <= SF2R v <= SF2R hi ->
  spec_finite (SFsub prec emax hi lo) = true ->
  good (norm lo hi v) /\ 0 <= SF2R (norm lo hi v) <= 1 /\
  (SF2R v = SF2R lo -> SF2R (norm lo hi v) = 0).
Proof.
  intros Hglo Hghi Hgv Hb Hfh.
  destruct (range_facts lo hi v Hglo Hghi Hgv Hb Hfh) as (Hgh & Hga & Hab & Ha0).
  unfold norm_entry.
  set (h := SFsub prec emax hi lo) in *. set (a := SFsub prec emax v lo) in *.
  destruct (denominator_facts h Hgh ltac:(Lra.lra)) as [HD | ((sD & mD & eD & HD) & HgD & HhD & HD0)].
  - rewrite HD. destruct Hga as [Hva Hfa].
    destruct a as [sa | sa | | sa ma ea]; try discriminate Hfa; cbn [SFdiv];
      (split; [split; reflexivity |]); simpl; split; try Lra.lra; auto.
  - destruct Hga as [Hva Hfa]. destruct HgD as [HvD HfD].
    pose proof (SFdiv_rounds a _ Hva HvD Hfa (ex_intro _ sD (ex_intro _ mD (ex_intro _ eD HD)))) as Ht.
    set (D := SFadd prec emax h eps) in *.
    destruct (round_between _ _ (S754_zero false) one Ht good_zero one_good) as [Hgt Htb].
    { rewrite one_val. change (SF2R (S754_zero false)) with 0. apply div_bounds; Lra.lra. }
    rewrite one_val in Htb. change (SF2R (S754_zero false)) with 0 in Htb.
    split; [exact Hgt |]. split; [exact Htb |].
    intros E.
    assert (HX : SF2R a / SF2R D = 0) by (rewrite (Ha0 E); unfold Rdiv; ring).
    transitivity (SF2R a / SF2R D); [| exact HX].
    apply (rounds_to_eq _ _ Ht (good_finite _ Hgt)).
    rewrite HX. exact rep_0.
Qed.

Lemma norm_entry_mono (lo hi v1 v2 : spec_float) :
  good lo -> good hi -> good v1 -> good v2 ->
  SF2R lo <= SF2R v1 -> SF2R v1 <= SF2R v2 -> SF2R v2 <= SF2R hi ->
  spec_finite (SFsub prec emax hi lo) = true ->
  SF2R (norm lo hi v1) <= SF2R (norm lo hi v2).
Proof.
  intros Hglo Hghi Hgv1 Hgv2 H1 H12 H2 Hfh.
  destruct (range_facts lo hi v1 Hglo Hghi Hgv1 ltac:(Lra.lra) Hfh) as (Hgh & Hga1 & Hab1 & _).
  destruct (range_facts lo hi v2 Hglo Hghi Hgv2 ltac:(Lra.lra) Hfh) as (_ & Hga2 & Hab2 & _).
  assert (Ha : SF2R (SFsub prec emax v1 lo) <= SF2R (SFsub prec emax v2 lo)).
  { apply (round_mono (SF2R v1 - SF2R lo) (SF2R v2 - SF2R lo)).
    - apply SFsub_rounds; try apply Hgv1; apply Hglo.
    - apply SFsub_rounds; try apply Hgv2; apply Hglo.
    - apply Hga1.
    - apply Hga2.
    - Lra.lra.
    - intros E. apply same_sub_l. apply SF2R_inj; try apply Hgv1; try apply Hgv2. Lra.lra. }
  unfold norm_entry.
  set (h := SFsub prec emax hi lo) in *.
  set (a1 := SFsub prec emax v1 lo) in *. set (a2 := SFsub prec emax v2 lo) in *.
  destruct (denominator_facts h Hgh ltac:(Lra.lra)) as [HD | ((sD & mD & eD & HD) & HgD & HhD & HD0)].
  - rewrite HD. destruct Hga1 as [_ Hfa1]. destruct Hga2 as [_ Hfa2].
    destruct a1; try discriminate Hfa1; destruct a2; try discriminate Hfa2; simpl; Lra.lra.
  - pose proof (ex_intro _ sD (ex_intro _ mD (ex_intro _ eD HD))
                : exists s m e, SFadd prec emax h eps = S754_finite s m e) as HDf.
    destruct Hga1 as [Hva1 Hfa1]. destruct Hga2 as [Hva2 Hfa2]. destruct HgD as [HvD HfD].
    pose proof (SFdiv_rounds a1 _ Hva1 HvD Hfa1 HDf) as Ht1.
    pose proof (SFdiv_rounds a2 _ Hva2 HvD Hfa2 HDf) as Ht2.
    set (D := SFadd prec emax h eps) in *.
    destruct (round_between _ _ (S754_zero false) one Ht1 good_zero one_good) as [Hgt1 _].
    { rewrite one_val. change (SF2R (S754_zero false)) with 0. apply div_bounds; Lra.lra. }
    destruct (round_between _ _ (S754_zero false) one Ht2 good_zero one_good) as [Hgt2 _].
    { rewrite one_val. change (SF2R (S754_zero false)) with 0. apply div_bounds; Lra.lra. }
    apply (round_mono _ _ _ _ Ht1 Ht2 (good_finite _ Hgt1) (good_finite _ Hgt2)).
    + apply div_mono; Lra.lra.
    + intros E. apply same_div_l. apply SF2R_inj; auto. exact (div_inj _ _ _ HD0 E).
Qed.

(** One entry of the distance map. *)
Theorem entry_bounds (lo hi v : spec_float) :
  good lo -> good hi -> good v ->
  SF2R lo <= SF2R v <= SF2R hi ->
  spec_finite (SFsub prec emax hi lo) = true ->
  good (dist (norm lo hi v)) /\
  1 <= SF2R (dist (norm lo hi v)) <= 5 /\
  (SF2R v = SF2R lo -> SF2R (dist (norm lo hi v)) = 5).
Proof.
  intros Hglo Hghi Hgv Hb Hfh.
  destruct (norm_entry_bounds lo hi v Hglo Hghi Hgv Hb Hfh) as (Hgn & Hnb & Hn0).
  destruct (dist_entry_bounds _ Hgn Hnb) as (Hgd & Hdb & Hd5).
  split; [exact Hgd |]. split; [exact Hdb |]. intros E. apply Hd5, Hn0, E.
Qed.

Theorem entry_mono (lo hi v1 v2 : spec_float) :
  good lo -> good hi -> good v1 -> good v2 ->
  SF2R lo <= SF2R v1 -> SF2R v1 <= SF2R v2 -> SF2R v2 <= SF2R hi ->
  spec_finite (SFsub prec emax hi lo) = true ->
  SF2R (dist (norm lo hi v2)) <= SF2R (dist (norm lo hi v1)).
Proof.
  intros Hglo Hghi Hgv1 Hgv2 H1 H12 H2 Hfh.
  destruct (norm_entry_bounds lo hi v1 Hglo Hghi Hgv1 ltac:(Lra.lra) Hfh) as (Hgn1 & Hnb1 & _).
  destruct (norm_entry_bounds lo hi v2 Hglo Hghi Hgv2 ltac:(Lra.lra) Hfh) as (Hgn2 & Hnb2 & _).
  apply dist_entry_mono; try assumption; try Lra.lra.
  now apply norm_entry_mono.
Qed.

End Rounding.

Set Implicit Arguments.

(** ** The distance map in a rounded arithmetic *)

Section IEEE.

Context {A : Type} {N : Number A}.

(** An arithmetic whose numbers stand for floats of precision [prec] and
    whose operations are the rounded ones. *)
Variables (prec emax : Z) (to_SF : A -> spec_float) (wf : A -> Prop).

Hypothesis Hprec : (0 < prec)%Z.
Hypothesis Hemax : (prec < emax)%Z.
Hypothesis to_SF_add : forall x y : A, to_SF (x + y)%num = SFadd prec emax (to_SF x) (to_SF y).
Hypothesis to_SF_sub : forall x y : A, to_SF (x - y)%num = SFsub prec emax (to_SF x) (to_SF y).
Hypothesis to_SF_mul : forall x y : A, to_SF (x * y)%num = SFmul prec emax (to_SF x) (to_SF y).
Hypothesis to_SF_div : forall x y : A, to_SF (x / y)%num = SFdiv prec emax (to_SF x) (to_SF y).
Hypothesis to_SF_ltb : forall x y : A, (x <? y)%num = SFltb (to_SF x) (to_SF y).
Hypothesis to_SF_inj : forall x y : A, to_SF x = to_SF y -> x = y.
Hypothesis minimum_finite : forall x y : A,
  spec_finite (to_SF x) = true -> spec_finite (to_SF y) = true ->
  minimum x y = if (y <? x)%num then y else x.
Hypothesis maximum_finite : forall x y : A,
  spec_finite (to_SF x) = true -> spec_finite (to_SF y) = true ->
  maximum x y = if (x <? y)%num then y else x.
Hypothesis wf_valid : forall x : A, wf x -> SpecFloat.valid_binary prec emax (to_SF x) = true.
Hypothesis one_good : good prec emax (to_SF (of_decimal 1 0)).
Hypothesis five_good : good prec emax (to_SF (of_decimal 5 0)).
Hypothesis eps_good : good prec emax (to_SF (of_decimal 1 (-8))).
Hypothesis one_val : SF2R (to_SF (of_decimal 1 0)) = 1%R.
Hypothesis five_val : SF2R (to_SF (of_decimal 5 0)) = 5%R.
Hypothesis eps_pos : (0 < SF2R (to_SF (of_decimal 1 (-8))))%R.

Local Notation val x := (SF2R (to_SF x)).

(** A finite number, and the order of the arithmetic. *)
Local Notation fin := (fun x : A => wf x /\ spec_finite (to_SF x) = true).
Local Notation leb := (fun x y : A => SFleb (to_SF x) (to_SF y) = true).

Lemma fin_good (x : A) : fin x -> good prec emax (to_SF x).
Proof. intros [Hw Hf]. split; [now apply wf_valid | exact Hf]. Qed.

Lemma ltb_val (x y : A) : fin x -> fin y -> ((x <? y)%num = true <-> (val x < val y)%R).
Proof.
  intros Hx Hy. rewrite to_SF_ltb.
  apply (SFltb_spec prec emax); try apply fin_good; assumption.
Qed.

Lemma fold_minimum_fin (xs : list A) : forall x,
  fin x -> Forall fin xs ->
  fin (fold_left minimum xs x) /\
  In (fold_left minimum xs x) (x :: xs) /\
  forall w, In w (x :: xs) -> (val (fold_left minimum xs x) <= val w)%R.
Proof.
  induction xs as [| y ys IH]; intros x Hx Hxs.
  - simpl. split; [exact Hx |]. split; [left; reflexivity |]. intros w [<- | []]. Lra.lra.
  - apply Forall_cons_iff in Hxs. destruct Hxs as [Hy Hys].
    cbn [fold_left].
    assert (Hm : minimum x y = if (y <? x)%num then y else x)
      by (apply minimum_finite; [apply Hx | apply Hy]).
    pose proof (ltb_val Hy Hx) as Hlt.
    assert (Hfm : fin (minimum x y)) by (rewrite Hm; destruct (y <? x)%num; assumption).
    assert (Hvm : (val (minimum x y) <= val x)%R /\ (val (minimum x y) <= val y)%R).
    { rewrite Hm. destruct (y <? x)%num eqn:E.
      - assert (val y < val x)%R by (apply Hlt; reflexivity). split; Lra.lra.
      - assert (~ (val y < val x)%R) by (intros H; apply Hlt in H; discriminate H).
        split; Lra.lra. }
    assert (Him : minimum x y = x \/ minimum x y = y)
      by (rewrite Hm; destruct (y <? x)%num; auto).
    destruct (IH (minimum x y) Hfm Hys) as (Hf & Hin & Hle).
    split; [exact Hf |]. split.
    + destruct Hin as [E | Hin]; [| right; right; exact Hin].
      rewrite <- E. destruct Him as [-> | ->]; simpl; auto.
    + intros w [<- | [<- | Hw]].
      * pose proof (Hle (minimum x y) (or_introl eq_refl)). Lra.lra.
      * pose proof (Hle (minimum x y) (or_introl eq_refl)). Lra.lra.
      * apply Hle. right. exact Hw.
Qed.

Lemma fold_maximum_fin (xs : list A) : forall x,
  fin x -> Forall fin xs ->
  fin (fold_left maximum xs x) /\
  In (fold_left maximum xs x) (x :: xs) /\
  forall w, In w (x :: xs) -> (val w <= val (fold_left maximum xs x))%R.
Proof.
  induction xs as [| y ys IH]; intros x Hx Hxs.
  - simpl. split; [exact Hx |]. split; [left; reflexivity |]. intros w [<- | []]. Lra.lra.
  - apply Forall_cons_iff in Hxs. destruct Hxs as [Hy Hys].
    cbn [fold_left].
    assert (Hm : maximum x y = if (x <? y)%num then y else x)
      by (apply maximum_finite; [apply Hx | apply Hy]).
    pose proof (ltb_val Hx Hy) as Hlt.
    assert (Hfm : fin (maximum x y)) by (rewrite Hm; destruct (x <? y)%num; assumption).
    assert (Hvm : (val x <= val (maximum x y))%R /\ (val y <= val (maximum x y))%R).
    { rewrite Hm. destruct (x <? y)%num eqn:E.
      - assert (val x < val y)%R by (apply Hlt; reflexivity). split; Lra.lra.
      - assert (~ (val x < val y)%R) by (intros H; apply Hlt in H; discriminate H).
        split; Lra.lra. }
    assert (Him : maximum x y = x \/ maximum x y = y)
      by (rewrite Hm; destruct (x <? y)%num; auto).
    destruct (IH (maximum x y) Hfm Hys) as (Hf & Hin & Hle).
    split; [exact Hf |]. split.
    + destruct Hin as [E | Hin]; [| right; right; exact Hin].
      rewrite <- E. destruct Him as [-> | ->]; simpl; auto.
    + intros w [<- | [<- | Hw]].
      * pose proof (Hle (maximum x y) (or_introl eq_refl)). Lra.lra.
      * pose proof (Hle (maximum x y) (or_introl eq_refl)). Lra.lra.
      * apply Hle. right. exact Hw.
Qed.

Local Notation entry := entry_of.

Lemma depth_to_distance_entries (x : A) (xs : list A) :
  depth_to_distance (x :: xs) MIN_DIST MAX_DIST
  = Ok (map (entry (fold_left minimum xs x) (fold_left maximum xs x)) (x :: xs)).
Proof. unfold depth_to_distance, array_min, array_max. rewrite map_map. reflexivity. Qed.

Lemma to_SF_entry (lo hi v : A) :
  to_SF (entry lo hi v)
  = dist_entry prec emax (to_SF (of_decimal 1 0)) (to_SF (of_decimal 5 0))
      (norm_entry prec emax (to_SF (of_decimal 1 (-8))) (to_SF lo) (to_SF hi) (to_SF v)).
Proof.
  unfold entry_of, MIN_DIST, MAX_DIST, dist_entry, norm_entry.
  now rewrite to_SF_add, to_SF_mul, !to_SF_sub, to_SF_div, to_SF_add, !to_SF_sub.
Qed.

Lemma leb_val (x y : A) : fin x -> fin y -> (leb x y <-> (val x <= val y)%R).
Proof.
  intros Hx Hy. apply (SFleb_spec prec emax); try apply fin_good; assumption.
Qed.

Lemma good_leb (x y : A) :
  good prec emax (to_SF x) -> good prec emax (to_SF y) -> (val x <= val y)%R -> leb x y.
Proof.
  intros [Hvx Hfx] [Hvy Hfy] H. now apply (SFleb_spec prec emax).
Qed.

(** The distance map of a non-empty map of finite numbers with a finite
    range: finite distances from [MIN_DIST] to [MAX_DIST], both included,
    the least raw values at [MAX_DIST], and no greater distance for a raw
    value that is not smaller. *)
Theorem depth_to_distance_rounded (raw : list A) :
  raw <> [] -> Forall fin raw ->
  (exists r, depth_range raw = Ok r /\ spec_finite (to_SF r) = true) ->
  exists dist,
    depth_to_distance raw MIN_DIST MAX_DIST = Ok dist /\
    Forall2 (fun v d =>
               spec_finite (to_SF d) = true /\
               leb MIN_DIST d /\ leb d MAX_DIST /\
               ((forall w, In w raw -> leb v w) -> d = MAX_DIST))
            raw dist /\
    decreasing leb raw dist.
Proof.
  intros Hne Hfin (r & Hr & Hfr).
  destruct raw as [| x xs]; [congruence |]. clear Hne.
  pose proof Hfin as Hfin0.
  apply Forall_cons_iff in Hfin. destruct Hfin as [Hx Hxs].
  destruct (fold_minimum_fin Hx Hxs) as (Hflo & Hinlo & Hlo).
  destruct (fold_maximum_fin Hx Hxs) as (Hfhi & Hinhi & Hhi).
  set (lo := fold_left minimum xs x) in *. set (hi := fold_left maximum xs x) in *.
  assert (Hrange : spec_finite (SFsub prec emax (to_SF hi) (to_SF lo)) = true).
  { unfold depth_range, array_min, array_max in Hr. fold lo hi in Hr.
    injection Hr as <-. now rewrite to_SF_sub in Hfr. }
  exists (map (entry lo hi) (x :: xs)).
  split; [apply depth_to_distance_entries |].
  rewrite Forall_forall in Hfin0.
  assert (Hentry : forall v, In v (x :: xs) ->
            good prec emax (to_SF (entry lo hi v)) /\
            (1 <= val (entry lo hi v) <= 5)%R /\
            (val v = val lo -> val (entry lo hi v) = 5%R)).
  { intros v Hv. rewrite to_SF_entry.
    apply (entry_bounds prec emax Hprec Hemax _ _ _ one_good five_good eps_good
             one_val five_val eps_pos);
      try (apply fin_good; auto).
    - split; [apply Hlo | apply Hhi]; exact Hv.
    - exact Hrange. }
  split.
  - apply Forall2_map_In. intros v Hv.
    destruct (Hentry v Hv) as (Hg & Hb & H5).
    split; [apply Hg |].
    split; [apply good_leb; [exact one_good | exact Hg |];
            unfold MIN_DIST; rewrite one_val; apply Hb |].
    split; [apply good_leb; [exact Hg | exact five_good |];
            unfold MAX_DIST; rewrite five_val; apply Hb |].
    intros Hleast. apply to_SF_inj.
    assert (Hvlo : val v = val lo).
    { apply Rle_antisym; [| apply Hlo; exact Hv].
      apply leb_val; [apply Hfin0, Hv | exact Hflo | apply Hleast; exact Hinlo]. }
    specialize (H5 Hvlo).
    assert (Hs : same (to_SF (entry lo hi v)) (to_SF MAX_DIST)).
    { apply (SF2R_inj prec emax); try apply Hg; try apply five_good.
      unfold MAX_DIST. rewrite five_val. exact H5. }
    destruct Hs as [E | (s & s' & _ & E)]; [exact E |].
    exfalso. unfold MAX_DIST in E. rewrite E in five_val. simpl in five_val. Lra.lra.
  - intros i j ri rj di dj Hi Hj Hdi Hdj Hle.
    rewrite nth_error_map in Hdi, Hdj. rewrite Hi in Hdi. rewrite Hj in Hdj.
    cbn [option_map] in Hdi, Hdj. injection Hdi as <-. injection Hdj as <-.
    apply nth_error_In in Hi. apply nth_error_In in Hj.
    apply good_leb; [apply Hentry, Hj | apply Hentry, Hi |].
    rewrite !to_SF_entry.
    apply (entry_mono prec emax Hprec Hemax _ _ _ one_good five_good eps_good
             one_val five_val eps_pos);
      try (apply fin_good; auto).
    + apply Hlo. exact Hi.
    + apply leb_val; auto.
    + apply Hhi. exact Hj.
    + exact Hrange.
Qed.

End IEEE.

(** ** The two rounded arithmetics of the program *)

Lemma SFeqb_refl (x : spec_float) : spec_finite x = true -> SFeqb x x = true.
Proof.
  destruct x as [s | s | | s m e]; try discriminate; intros _; unfold SFeqb; cbn [SFcompare].
  - reflexivity.
  - rewrite Z.compare_refl.
    change (Pos.compare_cont Eq m m) with (Pos.compare m m). rewrite Pos.compare_refl.
    destruct s; reflexivity.
Qed.

Lemma float_is_nan_finite (x : float) : float_finite x = true -> PrimFloat.is_nan x = false.
Proof.
  intros H. unfold PrimFloat.is_nan. rewrite FloatAxioms.eqb_spec.
  now rewrite SFeqb_refl.
Qed.

Lemma float_minimum_finite (x y : float) :
  spec_finite (Prim2SF x) = true -> spec_finite (Prim2SF y) = true ->
  minimum x y = if (y <? x)%num then y else x.
Proof.
  intros Hx Hy. cbn [minimum float_Number]. unfold float_minimum.
  now rewrite !float_is_nan_finite.
Qed.

Lemma float_maximum_finite (x y : float) :
  spec_finite (Prim2SF x) = true -> spec_finite (Prim2SF y) = true ->
  maximum x y = if (x <? y)%num then y else x.
Proof.
  intros Hx Hy. cbn [maximum float_Number]. unfold float_maximum.
  now rewrite !float_is_nan_finite.
Qed.

Lemma binary32_is_nan_finite (x : spec_float) :
  spec_finite x = true -> binary32_is_nan x = false.
Proof. destruct x; try discriminate; reflexivity. Qed.

Lemma binary32_minimum_finite (x y : spec_float) :
  spec_finite x = true -> spec_finite y = true ->
  minimum x y = if (y <? x)%num then y else x.
Proof.
  intros Hx Hy. cbn [minimum binary32_Number]. unfold binary32_minimum.
  now rewrite !binary32_is_nan_finite.
Qed.

Lemma binary32_maximum_finite (x y : spec_float) :
  spec_finite x = true -> spec_finite y = true ->
  maximum x y = if (x <? y)%num then y else x.
Proof.
  intros Hx Hy. cbn [maximum binary32_Number]. unfold binary32_maximum.
  now rewrite !binary32_is_nan_finite.
Qed.

(** The value of a float given by its mantissa and exponent. *)
Lemma SF2R_finite_neg (m : positive) (e : positive) (z : Z) :
  (Zpos m = z * 2 ^ Zpos e)%Z ->
  SF2R (S754_finite false m (Zneg e)) = IZR z.
Proof.
  intros H. cbn [SF2R cond_Zopp]. rewrite H, mult_IZR.
  change (Zneg e) with (- Zpos e)%Z. rewrite bpow_opp, <- bpow_IZR by lia.
  pose proof (bpow_pos (Zpos e)). field. Lra.lra.
Qed.

Lemma binary64_one : good prec emax (Prim2SF (of_decimal 1 0)) /\ SF2R (Prim2SF (of_decimal 1 0)) = 1%R.
Proof.
  change (Prim2SF (of_decimal 1 0)) with (Prim2SF 1%float).
  replace (Prim2SF 1%float) with (S754_finite false 4503599627370496 (-52))
    by (vm_compute; reflexivity).
  split; [split; reflexivity |]. apply SF2R_finite_neg. reflexivity.
Qed.

Lemma binary64_five : good prec emax (Prim2SF (of_decimal 5 0)) /\ SF2R (Prim2SF (of_decimal 5 0)) = 5%R.
Proof.
  replace (Prim2SF (of_decimal 5 0)) with (S754_finite false 5629499534213120 (-50))
    by (vm_compute; reflexivity).
  split; [split; reflexivity |]. apply SF2R_finite_neg. reflexivity.
Qed.

Lemma binary64_eps :
  good prec emax (Prim2SF (of_decimal 1 (-8))) /\ (0 < SF2R (Prim2SF (of_decimal 1 (-8))))%R.
Proof.
  replace (Prim2SF (of_decimal 1 (-8))) with (Prim2SF 1e-8%float) by (vm_compute; reflexivity).
  destruct (Prim2SF 1e-8%float) as [s | s | | s m e] eqn:E; try (vm_compute in E; discriminate E).
  assert (Hs : s = false).
  { apply (f_equal (fun f => match f with S754_finite s _ _ => s | _ => true end)) in E.
    vm_compute in E. congruence. }
  subst s. split.
  - split; [| reflexivity]. rewrite <- E. apply Prim2SF_valid.
  - apply finite_pos.
Qed.

Lemma binary32_one :
  good prec32 emax32 (of_decimal 1 0 : spec_float) /\ SF2R (of_decimal 1 0 : spec_float) = 1%R.
Proof.
  replace (of_decimal 1 0 : spec_float) with (S754_finite false 8388608 (-23))
    by (vm_compute; reflexivity).
  split; [split; reflexivity |]. apply SF2R_finite_neg. reflexivity.
Qed.

Lemma binary32_five :
  good prec32 emax32 (of_decimal 5 0 : spec_float) /\ SF2R (of_decimal 5 0 : spec_float) = 5%R.
Proof.
  replace (of_decimal 5 0 : spec_float) with (S754_finite false 10485760 (-21))
    by (vm_compute; reflexivity).
  split; [split; reflexivity |]. apply SF2R_finite_neg. reflexivity.
Qed.

Lemma binary32_eps :
  good prec32 emax32 (of_decimal 1 (-8) : spec_float) /\
  (0 < SF2R (of_decimal 1 (-8) : spec_float))%R.
Proof.
  destruct (of_decimal 1 (-8) : spec_float) as [s | s | | s m e] eqn:E;
    try (vm_compute in E; discriminate E).
  assert (Hs : s = false).
  { apply (f_equal (fun f => match f with S754_finite s _ _ => s | _ => true end)) in E.
    vm_compute in E. congruence. }
  subst s. split.
  - split; [| reflexivity]. rewrite <- E. vm_compute. reflexivity.
  - apply finite_pos.
Qed.

Lemma float_to_SF_add (x y : float) :
  Prim2SF (x + y)%num = SFadd prec emax (Prim2SF x) (Prim2SF y).
Proof. exact (add_spec x y). Qed.

Lemma float_to_SF_sub (x y : float) :
  Prim2SF (x - y)%num = SFsub prec emax (Prim2SF x) (Prim2SF y).
Proof. exact (sub_spec x y). Qed.

Lemma float_to_SF_mul (x y : float) :
  Prim2SF (x * y)%num = SFmul prec emax (Prim2SF x) (Prim2SF y).
Proof. exact (mul_spec x y). Qed.

Lemma float_to_SF_div (x y : float) :
  Prim2SF (x / y)%num = SFdiv prec emax (Prim2SF x) (Prim2SF y).
Proof. exact (div_spec x y). Qed.

Lemma float_to_SF_ltb (x y : float) :
  (x <? y)%num = SFltb (Prim2SF x) (Prim2SF y).
Proof. exact (ltb_spec x y). Qed.

(** The distance map of a [float64] array: finite entries and a finite
    range give distances in the closed interval, the least raw values at
    [MAX_DIST], and no greater distance for a raw value that is not
    smaller. *)
Lemma depth_to_distance_binary64 (raw : list float) :
  raw <> [] -> finite_map64 raw ->
  exists dist,
    depth_to_distance raw MIN_DIST MAX_DIST = Ok dist /\
    Forall2 (fun v d =>
               float_finite d = true /\
               float_le MIN_DIST d /\ float_le d MAX_DIST /\
               ((forall w, In w raw -> float_le v w) -> d = MAX_DIST))
            raw dist /\
    decreasing float_le raw dist.
Proof.
  intros Hne [Hfin Hr].
  destruct (@depth_to_distance_rounded float _ prec emax Prim2SF (fun _ => True)
              eq_refl eq_refl float_to_SF_add float_to_SF_sub float_to_SF_mul float_to_SF_div
              float_to_SF_ltb Prim2SF_inj
              float_minimum_finite float_maximum_finite (fun x _ => Prim2SF_valid x)
              (proj1 binary64_one) (proj1 binary64_five) (proj1 binary64_eps)
              (proj2 binary64_one) (proj2 binary64_five) (proj2 binary64_eps)
              raw Hne)
    as (dist & Hd & HF & Hdec).
  - apply Forall_forall. intros v Hv. rewrite Forall_forall in Hfin. split; [exact I |].
    apply Hfin, Hv.
  - exact Hr.
  - exists dist. split; [exact Hd |]. split.
    + eapply Forall2_impl; [| exact HF]. cbv beta. intros v d (H1 & H2 & H3 & H4).
      unfold float_le, float_finite. rewrite !leb_spec.
      split; [exact H1 |]. split; [exact H2 |]. split; [exact H3 |].
      intros Hw. apply H4. intros w Hin. specialize (Hw w Hin).
      unfold float_le in Hw. now rewrite leb_spec in Hw.
    + intros i j ri rj di dj Hi Hj Hdi Hdj Hle. unfold float_le in *.
      rewrite leb_spec in *. exact (Hdec i j ri rj di dj Hi Hj Hdi Hdj Hle).
Qed.

(** The same for a [float32] array. *)
Lemma depth_to_distance_binary32 (raw : list spec_float) :
  raw <> [] -> finite_map32 raw ->
  exists dist,
    depth_to_distance raw MIN_DIST MAX_DIST = Ok dist /\
    Forall2 (fun v d =>
               spec_finite d = true /\
               binary32_le MIN_DIST d /\ binary32_le d MAX_DIST /\
               ((forall w, In w raw -> binary32_le v w) -> d = MAX_DIST))
            raw dist /\
    decreasing binary32_le raw dist.
Proof.
  intros Hne [Hfin Hr].
  exact (@depth_to_distance_rounded spec_float _ prec32 emax32 (fun x => x)
           (fun x => SpecFloat.valid_binary prec32 emax32 x = true)
           eq_refl eq_refl (fun _ _ => eq_refl) (fun _ _ => eq_refl) (fun _ _ => eq_refl)
           (fun _ _ => eq_refl) (fun _ _ => eq_refl) (fun _ _ H => H)
           binary32_minimum_finite binary32_maximum_finite (fun _ H => H)
           (proj1 binary32_one) (proj1 binary32_five) (proj1 binary32_eps)
           (proj2 binary32_one) (proj2 binary32_five) (proj2 binary32_eps)
           raw Hne Hfin Hr).
Qed.

(** C5.  A depth map whose entries are all equal gives a distance map
    whose entries are all [MAX_DIST]: in exact arithmetic for every value
    (first part), and in binary64 and in binary32 arithmetic for every
    finite value and every size (second and third parts); so with all
    entries 5.0, [MIN_DIST = 1.0] and [MAX_DIST = 5.0], all distances are
    5.0 (last part). *)
Theorem degenerate_normalization :
  (forall (raw : list Q) (c : Q),
      raw <> [] -> (forall v, In v raw -> (v == c)%Q) ->
      exists dist,
        depth_to_distance raw MIN_DIST MAX_DIST = Ok dist /\
        List.length dist = List.length raw /\
        Forall (fun d => (d == MAX_DIST)%Q) dist) /\
  (forall (c : float) (n : nat),
      float_finite c = true ->
      depth_to_distance (repeat c (S n)) MIN_DIST MAX_DIST
      = Ok (repeat MAX_DIST (S n))) /\
  (forall (c : spec_float) (n : nat),
      spec_finite c = true ->
      depth_to_distance (repeat c (S n)) MIN_DIST MAX_DIST
      = Ok (repeat MAX_DIST (S n))) /\
  depth_to_distance [5; 5; 5; 5]%float 1%float 5%float = Ok [5; 5; 5; 5]%float.
Proof.
  split; [| split; [| split]].
  - intros raw c Hne Hc. apply uniform_exact with (c := c); assumption.
  - intros c n H. now apply uniform_binary64.
  - intros c n H. now apply uniform_binary32.
  - vm_compute. reflexivity.
Qed.

(** C6, as the specification words it, fails in each arithmetic.  For the
    depth map [0.0, 1.0] the second distance is
    [1 + 4 * 1e-8 / (1 + 1e-8)], above 1.0, in exact arithmetic, and
    1.0000000399999993 in binary64.  In binary32 it is 1.0, but there the
    raw values 0.0 and 1e-9 of the map [0.0, 1e-9, 1.0] both get the
    distance 5.0, so that a larger raw value does not get a strictly
    smaller distance. *)
Lemma normalization_range_counterexample :
  ~ spec_normalization_range returns_Q Qlt /\
  ~ spec_normalization_range (@returns float) float_lt /\
  ~ spec_normalization_range (@returns spec_float) binary32_lt.
Proof.
  split; [| split].
  - intros [H _]. vm_compute in H.
    apply Forall2_cons_iff in H. destruct H as [_ H].
    apply Forall2_cons_iff in H. destruct H as [H _]. discriminate H.
  - intros [H _]. unfold returns in H.
    apply (f_equal (fun r => match r with Ok [_; d] => d | _ => 0%float end)) in H.
    vm_compute in H. revert H. float_neq.
  - intros [_ H].
    specialize (H [F32 0 0; F32 1 (-9); F32 1 0] [F32 5 0; F32 5 0; F32 1 0] eq_refl
                  0%nat 1%nat _ _ _ _ eq_refl eq_refl eq_refl eq_refl eq_refl).
    vm_compute in H. discriminate H.
Qed.

(** C6, as the program has it.  For the depth map [0.0, 1.0] the distances
    are 5 and [1 + 4 / 100000001] in exact arithmetic, 5.0 and
    1.0000000399999993 in a [float64] array, and 5.0 and 1.0 in a
    [float32] array, whose rounding absorbs the [1e-8] (first three
    parts).  Within one frame of finite values with a finite range the
    distance never grows with the raw value, in binary64 and in binary32
    arithmetic: a raw value that is not smaller gets a distance that is
    not greater (fourth and fifth parts); in exact arithmetic a larger
    raw value gets a strictly smaller distance (last part). *)
Theorem normalization_range :
  returns_Q (depth_to_distance [0; 1]%Q MIN_DIST MAX_DIST)
            [5; 1 + 4 / 100000001]%Q /\
  depth_to_distance [0; 1]%float 1%float 5%float
  = Ok [5; 1.0000000399999993]%float /\
  depth_to_distance [F32 0 0; F32 1 0] MIN_DIST MAX_DIST
  = Ok [F32 5 0; F32 1 0] /\
  (forall raw dist : list float,
      finite_map64 raw ->
      depth_to_distance raw MIN_DIST MAX_DIST = Ok dist ->
      decreasing float_le raw dist) /\
  (forall raw dist : list spec_float,
      finite_map32 raw ->
      depth_to_distance raw MIN_DIST MAX_DIST = Ok dist ->
      decreasing binary32_le raw dist) /\
  (forall raw dist : list Q,
      depth_to_distance raw MIN_DIST MAX_DIST = Ok dist ->
      strictly_decreasing Qlt raw dist).
Proof.
  split; [| split; [| split; [| split; [| split]]]].
  - vm_compute. repeat constructor.
  - vm_compute. reflexivity.
  - vm_compute. reflexivity.
  - intros raw dist Hfin Hd.
    assert (Hne : raw <> []) by (intros ->; discriminate Hd).
    destruct (depth_to_distance_binary64 Hne Hfin) as (dist' & Hd' & _ & Hdec).
    rewrite Hd in Hd'. apply some_inj_ok in Hd'. now subst dist'.
  - intros raw dist Hfin Hd.
    assert (Hne : raw <> []) by (intros ->; discriminate Hd).
    destruct (depth_to_distance_binary32 Hne Hfin) as (dist' & Hd' & _ & Hdec).
    rewrite Hd in Hd'. apply some_inj_ok in Hd'. now subst dist'.
  - intros raw dist H. now apply decreasing_exact.
Qed.

(** With rounding, close raw values can share a distance: strictness is a
    property of the exact arithmetic. *)
Example rounding_ties :
  depth_to_distance [0; 1e-30; 1]%float 1%float 5%float
  = Ok [5; 5; 1.0000000399999993]%float.
Proof. vm_compute. reflexivity. Qed.

(** The order on a concrete [float64] map: the raw values 0, 1e-30 and 1
    and their distances. *)
Lemma normalization_range_witness :
  decreasing float_le [0; 1e-30; 1]%float [5; 5; 1.0000000399999993]%float.
Proof.
  apply (proj1 (proj2 (proj2 (proj2 normalization_range)))).
  - split.
    + repeat constructor.
    + exists 1%float. split; vm_compute; reflexivity.
  - vm_compute. reflexivity.
Defined.

(** Without a finite range there is no order to speak of: the range of
    the [float64] map [-1e308, 1e308] overflows, and the distance of its
    greatest entry is NaN. *)
Example range_overflow :
  depth_to_distance [-1e308; 1e308]%float 1%float 5%float = Ok [5%float; nan].
Proof. vm_compute. reflexivity. Qed.




(** The distances of a map are finite numbers, not NaN, under the same
    conditions. *)
Lemma distances_finite (raw dist : list float) :
  finite_map64 raw ->
  depth_to_distance raw MIN_DIST MAX_DIST = Ok dist ->
  Forall (fun d => float_finite d = true) dist.
Proof.
  intros Hfin Hd.
  assert (Hne : raw <> []) by (intros ->; discriminate Hd).
  destruct (depth_to_distance_binary64 Hne Hfin) as (dist' & Hd' & HF & _).
  rewrite Hd in Hd'. apply some_inj_ok in Hd'. subst dist'.
  clear - HF. induction HF as [| v d l l' (H & _) _ IH]; constructor; auto.
Qed.

(* ================================================================= *)
(** * Part III: further properties *)
(* ================================================================= *)

(** ** Runs and invariants *)

Section Invariants.

Context {A : Type} {N : Number A}.
Variable py_float : string -> option A.

Implicit Types (g : globals A) (s : system A).

(** A property that every step keeps holds along every run, and one that
    holds initially as well holds in every reachable state. *)
Lemma sys_run_invariant (P : system A -> Prop) :
  (forall s e, P s -> P (sys_step py_float s e)) ->
  forall evs s, P s -> P (sys_run py_float s evs).
Proof.
  intros Hstep evs. induction evs as [| e evs IH]; intros s H; [exact H |].
  apply IH, Hstep, H.
Qed.

Lemma reachable_invariant (P : system A -> Prop) :
  (forall now, P (initial now)) ->
  (forall s e, P s -> P (sys_step py_float s e)) ->
  forall s, reachable py_float s -> P s.
Proof.
  intros Hinit Hstep s (now & evs & ->). apply sys_run_invariant; auto.
Qed.

(** The three kinds of step, spelled out. *)
Lemma sys_step_imu s rd :
  sys_step py_float s (ImuRead rd)
  = mk_system
      (set_imu_buffer (glob s)
         (snd (fst (imu_reader_iteration py_float (imu_thread s) (imu_buffer (glob s)) rd))))
      (fst (fst (imu_reader_iteration py_float (imu_thread s) (imu_buffer (glob s)) rd)))
      (cam_thread s) (main_thread s).
Proof.
  simpl. destruct (imu_reader_iteration py_float (imu_thread s) (imu_buffer (glob s)) rd)
    as [[r' b'] printed]. reflexivity.
Qed.

Lemma sys_step_cam s cap now :
  sys_step py_float s (CamStep cap now)
  = mk_system (snd (camera_loop_step cap now (cam_thread s) (glob s)))
              (imu_thread s)
              (fst (camera_loop_step cap now (cam_thread s) (glob s)))
              (main_thread s).
Proof.
  simpl. destruct (camera_loop_step cap now (cam_thread s) (glob s)). reflexivity.
Qed.

Lemma sys_step_main s :
  sys_step py_float s MainStep
  = match main_thread s with
    | AtAssign =>
        mk_system (reset_latest_depth_float (glob s)) (imu_thread s) (cam_thread s) Serving
    | Serving => s
    end.
Proof. reflexivity. Qed.

Lemma Forall_tl (T : Type) (P : T -> Prop) (l : list T) : Forall P l -> Forall P (tl l).
Proof. intros H. destruct H; simpl; auto. Qed.

Lemma Forall_deque_append (T : Type) (P : T -> Prop) maxlen (d : list T) x :
  Forall P d -> P x -> Forall P (deque_append maxlen d x).
Proof.
  intros Hd Hx. unfold deque_append.
  assert (H : Forall P (d ++ [x])) by (apply Forall_app; auto).
  destruct (maxlen <? List.length (d ++ [x]))%nat; [apply Forall_tl |]; exact H.
Qed.

Lemma synchronize_bundle_ok (T : A) (snapshot : list (sample A)) :
  (List.length snapshot <= IMU_MAXLEN)%nat -> bundle_ok (T, synchronize T snapshot).
Proof.
  intros H. split; simpl.
  - apply Forall_forall. intros x Hx. unfold synchronize in Hx.
    apply filter_In in Hx. apply Hx.
  - unfold synchronize. pose proof (filter_length_le (in_window T) snapshot). lia.
Qed.

Lemma bundles_ok_step s e : bundles_ok s -> bundles_ok (sys_step py_float s e).
Proof.
  intros (Hh & Hp & Hb). destruct e as [rd | cap now |];
    [| | rewrite sys_step_main; destruct (main_thread s); repeat split; assumption].
  - rewrite sys_step_imu. unfold bundles_ok. simpl. repeat split; try assumption.
    destruct (imu_reader_iteration_buffer py_float (imu_thread s) (imu_buffer (glob s)) rd)
      as [-> | [x ->]]; [exact Hb | now apply deque_append_length].
  - rewrite sys_step_cam. unfold bundles_ok in *.
    destruct s as [g r pc m]. simpl in *.
    destruct pc; simpl in *; try (repeat split; assumption).
    + destruct cap as [f |]; [| repeat split; assumption].
      destruct (depth_to_distance (raw_depth f) MIN_DIST MAX_DIST);
        simpl; repeat split; auto.
    + repeat split; auto. constructor; [| constructor].
      now apply synchronize_bundle_ok.
    + repeat split; auto. apply Forall_deque_append; [exact Hh |].
      now inversion Hp.
Qed.

Lemma bundles_ok_initial now : bundles_ok (initial now).
Proof. repeat split; simpl; auto. unfold IMU_MAXLEN. lia. Qed.

End Invariants.

(** X2.  In every state the process can reach, every bundle kept in
    [synced_imu] holds only samples that pass the windowing rule for the
    bundle's own time stamp, and at most 2000 of them. *)
Theorem bundles_in_window
  (A : Type) (N : Number A) (py_float : string -> option A) (s : system A) :
  reachable py_float s ->
  forall timestamp synced,
    In (timestamp, synced) (synced_imu (glob s)) ->
    (forall x, In x synced ->
       (of_decimal 0 0 <? timestamp - ts x)%num = true /\
       (timestamp - ts x <? of_decimal 1 0)%num = true) /\
    (List.length synced <= 2000)%nat.
Proof.
  intros Hr timestamp synced Hin.
  assert (H : bundles_ok s).
  { apply (@reachable_invariant A N py_float (@bundles_ok A N)); auto.
    - apply bundles_ok_initial.
    - intros. now apply bundles_ok_step. }
  destruct H as (Hh & _ & _).
  rewrite Forall_forall in Hh. destruct (Hh _ Hin) as [Hw Hl]. simpl in *.
  split; [| exact Hl]. intros x Hx. rewrite Forall_forall in Hw.
  apply in_window_spec. now apply Hw.
Qed.

Lemma bundles_in_window_witness :
  (forall x, In x [mk_sample (F 10 0) (F 1 0) (F 2 0) (F 3 0) (F 4 0) (F 5 0) (F 6 0)] ->
     (of_decimal 0 0 <? F 105 (-1) - ts x)%num = true /\
     (F 105 (-1) - ts x <? of_decimal 1 0)%num = true) /\
  (List.length [mk_sample (F 10 0) (F 1 0) (F 2 0) (F 3 0) (F 4 0) (F 5 0) (F 6 0)]
   <= 2000)%nat.
Proof.
  apply (@bundles_in_window float _ float_of_digits
           (sys_run float_of_digits (initial (F 10 0)) some_run)).
  - exists (F 10 0), some_run. reflexivity.
  - vm_compute. left. reflexivity.
Defined.

Section Availability.

Context {A : Type} {N : Number A}.
Variable py_float : string -> option A.

Implicit Types (g : globals A) (s : system A).

Lemma availability_step s e : availability s -> availability (sys_step py_float s e).
Proof.
  intros (Hd & Hr & Hrd & Hb). destruct e as [rd | cap now |].
  - rewrite sys_step_imu. unfold availability. simpl. auto.
  - rewrite sys_step_cam. unfold availability in *.
    destruct s as [g r pc m]. simpl in *.
    destruct pc; simpl in *;
      try (repeat split; intros; try discriminate; auto; fail).
    destruct cap as [f |]; [| repeat split; auto].
    destruct (depth_to_distance (raw_depth f) MIN_DIST MAX_DIST); simpl;
      repeat split; intros; try discriminate; auto.
  - rewrite sys_step_main. unfold availability in *.
    destruct s as [g r pc m]. simpl in *. destruct m; simpl.
    + repeat split; try (intros E; discriminate E); auto.
    + repeat split; auto.
Qed.

Lemma availability_initial now : availability (initial now).
Proof. repeat split; simpl; intros; try discriminate; congruence. Qed.

(** The main thread runs line 124 once. *)
Lemma serving_step s e :
  main_thread s = Serving -> main_thread (sys_step py_float s e) = Serving.
Proof.
  intros H. destruct e as [rd | cap now |].
  - rewrite sys_step_imu. exact H.
  - rewrite sys_step_cam. exact H.
  - rewrite sys_step_main, H. exact H.
Qed.

(** An encoded frame and a bundle that are there stay there; so does a
    distance map once the main thread has run line 124. *)
Lemma published_stays_step s e :
  (main_thread s = Serving -> latest_depth_float (glob s) <> None ->
   latest_depth_float (glob (sys_step py_float s e)) <> None) /\
  (latest_rgb (glob s) <> None -> latest_rgb (glob (sys_step py_float s e)) <> None) /\
  (synced_imu (glob s) <> [] -> synced_imu (glob (sys_step py_float s e)) <> []).
Proof.
  destruct e as [rd | cap now |];
    [| | rewrite sys_step_main; destruct (main_thread s) eqn:Em;
         [repeat split; auto; intros E; discriminate E | auto]].
  - rewrite sys_step_imu. simpl. auto.
  - rewrite sys_step_cam. destruct s as [g r pc m]. simpl.
    destruct pc; simpl; auto.
    + destruct cap as [f |]; simpl; auto.
      destruct (depth_to_distance (raw_depth f) MIN_DIST MAX_DIST); simpl; auto.
      repeat split; auto; intros; discriminate.
    + repeat split; auto. intros _. discriminate.
    + repeat split; auto. intros _ E.
      pose proof (@last_item_deque_append _ SYNCED_MAXLEN (synced_imu g) (timestamp, synced)) as L.
      rewrite E in L. simpl in L. unfold SYNCED_MAXLEN in L.
      assert (None = Some (timestamp, synced)) by (apply L; lia). discriminate.
Qed.

End Availability.

Section Bookkeeping.

Context {A : Type} {N : Number A}.
Variable py_float : string -> option A.

Implicit Types (g : globals A) (s : system A).

Lemma bookkeeping_step s e : bookkeeping s -> bookkeeping (sys_step py_float s e).
Proof.
  intros H. destruct e as [rd | cap now |];
    [| | rewrite sys_step_main; unfold bookkeeping in *;
         destruct (main_thread s); [simpl; destruct (cam_thread s) |]; exact H].
  - rewrite sys_step_imu. unfold bookkeeping in *. simpl.
    destruct (cam_thread s); exact H.
  - rewrite sys_step_cam. unfold bookkeeping in *.
    destruct s as [g r pc m]. simpl in *.
    destruct pc; simpl in *; try exact H.
    + destruct cap as [f |]; [| exact H].
      destruct (depth_to_distance (raw_depth f) MIN_DIST MAX_DIST); exact H.
    + destruct H as [Ht _]. split; [exact Ht | reflexivity].
    + destruct H as [_ Hb]. unfold buffer_agrees. simpl.
      rewrite last_item_deque_append by (unfold SYNCED_MAXLEN; lia).
      split; [exact Hb | eexists; reflexivity].
    + destruct H as [Hb [synced' Hl]]. split; [| exact Hb].
      unfold ts_agrees. simpl. now rewrite Hl.
Qed.

Lemma bookkeeping_initial now : bookkeeping (initial now).
Proof. split; reflexivity. Qed.

(** The camera thread leaves the inertial buffer and the reader's locals
    alone. *)
Lemma camera_loop_step_imu_buffer cap now pc g :
  imu_buffer (snd (camera_loop_step cap now pc g)) = imu_buffer g.
Proof.
  destruct pc; simpl; try reflexivity.
  destruct cap as [f |]; [| reflexivity].
  destruct (depth_to_distance (raw_depth f) MIN_DIST MAX_DIST); reflexivity.
Qed.

Lemma failed_reads n now s :
  cam_thread s = AtRead -> camera_loop py_float n None now s = s.
Proof.
  intros H. induction n as [| n IH]; [reflexivity |].
  assert (E : sys_step py_float s (CamStep None now) = s).
  { rewrite sys_step_cam, H. simpl. destruct s; simpl in *. now subst. }
  unfold camera_loop in *.
  change (sys_run py_float s (repeat (CamStep None now) (S n)))
    with (sys_run py_float (sys_step py_float s (CamStep None now))
                  (repeat (CamStep None now) n)).
  rewrite E. exact IH.
Qed.

Lemma assign_step s e :
  main_thread (sys_step py_float s e) = AtAssign -> main_thread s = AtAssign.
Proof.
  intros H. destruct (main_thread s) eqn:E; [reflexivity |].
  rewrite (@serving_step A N py_float s e E) in H. discriminate H.
Qed.

(** Once the camera thread is dead, the encoded frame and the bundles
    stay as they are; the distance map stays as it is too, unless the main
    thread still has line 124 to run, which sets it to [None]. *)
Lemma dead_step s e :
  cam_thread s = Dead ->
  cam_thread (sys_step py_float s e) = Dead /\
  latest_rgb (glob (sys_step py_float s e)) = latest_rgb (glob s) /\
  synced_imu (glob (sys_step py_float s e)) = synced_imu (glob s) /\
  (latest_depth_float (glob (sys_step py_float s e)) = latest_depth_float (glob s) \/
   main_thread s = AtAssign /\ latest_depth_float (glob (sys_step py_float s e)) = None).
Proof.
  intros H. destruct e as [rd | cap now |].
  - rewrite sys_step_imu. simpl. repeat split; auto.
  - rewrite sys_step_cam, H. simpl. repeat split; auto.
  - rewrite sys_step_main. destruct (main_thread s) eqn:Em; simpl; repeat split; auto.
Qed.

Lemma dead_run evs : forall s,
  cam_thread s = Dead ->
  cam_thread (sys_run py_float s evs) = Dead /\
  latest_rgb (glob (sys_run py_float s evs)) = latest_rgb (glob s) /\
  synced_imu (glob (sys_run py_float s evs)) = synced_imu (glob s) /\
  (latest_depth_float (glob (sys_run py_float s evs)) = latest_depth_float (glob s) \/
   main_thread s = AtAssign /\ latest_depth_float (glob (sys_run py_float s evs)) = None).
Proof.
  induction evs as [| e evs IH]; intros s H; [auto |].
  destruct (@dead_step s e H) as (Hd & Hr & Hb & Hf).
  destruct (IH _ Hd) as (Hd' & Hr' & Hb' & Hf').
  change (sys_run py_float s (e :: evs)) with (sys_run py_float (sys_step py_float s e) evs).
  repeat split; [exact Hd' | congruence | congruence |].
  destruct Hf' as [E' | [Em E']].
  - destruct Hf as [E | [Em E]]; [left; congruence | right; split; congruence].
  - right. split; [exact (assign_step _ _ Em) | exact E'].
Qed.

End Bookkeeping.

(** X3.  In every state the process can reach, what the camera thread
    publishes came in the order of its assignments: when [/imu_buffer]
    answers with a bundle, [/frame_rgb] answers 200; and as long as the
    main thread has not run line 124, an encoded frame is there only
    together with a distance map.  (Line 124 breaks the second: see
    [frame_without_distance_map].) *)
Theorem publication_order
  (A : Type) (N : Number A) (py_float : string -> option A)
  (astype_uint16 : A -> Z) (imencode_png : list Z -> option string) (s : system A) :
  reachable py_float s ->
  (json_get "timestamp" (imu_buffer_stream (glob s)) <> Some JNull ->
   status (frame_rgb (glob s)) = 200%nat) /\
  (main_thread s = AtAssign ->
   status (frame_rgb (glob s)) = 200%nat ->
   status (frame_depth_raw astype_uint16 imencode_png (glob s)) <> 503%nat).
Proof.
  intros Hr.
  assert (H : availability s).
  { apply (@reachable_invariant A N py_float (@availability A)); auto.
    - apply availability_initial.
    - intros. now apply availability_step. }
  destruct H as (_ & _ & Hrd & Hb). split.
  - intros Hj. unfold frame_rgb.
    destruct (latest_rgb (glob s)) as [rb |] eqn:E; [reflexivity |].
    exfalso. unfold imu_buffer_stream in Hj.
    destruct (synced_imu (glob s)) as [| b l] eqn:El.
    + apply Hj. reflexivity.
    + apply Hb; [discriminate | reflexivity].
  - unfold frame_rgb, frame_depth_raw. intros Hm Hs.
    destruct (latest_rgb (glob s)) as [rb |] eqn:E; [| discriminate Hs].
    destruct (latest_depth_float (glob s)) as [dist |] eqn:Ed.
    + destruct (imencode_png (depth_16 astype_uint16 dist)); simpl; discriminate.
    + exfalso. apply Hrd; [exact Hm | discriminate | reflexivity].
Qed.

(** X4.  What the camera thread has published is not taken back by the
    threads: once [/frame_rgb] has answered 200 it answers 200 for ever,
    once [/imu_buffer] has answered with a bundle it always does, and
    once the main thread has run line 124, a distance map that
    [/frame_depth_raw] has had stays (before that, line 124 takes it
    back: see [distance_map_taken_back]). *)
Theorem published_stays
  (A : Type) (N : Number A) (py_float : string -> option A)
  (astype_uint16 : A -> Z) (imencode_png : list Z -> option string)
  (s : system A) (evs : list (event A)) :
  (status (frame_rgb (glob s)) = 200%nat ->
   status (frame_rgb (glob (sys_run py_float s evs))) = 200%nat) /\
  (main_thread s = Serving ->
   status (frame_depth_raw astype_uint16 imencode_png (glob s)) <> 503%nat ->
   status (frame_depth_raw astype_uint16 imencode_png (glob (sys_run py_float s evs)))
   <> 503%nat) /\
  (json_get "timestamp" (imu_buffer_stream (glob s)) <> Some JNull ->
   json_get "timestamp" (imu_buffer_stream (glob (sys_run py_float s evs))) <> Some JNull).
Proof.
  pose (P0 := fun s0 : system A =>
    (main_thread s = Serving -> main_thread s0 = Serving) /\
    (main_thread s = Serving ->
     latest_depth_float (glob s) <> None -> latest_depth_float (glob s0) <> None) /\
    (latest_rgb (glob s) <> None -> latest_rgb (glob s0) <> None) /\
    (synced_imu (glob s) <> [] -> synced_imu (glob s0) <> [])).
  assert (H : P0 (sys_run py_float s evs)).
  { apply sys_run_invariant.
    - intros s0 e (H0 & H1 & H2 & H3).
      destruct (published_stays_step py_float s0 e) as (K1 & K2 & K3).
      repeat split; auto. intros Hm. apply serving_step. auto.
    - repeat split; auto. }
  destruct H as (_ & Hd & Hr & Hb). split; [| split].
  - unfold frame_rgb. intros Hs.
    destruct (latest_rgb (glob s)) eqn:E; [| discriminate Hs].
    destruct (latest_rgb (glob (sys_run py_float s evs))) eqn:E'; [reflexivity |].
    exfalso. apply Hr; [discriminate | reflexivity].
  - unfold frame_depth_raw. intros Hm Hs.
    destruct (latest_depth_float (glob s)) eqn:E; [| exfalso; apply Hs; reflexivity].
    destruct (latest_depth_float (glob (sys_run py_float s evs))) as [dist |] eqn:E'.
    + destruct (imencode_png (depth_16 astype_uint16 dist)); simpl; discriminate.
    + exfalso. apply Hd; [exact Hm | discriminate | reflexivity].
  - unfold imu_buffer_stream. intros Hs.
    destruct (synced_imu (glob s)) as [| b l] eqn:E; [exfalso; apply Hs; reflexivity |].
    destruct (last_item (synced_imu (glob (sys_run py_float s evs)))) as [[t d] |] eqn:L.
    + simpl. discriminate.
    + exfalso. apply Hb; [discriminate |].
      destruct (synced_imu (glob (sys_run py_float s evs))) as [| b' l'] eqn:E';
        [reflexivity |].
      exfalso. clear - L. revert b' L. induction l' as [| c l' IH]; intros b' L.
      * discriminate L.
      * simpl in L. apply (IH c). exact L.
Qed.

(** X5.  Between two cycles of the frame loop (the camera thread at line
    87), [last_imu_ts] and [latest_imu_buffer] are the time stamp and the
    samples of the latest bundle, [synced_imu[-1]]; before the first
    bundle they are 0.0 and empty. *)
Theorem bookkeeping_between_cycles
  (A : Type) (N : Number A) (py_float : string -> option A) (s : system A) :
  reachable py_float s ->
  cam_thread s = AtRead ->
  ts_agrees (glob s) /\ buffer_agrees (glob s).
Proof.
  intros Hr Hpc.
  assert (H : bookkeeping s).
  { apply (@reachable_invariant A N py_float (@bookkeeping A N)); auto.
    - apply bookkeeping_initial.
    - intros. now apply bookkeeping_step. }
  unfold bookkeeping in H. rewrite Hpc in H. exact H.
Qed.

Lemma after_cycle_a_reachable : reachable float_of_digits after_cycle_a.
Proof.
  exists (F 995 (-1)),
         (ImuRead (Line "0 1 2 3 4 5 6") :: repeat (CamStep (Some frame_a) (F 100 0)) 7).
  reflexivity.
Qed.

Lemma publication_order_witness :
  (json_get "timestamp" (imu_buffer_stream (glob after_cycle_a)) <> Some JNull ->
   status (frame_rgb (glob after_cycle_a)) = 200%nat) /\
  (main_thread after_cycle_a = AtAssign ->
   status (frame_rgb (glob after_cycle_a)) = 200%nat ->
   status (frame_depth_raw (fun _ : float => 0%Z) (fun _ => Some "png") (glob after_cycle_a))
   <> 503%nat).
Proof.
  apply (@publication_order float _ float_of_digits). exact after_cycle_a_reachable.
Defined.

(** Line 124 between lines 95 and 99 of the first cycle: the process then
    serves the encoded frame while [/frame_depth_raw] answers 503; and
    line 124 after a whole cycle takes the distance map back. *)
Example frame_without_distance_map :
  let s := sys_run float_of_digits (initial (F 995 (-1)))
             [CamStep (Some frame_a) (F 100 0); MainStep; CamStep (Some frame_a) (F 100 0)] in
  main_thread s = Serving /\
  status (frame_rgb (glob s)) = 200%nat /\
  status (frame_depth_raw (fun _ : float => 0%Z) (fun _ => Some "png") (glob s)) = 503%nat.
Proof. vm_compute. repeat split; reflexivity. Qed.

Example distance_map_taken_back :
  status (frame_depth_raw (fun _ : float => 0%Z) (fun _ => Some "png") (glob after_cycle_a))
  = 200%nat /\
  status (frame_depth_raw (fun _ : float => 0%Z) (fun _ => Some "png")
            (glob (sys_step float_of_digits after_cycle_a MainStep)))
  = 503%nat.
Proof. vm_compute. split; reflexivity. Qed.

Lemma bookkeeping_between_cycles_witness :
  ts_agrees (glob after_cycle_a) /\ buffer_agrees (glob after_cycle_a).
Proof.
  apply (@bookkeeping_between_cycles float _ float_of_digits).
  - exact after_cycle_a_reachable.
  - vm_compute. reflexivity.
Defined.

(** X6.  The camera thread only reads the inertial side: however many
    statements it runs, [imu_buffer] and the reader's locals are as they
    were; and a camera that delivers no frame ([ret] false) leaves the
    whole process as it was, however often it is asked. *)
Theorem camera_leaves_reader_alone
  (A : Type) (N : Number A) (py_float : string -> option A)
  (s : system A) (cap : option (frame A)) (now : A) (n : nat) :
  imu_buffer (glob (camera_loop py_float n cap now s)) = imu_buffer (glob s) /\
  imu_thread (camera_loop py_float n cap now s) = imu_thread s /\
  (cam_thread s = AtRead -> camera_loop py_float n None now s = s).
Proof.
  split; [| split].
  - revert s. induction n as [| n IH]; intros s; [reflexivity |].
    unfold camera_loop in *.
    change (sys_run py_float s (repeat (CamStep cap now) (S n)))
      with (sys_run py_float (sys_step py_float s (CamStep cap now))
                    (repeat (CamStep cap now) n)).
    rewrite IH, sys_step_cam. simpl. apply camera_loop_step_imu_buffer.
  - revert s. induction n as [| n IH]; intros s; [reflexivity |].
    unfold camera_loop in *.
    change (sys_run py_float s (repeat (CamStep cap now) (S n)))
      with (sys_run py_float (sys_step py_float s (CamStep cap now))
                    (repeat (CamStep cap now) n)).
    rewrite IH, sys_step_cam. reflexivity.
  - apply failed_reads.
Qed.

(** X7.  [camera_loop] catches nothing.  A depth map without entries
    makes [depth_to_distance] raise [ValueError] before anything is
    assigned; the camera thread ends there, and whatever happens
    afterwards, reads of the inertial port included, the encoded frame
    and the bundles stay what they were.  So does the distance map, and
    with it all that is published, when the main thread has run line
    124; otherwise line 124 is the one thing that can still change it,
    to [None]. *)
Theorem camera_thread_dies
  (A : Type) (N : Number A) (py_float : string -> option A)
  (s : system A) (f : frame A) (now : A) (evs : list (event A)) :
  cam_thread s = AtRead ->
  raw_depth f = [] ->
  let s' := sys_step py_float s (CamStep (Some f) now) in
  let s'' := sys_run py_float s' evs in
  cam_thread s' = Dead /\
  glob s' = glob s /\
  cam_thread s'' = Dead /\
  latest_rgb (glob s'') = latest_rgb (glob s) /\
  synced_imu (glob s'') = synced_imu (glob s) /\
  (main_thread s = Serving -> published (glob s'') = published (glob s)) /\
  (published (glob s'') = published (glob s) \/
   main_thread s = AtAssign /\ latest_depth_float (glob s'') = None).
Proof.
  intros Hpc Hf s' s''.
  assert (E : s' = mk_system (glob s) (imu_thread s) Dead (main_thread s)).
  { unfold s'. rewrite sys_step_cam, Hpc. simpl. rewrite Hf. reflexivity. }
  destruct (@dead_run A N py_float evs s') as (Hd & Hr & Hb & Hdf);
    [rewrite E; reflexivity |].
  fold s'' in Hd, Hr, Hb, Hdf. rewrite E in Hr, Hb, Hdf. simpl in Hr, Hb, Hdf.
  assert (Hp : latest_depth_float (glob s'') = latest_depth_float (glob s) ->
               published (glob s'') = published (glob s)).
  { intros Ed. unfold published. now rewrite Hr, Hb, Ed. }
  split; [rewrite E; reflexivity |].
  split; [rewrite E; reflexivity |].
  split; [exact Hd |]. split; [exact Hr |]. split; [exact Hb |]. split.
  - intros Hm. apply Hp. destruct Hdf as [Ed | [Em _]]; [exact Ed |].
    rewrite Hm in Em. discriminate Em.
  - destruct Hdf as [Ed | [Em En]]; [left; now apply Hp | right; split; assumption].
Qed.

Lemma camera_thread_dies_witness :
  let s' := sys_step float_of_digits after_cycle_a
              (CamStep (Some (mk_frame "jpeg-C" [])) (F 101 0)) in
  let s'' := sys_run float_of_digits s' (MainStep :: some_run) in
  cam_thread s' = Dead /\
  glob s' = glob after_cycle_a /\
  cam_thread s'' = Dead /\
  latest_rgb (glob s'') = latest_rgb (glob after_cycle_a) /\
  synced_imu (glob s'') = synced_imu (glob after_cycle_a) /\
  (main_thread after_cycle_a = Serving ->
   published (glob s'') = published (glob after_cycle_a)) /\
  (published (glob s'') = published (glob after_cycle_a) \/
   main_thread after_cycle_a = AtAssign /\ latest_depth_float (glob s'') = None).
Proof.
  apply (@camera_thread_dies float _ float_of_digits after_cycle_a
           (mk_frame "jpeg-C" []) (F 101 0) (MainStep :: some_run)); reflexivity.
Defined.

(** ** The inertial buffer over a run *)

Lemma fold_deque_append (T : Type) maxlen (xs d : list T) :
  (List.length d <= maxlen)%nat ->
  fold_left (deque_append maxlen) xs d
  = skipn (List.length (d ++ xs) - maxlen) (d ++ xs).
Proof.
  revert d. induction xs as [| x xs IH]; intros d H.
  - simpl. rewrite app_nil_r.
    replace (List.length d - maxlen)%nat with 0%nat by lia. reflexivity.
  - simpl fold_left. rewrite IH by now apply deque_append_length.
    destruct (Nat.lt_ge_cases (List.length d) maxlen) as [Hlt | Hge].
    + rewrite deque_append_room by exact Hlt.
      rewrite <- app_assoc. reflexivity.
    + destruct d as [| a d0].
      * simpl in Hge. assert (maxlen = 0)%nat by lia. subst maxlen.
        change (deque_append 0 [] x) with (@nil T).
        rewrite !Nat.sub_0_r, !skipn_all. reflexivity.
      * rewrite deque_append_evicts by (simpl in *; lia).
        rewrite <- app_assoc. simpl app.
        assert (Hlen : (maxlen <= List.length (d0 ++ x :: xs))%nat)
          by (rewrite length_app; simpl in *; lia).
        change (List.length (a :: d0 ++ x :: xs)) with (S (List.length (d0 ++ x :: xs))).
        replace (S (List.length (d0 ++ x :: xs)) - maxlen)%nat
          with (S (List.length (d0 ++ x :: xs) - maxlen)) by lia.
        reflexivity.
Qed.

Section ReaderBuffer.

Context {A : Type} {N : Number A}.
Variable py_float : string -> option A.

Implicit Types (r : reader A) (buf : list (sample A)) (text : string).

Lemma imu_reader_appends rds : forall r buf,
  snd (imu_reader py_float r buf rds)
  = fold_left (deque_append IMU_MAXLEN) (appended py_float r rds) buf.
Proof.
  induction rds as [| rd rds IH]; intros r buf; [reflexivity |].
  rewrite imu_reader_cons. destruct rd as [text |].
  - simpl appended. destruct (parse_record py_float text) as [l |] eqn:H.
    + destruct (parse_record_some _ _ H)
        as (? & ? & ? & ? & ? & ? & ? & t & v1 & v2 & v3 & v4 & v5 & v6 & _ & -> & _).
      rewrite (imu_reader_iteration_parsed _ r buf _ H). simpl fst. simpl snd.
      rewrite IH. reflexivity.
    + destruct (imu_reader_iteration_malformed _ r buf _ H) as [-> | ->]; apply IH.
  - rewrite imu_reader_iteration_read_fails. apply IH.
Qed.

End ReaderBuffer.

(** X1.  Whatever is read, [imu_buffer] ends up holding the latest 2000
    of the samples it held and the samples appended since, in the order
    they arrived: nothing is reordered, and only the oldest are lost. *)
Theorem imu_buffer_keeps_latest
  (A : Type) (N : Number A) (py_float : string -> option A)
  (r : reader A) (buf : list (sample A)) (rds : list read_result) :
  (List.length buf <= 2000)%nat ->
  let all := buf ++ appended py_float r rds in
  snd (imu_reader py_float r buf rds) = skipn (List.length all - 2000) all.
Proof.
  intros H all. rewrite imu_reader_appends. now apply fold_deque_append.
Qed.

Lemma imu_buffer_keeps_latest_witness :
  let all := [] ++ appended float_of_digits (reader_start (F 10 0))
                     (repeat (Line "0 1 2 3 4 5 6") 2001) in
  snd (imu_reader float_of_digits (reader_start (F 10 0)) []
         (repeat (Line "0 1 2 3 4 5 6") 2001))
  = skipn (List.length all - 2000) all.
Proof.
  apply (@imu_buffer_keeps_latest float _ float_of_digits). simpl. lia.
Defined.

Lemma split_length (sep : ascii) (s : string) :
  List.length (split sep s) = S (count_char sep s).
Proof.
  induction s as [| c s IH]; [reflexivity |].
  simpl. destruct (Ascii.eqb c sep).
  - simpl. now rewrite IH.
  - destruct (split sep s) as [| p ps]; [discriminate IH | simpl in *; exact IH].
Qed.

Lemma rstrip_all_space (w : string) : all_space w = true -> rstrip w = EmptyString.
Proof.
  induction w as [| c w IH]; [reflexivity |]. simpl.
  intros H. apply andb_true_iff in H. destruct H as [Hc Hw].
  now rewrite (IH Hw), Hc.
Qed.

Lemma rstrip_append_space (s w : string) :
  all_space w = true -> rstrip (String.append s w) = rstrip s.
Proof.
  intros H. induction s as [| c s IH]; simpl.
  - now apply rstrip_all_space.
  - now rewrite IH.
Qed.

Lemma lstrip_all_space (w : string) : all_space w = true -> lstrip w = EmptyString.
Proof.
  induction w as [| c w IH]; [reflexivity |]. simpl.
  intros H. apply andb_true_iff in H. destruct H as [Hc Hw].
  now rewrite Hc, (IH Hw).
Qed.

Lemma strip_append_space (s w : string) :
  all_space w = true -> strip (String.append s w) = strip s.
Proof.
  intros H. unfold strip. induction s as [| c s IH]; simpl.
  - now rewrite (lstrip_all_space _ H).
  - destruct (is_space c); [exact IH |].
    change (String c (String.append s w)) with (String.append (String c s) w).
    now apply rstrip_append_space.
Qed.

Lemma strip_prepend_space (w s : string) :
  all_space w = true -> strip (String.append w s) = strip s.
Proof.
  unfold strip. induction w as [| c w IH]; [reflexivity |]. simpl.
  intros H. apply andb_true_iff in H. destruct H as [Hc Hw].
  rewrite Hc. now apply IH.
Qed.

Section ParsingFacts.

Context {A : Type} {N : Number A}.
Variable py_float : string -> option A.

Implicit Types (r : reader A) (buf : list (sample A)) (text : string).

Lemma imu_reader_try_strip r buf text text' :
  strip text = strip text' ->
  imu_reader_try py_float r buf (Line text) = imu_reader_try py_float r buf (Line text').
Proof. intros H. unfold imu_reader_try. now rewrite H. Qed.

Lemma imu_reader_try_not_seven r buf text :
  List.length (fields text) <> 7%nat ->
  imu_reader_try py_float r buf (Line text) = Ok (r, buf).
Proof.
  unfold imu_reader_try. fold (fields text).
  generalize (fields text) as l. intros l Hlen.
  do 7 (destruct l as [| ? l]; [reflexivity |]).
  destruct l; [simpl in Hlen; congruence | reflexivity].
Qed.

Lemma imu_reader_try_seven_bad r buf text :
  List.length (fields text) = 7%nat ->
  parse_record py_float text = None ->
  imu_reader_try py_float r buf (Line text) = Raise ValueError.
Proof.
  intros Hlen H. unfold parse_record in H. rewrite Hlen in H. simpl in H.
  unfold imu_reader_try. fold (fields text).
  destruct (seven_fields _ Hlen) as (p0 & p1 & p2 & p3 & p4 & p5 & p6 & E).
  rewrite E in *. simpl in H.
  destruct (py_float p0), (py_float p1), (py_float p2), (py_float p3),
           (py_float p4), (py_float p5), (py_float p6);
    try discriminate; reflexivity.
Qed.

End ParsingFacts.

(** X8.  What the reader does with a line is decided by the spaces in it.
    A line that, stripped, has not exactly six space characters is skipped
    without a word (so are records separated by tabs, or by two spaces
    where that changes the count); one that has six and a field [float()]
    rejects is dropped with the [ValueError] printed. *)
Theorem six_spaces
  (A : Type) (N : Number A) (py_float : string -> option A)
  (r : reader A) (buf : list (sample A)) (text : string) :
  (count_char " " (strip text) <> 6%nat ->
   imu_reader_iteration py_float r buf (Line text) = (r, buf, None)) /\
  (count_char " " (strip text) = 6%nat ->
   parse_record py_float text = None ->
   imu_reader_iteration py_float r buf (Line text) = (r, buf, Some ValueError)).
Proof.
  assert (L : List.length (fields text) = S (count_char " " (strip text)))
    by apply split_length.
  split.
  - intros H. unfold imu_reader_iteration.
    rewrite imu_reader_try_not_seven; [reflexivity | lia].
  - intros H Hp. unfold imu_reader_iteration.
    rewrite imu_reader_try_seven_bad; [reflexivity | lia | exact Hp].
Qed.

(** X9.  Whitespace around a line, such as the line end the port
    delivers, makes no difference to what the reader does with it. *)
Theorem surrounding_whitespace
  (A : Type) (N : Number A) (py_float : string -> option A)
  (r : reader A) (buf : list (sample A)) (before text after : string) :
  all_space before = true ->
  all_space after = true ->
  imu_reader_iteration py_float r buf
    (Line (String.append before (String.append text after)))
  = imu_reader_iteration py_float r buf (Line text).
Proof.
  intros Hb Ha. unfold imu_reader_iteration.
  rewrite (@imu_reader_try_strip A N py_float r buf
             (String.append before (String.append text after)) text);
    [reflexivity |].
  rewrite strip_prepend_space by exact Hb. now apply strip_append_space.
Qed.

Lemma surrounding_whitespace_witness :
  imu_reader_iteration float_of_digits (reader_start (F 10 0)) []
    (Line (String.append "  " (String.append "7 1 2 3 4 5 6" crlf)))
  = imu_reader_iteration float_of_digits (reader_start (F 10 0)) [] (Line "7 1 2 3 4 5 6").
Proof.
  apply (@surrounding_whitespace float _ float_of_digits); reflexivity.
Defined.

(** Two spaces in a row, or tabs between the fields, and the record is
    skipped. *)
Example double_space_skipped :
  imu_reader_iteration float_of_digits (reader_start (F 10 0)) [] (Line "7 1 2  3 4 5 6")
  = (reader_start (F 10 0), [], None).
Proof. vm_compute. reflexivity. Qed.

(** ** More on the distance map *)

(** X11.  In any arithmetic and for any [min_dist] and [max_dist],
    [depth_to_distance] raises exactly on a depth map without entries, and
    then a [ValueError]; on any other it returns a distance map with as
    many entries as the depth map. *)
Theorem depth_to_distance_shape
  (A : Type) (N : Number A) (depth_map : list A) (min_dist max_dist : A) :
  (depth_map = [] <-> depth_to_distance depth_map min_dist max_dist = Raise ValueError) /\
  (forall e, depth_to_distance depth_map min_dist max_dist = Raise e -> depth_map = []) /\
  (forall dist, depth_to_distance depth_map min_dist max_dist = Ok dist ->
                List.length dist = List.length depth_map).
Proof.
  destruct depth_map as [| x xs].
  - repeat split; auto; discriminate.
  - unfold depth_to_distance, array_min, array_max. repeat split; try discriminate.
    intros dist H. injection H as <-. simpl. now rewrite !length_map.
Qed.

(** ** The distance map on its way out *)

Section Millimetres.

Variable py_float : string -> option Q.

Lemma depth_in_range_step (s : system Q) (e : event Q) :
  depth_in_range (glob s) -> depth_in_range (glob (sys_step py_float s e)).
Proof.
  intros H. destruct e as [rd | cap now |];
    [| | rewrite sys_step_main; destruct (main_thread s);
         [intros dist Hd; discriminate Hd | exact H]].
  - rewrite sys_step_imu. exact H.
  - rewrite sys_step_cam. destruct s as [g r pc m]. cbn [glob cam_thread] in *.
    destruct pc; try exact H.
    cbn [camera_loop_step]. destruct cap as [f |]; [| exact H].
    destruct (depth_to_distance (raw_depth f) MIN_DIST MAX_DIST) as [dist |] eqn:E;
      [| exact H].
    intros dist' Hd. injection Hd as <-.
    assert (Hne : raw_depth f <> []) by (intros Hn; rewrite Hn in E; discriminate E).
    destruct (distance_bounds_Q Hne) as (dist' & E' & HF).
    rewrite E in E'. injection E' as <-.
    clear - HF. induction HF as [| v d l l' (H1 & H5 & _) _ IH]; constructor; auto.
Qed.

Lemma depth_in_range_initial (now : Q) : depth_in_range (glob (initial now)).
Proof. intros dist H. discriminate H. Qed.

End Millimetres.

Lemma floor_millimetres (d : Q) :
  (1 < d)%Q -> (d <= 5)%Q ->
  (1000 <= Qfloor (d * 1000) <= 5000)%Z.
Proof.
  intros H1 H5. split.
  - change 1000%Z with (Qfloor (inject_Z 1000)) at 1.
    apply Qfloor_resp_le. change (inject_Z 1000) with 1000%Q. lra.
  - change 5000%Z with (Qfloor (inject_Z 5000)).
    apply Qfloor_resp_le. change (inject_Z 5000) with 5000%Q. lra.
Qed.


(** ** A cast to run the handler on *)

Lemma wrapping_cast_in_range (q : Q) :
  (0 <= q)%Q -> (q < 65536)%Q -> wrapping_cast q = Qfloor q.
Proof.
  intros H0 H1. unfold wrapping_cast. apply Z.mod_small. split.
  - change 0%Z with (Qfloor (inject_Z 0)). apply Qfloor_resp_le. exact H0.
  - pose proof (Qfloor_le q) as Hf.
    assert (Hq : (inject_Z (Qfloor q) < inject_Z 65536)%Q)
      by (change (inject_Z 65536) with 65536%Q; lra).
    now rewrite <- Zlt_Qlt in Hq.
Qed.

(** X16.  In exact arithmetic, a sample is in the bundles of two frames
    only if the frames are less than a second apart, and the samples of
    one bundle are less than a second apart, all of them before the frame
    and less than a second before it. *)
Theorem windows_are_short :
  (forall (T1 T2 : Q) (s : sample Q),
      in_window T1 s = true -> in_window T2 s = true ->
      (-1 < T2 - T1)%Q /\ (T2 - T1 < 1)%Q) /\
  (forall (T : Q) (snapshot : list (sample Q)) (s1 s2 : sample Q),
      In s1 (synchronize T snapshot) -> In s2 (synchronize T snapshot) ->
      (-1 < ts s2 - ts s1)%Q /\ (ts s2 - ts s1 < 1)%Q /\
      (ts s1 < T)%Q /\ (T - 1 < ts s1)%Q).
Proof.
  assert (W : forall (T : Q) (s : sample Q),
             in_window T s = true -> (0 < T - ts s)%Q /\ (T - ts s < 1)%Q).
  { intros T s H. apply in_window_spec in H. destruct H as [H0 H1].
    change (Q_ltb 0 (T - ts s) = true) in H0.
    change (Q_ltb (T - ts s) 1 = true) in H1.
    apply Q_ltb_lt in H0, H1. split; assumption. }
  split.
  - intros T1 T2 s H1 H2. apply W in H1, H2. split; lra.
  - intros T snapshot s1 s2 H1 H2. unfold synchronize in *.
    apply filter_In in H1, H2. destruct H1 as [_ H1], H2 as [_ H2].
    apply W in H1, H2. repeat split; lra.
Qed.


Example pixels_after_exact_run :
  depth_16 wrapping_cast exact_dist = [5000; 3666; 1000]%Z.
Proof. vm_compute. reflexivity. Qed.
